(** * CServer: worker pool, rate limiter and HTTP response path

    A shallow embedding of the connection-handling core of CServer
    (thread_pool.c, http.c and server.c) together with the properties
    its design document states about it.

    Conventions of the embedding.
    - C [int], [size_t] and [time_t] values are integers of [Z]; where the
      C code converts between signed and unsigned types, or relies on
      unsigned wrap-around, this is written out with [mod].  Clock
      readings and counters stay far from the bounds of their types, so
      their arithmetic is exact.
    - A C string is a [string]; a [char*] that may be [NULL] is an
      [option string].
    - C arrays are lists, read with [!!!] and written with [<[i:=x]>].
    - The functions that run under a lock are modelled as one atomic
      state transformer for the locked region; concurrency is the
      interleaving of such steps. *)

From Stdlib Require Import ZArith Lia Ascii String HexString DecimalString.
From stdpp Require Import base list strings relations.
From stdpp Require Import sorting.

Open Scope string_scope.
Open Scope Z_scope.
Open Scope list_scope.

(* ================================================================== *)
(** * Part I: the program *)
(* ================================================================== *)

(** C's [%] on [int] truncates towards zero. *)
Definition c_rem (a b : Z) : Z := Z.rem a b.

(* ------------------------------------------------------------------ *)
(** ** The C library functions the sources call *)
(* ------------------------------------------------------------------ *)

Definition CR : ascii := ascii_of_nat 13.
Definition LF : ascii := ascii_of_nat 10.
Definition CRLF : string := String CR (String LF EmptyString).
Definition DQUOTE : string := String (ascii_of_nat 34) EmptyString.

(** The value of a plain [char] on the target (x86-64 Linux, where
    [char] is signed) once promoted to [int]. *)
Definition char_to_int (c : ascii) : Z :=
  let n := Z.of_nat (nat_of_ascii c) in
  if n <? 128 then n else n - 256.

(** [strstr haystack needle]: the rest of [haystack] from the first
    occurrence of [needle] on, or [None] for [NULL]. *)
Fixpoint strstr (haystack needle : string) : option string :=
  if String.prefix needle haystack then Some haystack
  else match haystack with
       | EmptyString => None
       | String _ rest => strstr rest needle
       end.

(** [strncmp(s, lit, strlen(lit)) == 0]. *)
Definition strncmp_eq (s lit : string) : bool := String.prefix lit s.

(** [strcmp(a, b) == 0]. *)
Definition strcmp_eq (a b : string) : bool := String.eqb a b.

Definition tolower (c : ascii) : ascii :=
  let n := nat_of_ascii c in
  if (65 <=? n)%nat && (n <=? 90)%nat then ascii_of_nat (n + 32) else c.

Fixpoint string_tolower (s : string) : string :=
  match s with
  | EmptyString => EmptyString
  | String c rest => String (tolower c) (string_tolower rest)
  end.

(** [strcasecmp(a, b) == 0]. *)
Definition strcasecmp_eq (a b : string) : bool :=
  String.eqb (string_tolower a) (string_tolower b).

(** [strrchr(s, c)]: the rest of [s] from the last [c] on. *)
Fixpoint strrchr (s : string) (c : ascii) : option string :=
  match s with
  | EmptyString => None
  | String a rest =>
      match strrchr rest c with
      | Some r => Some r
      | None => if Ascii.eqb a c then Some s else None
      end
  end.

(** [snprintf(buf, size, ...)] keeps at most [size - 1] characters of
    the formatted text. *)
Definition snprintf (size : nat) (text : string) : string :=
  String.substring 0 (size - 1) text.

(** [strncpy(dst, src, n)] into a zeroed buffer of [n + 1] bytes. *)
Definition strncpy (n : nat) (src : string) : string :=
  String.substring 0 n src.

(** [s[strlen(s) - 1]]; for the empty string the C expression reads
    outside the array, which is [None] here. *)
Fixpoint last_char (s : string) : option ascii :=
  match s with
  | EmptyString => None
  | String c EmptyString => Some c
  | String _ rest => last_char rest
  end.

(** printf conversions: [%d], [%zu] and [%lx]/[%zx] (the argument is
    converted to a 64-bit unsigned value for the last two). *)
Definition printf_d (v : Z) : string := NilZero.string_of_int (Z.to_int v).

Definition printf_zu (v : Z) : string :=
  NilZero.string_of_uint (N.to_uint (Z.to_N (v mod 2 ^ 64))).

Definition printf_lx (v : Z) : string :=
  match v mod 2 ^ 64 with
  | Zpos p => HexString.Raw.of_pos p EmptyString
  | _ => String "0"%char EmptyString
  end.

(** [%s] of a [char*]: glibc prints a [NULL] pointer as "(null)". *)
Definition printf_s (s : option string) : string := default "(null)"%string s.

(* ------------------------------------------------------------------ *)
(** ** server.h *)
(* ------------------------------------------------------------------ *)

(** [server_config_t] of server.h (the header is found at the end of
    www/app/js/app.js; the structure at its lines 254-285): "document
    root, ..., gzip enable + minimum size, rate-limit enable + max
    requests + window seconds"; every numeric field is an [int] filled
    by [atoi].  Only the fields read by the modelled functions are
    kept. *)
Record server_config_t := ServerConfig {
  doc_root : string;
  enable_gzip : Z;
  gzip_min_size : Z;
  enable_rate_limit : Z;
  rate_limit_max : Z;
  rate_limit_interval : Z
}.

(** [http_request_t] of server.h (www/app/js/app.js, lines 294-307),
    restricted to the fields that
    [handle_http_request] and [send_http_response] read; all of them are
    character arrays inside the structure except the [int] flag. *)
Record http_request_t := HttpRequest {
  method : string;
  path : string;
  keep_alive : Z;
  if_none_match : string;
  accept_encoding : string
}.

(** [http_response_t] of server.h (www/app/js/app.js, lines 316-324):
    "status code, status text, content-type,
    content-length, body (optional), keep-alive flag, back-reference to
    the originating Request".  [status_text], [content_type] and [body]
    are [char*]; the keep-alive field of the response is called
    [keep_alive] in C as well. *)
Record http_response_t := HttpResponse {
  status_code : Z;
  status_text : option string;
  content_type : option string;
  content_length : Z;
  body : option string;
  response_keep_alive : Z;
  request : option http_request_t
}.

(** [response->request], for use where a parameter is called [request]. *)
Definition request_of (response : http_response_t) : option http_request_t :=
  request response.

(** The fields of [struct stat] the server reads; [st_is_dir] is
    [S_ISDIR(st_mode)]. *)
Record file_stat := FileStat {
  st_is_dir : bool;
  st_size : Z;
  st_mtime : Z
}.

(** What the operating system and zlib answer.  [fs_stat] is [stat(2)]
    ([None] when it fails), [fs_read] the bytes [open]/[read] deliver
    ([None] when either fails), [format_gmt] is [gmtime] followed by
    [strftime] with the Date format, and [zlib_gzip data] is the gzip
    stream [gzip_compress_data] obtains for [data]: [None] when the
    allocation of the output buffer or [deflateInit2] fails, or when
    [deflate(Z_FINISH)] does not end the stream inside the
    [data_size + 32] bytes of that buffer. *)
Record environment := Environment {
  fs_stat : string → option file_stat;
  fs_read : string → option string;
  format_gmt : Z → string;
  zlib_gzip : string → option string
}.

(* ------------------------------------------------------------------ *)
(** ** thread_pool.c *)
(* ------------------------------------------------------------------ *)

Module ThreadPool.

(** [task_t] of server.h (www/app/js/app.js, lines 333-336): "an
    accepted socket handle + peer address";
    server.c fills the two fields [client_socket] and [client_addr]. *)
Record task_t := Task {
  client_socket : Z;
  client_addr : Z
}.

(** [thread_pool_t] of thread_pool.h (the header is found in
    www/app/js/app.js; the structure at its lines 178-189).
    The fields are the ones thread_pool.c reads and writes: "a
    fixed-capacity circular queue of ConnectionTask, a count of queued
    items, head/tail indices, a shutdown flag".  A queue cell holds a
    [task_t*]; [None] is [NULL].  The thread handles, the mutex and the
    condition variable carry no data. *)
Record thread_pool_t := Pool {
  size : Z;
  queue_size : Z;
  head : Z;
  tail : Z;
  count : Z;
  shutdown : Z;
  queue : list (option task_t)
}.

(** [pool->queue[i]]; an index outside the array is undefined in C and
    never occurs in a reachable pool (see [pool_wf]). *)
Definition queue_at (pool : thread_pool_t) (i : Z) : option task_t :=
  queue pool !!! Z.to_nat i.

(** [thread_pool_create], on the path where every worker was started.
    [malloc(sizeof(task_t * ) * queue_size)] of a negative [int] asks
    for close to [2^64] bytes and returns [NULL], in which case the
    function returns [NULL]; the same holds for the thread array. *)
Definition thread_pool_create (size queue_size : Z) : option thread_pool_t :=
  if (size <? 0) || (queue_size <? 0) then None
  else Some {| size := size;
               queue_size := queue_size;
               head := 0;
               tail := 0;
               count := 0;
               shutdown := 0;
               queue := replicate (Z.to_nat queue_size) None |}.

(** [thread_pool_add]: the return code and the pool after the call.
    The pool pointer is not [NULL] by typing; a [NULL] task is [None]. *)
Definition thread_pool_add (pool : thread_pool_t) (task : option task_t)
  : Z * thread_pool_t :=
  match task with
  | None => (-1, pool)
  | Some t =>
      if count pool =? queue_size pool then (-1, pool)
      else if negb (shutdown pool =? 0) then (-1, pool)
      else (0, {| size := size pool;
                  queue_size := queue_size pool;
                  head := head pool;
                  tail := c_rem (tail pool + 1) (queue_size pool);
                  count := count pool + 1;
                  shutdown := shutdown pool;
                  queue := <[Z.to_nat (tail pool) := Some t]> (queue pool) |})
  end.

(** One pass of the loop of [worker_thread] up to the unlock. *)
Inductive worker_outcome :=
| WorkerWaits                       (* blocked in pthread_cond_wait *)
| WorkerExits                       (* pthread_exit on shutdown *)
| WorkerTakes (task : option task_t) (pool' : thread_pool_t).

Definition worker_thread (pool : thread_pool_t) : worker_outcome :=
  if (count pool =? 0) && (shutdown pool =? 0) then WorkerWaits
  else if negb (shutdown pool =? 0) then WorkerExits
  else WorkerTakes (queue_at pool (head pool))
         {| size := size pool;
            queue_size := queue_size pool;
            head := c_rem (head pool + 1) (queue_size pool);
            tail := tail pool;
            count := count pool - 1;
            shutdown := shutdown pool;
            queue := <[Z.to_nat (head pool) := None]> (queue pool) |}.

(** [thread_pool_destroy] up to the unlock: the only effect on the
    shared queue state is the shutdown flag.  What follows in the C
    function joins the workers and releases the memory. *)
Definition thread_pool_destroy (pool : thread_pool_t) : thread_pool_t :=
  if negb (shutdown pool =? 0) then pool
  else {| size := size pool;
          queue_size := queue_size pool;
          head := head pool;
          tail := tail pool;
          count := count pool;
          shutdown := 1;
          queue := queue pool |}.

(** The atomic steps that may interleave on one pool. *)
Inductive pool_step : thread_pool_t → thread_pool_t → Prop :=
| step_submit pool task :
    pool_step pool (thread_pool_add pool task).2
| step_dequeue pool task pool' :
    worker_thread pool = WorkerTakes task pool' →
    pool_step pool pool'
| step_shutdown pool :
    pool_step pool (thread_pool_destroy pool).

Definition pool_reachable (pool : thread_pool_t) : Prop :=
  ∃ size queue_size pool0,
    thread_pool_create size queue_size = Some pool0 ∧ rtc pool_step pool0 pool.

(** The queued tasks, oldest first: [count] cells starting at [head],
    wrapping around the array. *)
Definition pending (pool : thread_pool_t) : list (option task_t) :=
  (λ k : nat, queue_at pool (c_rem (head pool + Z.of_nat k) (queue_size pool)))
    <$> seq 0 (Z.to_nat (count pool)).

End ThreadPool.

(* ------------------------------------------------------------------ *)
(** ** http.h and http.c *)
(* ------------------------------------------------------------------ *)

Definition HTTP_OK : Z := 200.
Definition HTTP_NOT_FOUND : Z := 404.
Definition HTTP_METHOD_NOT_ALLOWED : Z := 405.
Definition HTTP_INTERNAL_SERVER_ERROR : Z := 500.

Definition HTTP_METHOD_GET : string := "GET".
Definition HTTP_METHOD_HEAD : string := "HEAD".

Definition MIME_HTML : string := "text/html; charset=UTF-8".
Definition MIME_TEXT : string := "text/plain; charset=UTF-8".
Definition MIME_JSON : string := "application/json; charset=UTF-8".
Definition MIME_CSS : string := "text/css; charset=UTF-8".
Definition MIME_JS : string := "application/javascript; charset=UTF-8".
Definition MIME_JPEG : string := "image/jpeg".
Definition MIME_PNG : string := "image/png".
Definition MIME_GIF : string := "image/gif".
Definition MIME_SVG : string := "image/svg+xml".
Definition MIME_BINARY : string := "application/octet-stream".

Definition get_mime_type (file_path : string) : string :=
  match strrchr file_path "." with
  | None => MIME_BINARY
  | Some dot_ext =>
      let ext := String.substring 1 (String.length dot_ext) dot_ext in
      if strcasecmp_eq ext "html" || strcasecmp_eq ext "htm" then MIME_HTML
      else if strcasecmp_eq ext "txt" then MIME_TEXT
      else if strcasecmp_eq ext "css" then MIME_CSS
      else if strcasecmp_eq ext "js" then MIME_JS
      else if strcasecmp_eq ext "json" then MIME_JSON
      else if strcasecmp_eq ext "jpg" || strcasecmp_eq ext "jpeg" then MIME_JPEG
      else if strcasecmp_eq ext "png" then MIME_PNG
      else if strcasecmp_eq ext "gif" then MIME_GIF
      else if strcasecmp_eq ext "svg" then MIME_SVG
      else MIME_BINARY
  end.

Definition get_status_text (status_code : Z) : string :=
  match status_code with
  | 200 => "OK"
  | 201 => "Created"
  | 204 => "No Content"
  | 301 => "Moved Permanently"
  | 302 => "Found"
  | 304 => "Not Modified"
  | 400 => "Bad Request"
  | 401 => "Unauthorized"
  | 403 => "Forbidden"
  | 404 => "Not Found"
  | 405 => "Method Not Allowed"
  | 500 => "Internal Server Error"
  | 501 => "Not Implemented"
  | 503 => "Service Unavailable"
  | _ => "Unknown"
  end%Z.

(** [build_http_response] overwrites five fields of the response and
    leaves [keep_alive] and [request] as they are.  [malloc] is taken to
    succeed. *)
Definition build_http_response (response : http_response_t) (status_code : Z)
    (content_type : string) (body : option string) (content_length : Z)
  : http_response_t :=
  let filled :=
    match body with
    | Some bytes =>
        if 0 <? content_length
        then (Some (String.substring 0 (Z.to_nat content_length) bytes),
              content_length)
        else (None, 0)
    | None => (None, 0)
    end in
  {| status_code := status_code;
     status_text := Some (get_status_text status_code);
     content_type := Some content_type;
     content_length := filled.2;
     body := filled.1;
     response_keep_alive := response_keep_alive response;
     request := request response |}.

(** [read_file_content]: [Some content] when it returns 0, in which case
    [*content_length] is the length of [content]; [None] when it returns
    -1.  [read] delivers the bytes of the file up to the requested
    number. *)
Definition read_file_content (env : environment) (file_path : string)
  : option string :=
  match fs_stat env file_path with
  | None => None
  | Some st =>
      match fs_read env file_path with
      | None => None
      | Some data =>
          let bytes_read := Z.min (st_size st) (Z.of_nat (String.length data)) in
          if bytes_read =? st_size st
          then Some (String.substring 0 (Z.to_nat (st_size st)) data)
          else None
      end
  end.

Definition client_accepts_gzip (accept_encoding : option string) : Z :=
  match accept_encoding with
  | None => 0
  | Some value =>
      match strstr value "gzip" with
      | Some _ => 1
      | None => 0
      end
  end.

(** [gzip_compress_data]: [Some compressed] when it returns 0 (then
    [*compressed_size] is the length of [compressed]), [None] when it
    returns -1.  The two output pointers are never [NULL] at the call. *)
Definition gzip_compress_data (env : environment) (data : option string)
    (data_size : Z) : option string :=
  match data with
  | None => None
  | Some bytes =>
      if data_size =? 0 then None
      else zlib_gzip env (String.substring 0 (Z.to_nat data_size) bytes)
  end.

(* ------------------------------------------------------------------ *)
(** ** server.c *)
(* ------------------------------------------------------------------ *)

Module Server.

(** *** Rate limiting *)

Record rate_limit_entry_t := RateLimitEntry {
  ip : string;                (* char ip[46] *)
  timestamps : list Z;        (* time_t timestamps[1000] *)
  current_index : Z;
  count : Z
}.

Definition RATE_LIMIT_TABLE_SIZE : Z := 1024.

(** An entry of the zeroed table. *)
Definition zero_entry : rate_limit_entry_t :=
  {| ip := EmptyString;
     timestamps := replicate 1000 0;
     current_index := 0;
     count := 0 |}.

#[global] Instance rate_limit_entry_inhabited : Inhabited rate_limit_entry_t :=
  populate zero_entry.

(** The two static variables [rate_limit_table] and
    [rate_limit_initialized]. *)
Record rate_limit_state := RateLimitState {
  rate_limit_table : list rate_limit_entry_t;
  rate_limit_initialized : Z
}.

(** Static storage is zero-initialised when the program starts. *)
Definition rate_limit_start : rate_limit_state :=
  {| rate_limit_table := replicate (Z.to_nat RATE_LIMIT_TABLE_SIZE) zero_entry;
     rate_limit_initialized := 0 |}.

Definition init_rate_limiting (st : rate_limit_state) : rate_limit_state :=
  if negb (rate_limit_initialized st =? 0) then st
  else {| rate_limit_table :=
            replicate (Z.to_nat RATE_LIMIT_TABLE_SIZE) zero_entry;
          rate_limit_initialized := 1 |}.

(** The loop of [ip_hash]; [hash] is an [unsigned int]. *)
Fixpoint ip_hash_loop (hash : Z) (ip : string) : Z :=
  match ip with
  | EmptyString => hash
  | String c rest => ip_hash_loop ((hash * 31 + char_to_int c) mod 2 ^ 32) rest
  end.

Definition ip_hash (ip : string) : Z :=
  ip_hash_loop 0 ip mod RATE_LIMIT_TABLE_SIZE.

(** The counting loop of [check_rate_limit] over
    [timestamps[0 .. count-1]]. *)
Definition count_recent (timestamps : list Z) (count cutoff : Z) : Z :=
  foldl (λ valid_count t, if cutoff <=? t then valid_count + 1 else valid_count)
        0 (take (Z.to_nat count) timestamps).

(** The part of [check_rate_limit] that runs with the entry locked;
    [now] is the value of [time(NULL)].  Returns [is_limited] and the
    entry as the call leaves it. *)
Definition check_rate_limit_locked (config : server_config_t) (now : Z)
    (client_ip : string) (entry : rate_limit_entry_t)
  : Z * rate_limit_entry_t :=
  let entry :=
    if (count entry =? 0) || negb (strcmp_eq (ip entry) client_ip)
    then {| ip := strncpy 45 client_ip;
            timestamps := timestamps entry;
            current_index := 0;
            count := 0 |}
    else entry in
  let cutoff := now - rate_limit_interval config in
  let valid_count := count_recent (timestamps entry) (count entry) cutoff in
  let is_limited := if rate_limit_max config <=? valid_count then 1 else 0 in
  if is_limited =? 0
  then (is_limited,
        {| ip := ip entry;
           timestamps := <[Z.to_nat (current_index entry) := now]> (timestamps entry);
           current_index := c_rem (current_index entry + 1) 1000;
           count := if count entry <? 1000 then count entry + 1 else count entry |})
  else (is_limited, entry).

Definition check_rate_limit (config : server_config_t) (now : Z)
    (client_ip : string) (st : rate_limit_state) : Z * rate_limit_state :=
  if enable_rate_limit config =? 0 then (0, st)
  else
    let st := if rate_limit_initialized st =? 0 then init_rate_limiting st else st in
    let hash := Z.to_nat (ip_hash client_ip) in
    let entry := rate_limit_table st !!! hash in
    let '(is_limited, entry) := check_rate_limit_locked config now client_ip entry in
    (is_limited,
     {| rate_limit_table := <[hash := entry]> (rate_limit_table st);
        rate_limit_initialized := rate_limit_initialized st |}).

(** Successive checks of one address, as [handle_client] issues them,
    at the given clock readings. *)
Fixpoint check_rate_limit_seq (config : server_config_t) (client_ip : string)
    (times : list Z) (st : rate_limit_state) : list Z * rate_limit_state :=
  match times with
  | [] => ([], st)
  | now :: later =>
      let '(r, st) := check_rate_limit config now client_ip st in
      let '(rs, st) := check_rate_limit_seq config client_ip later st in
      (r :: rs, st)
  end.

(** The states of the table in a run of a server with configuration
    [config]: any number of checks, for any addresses at any times. *)
Inductive limiter_step (config : server_config_t)
  : rate_limit_state → rate_limit_state → Prop :=
| step_check now client_ip st :
    limiter_step config st (check_rate_limit config now client_ip st).2.

Definition limiter_reachable (config : server_config_t) (st : rate_limit_state)
  : Prop := rtc (limiter_step config) rate_limit_start st.

(** The slot of the table an address is mapped to. *)
Definition slot_of (st : rate_limit_state) (client_ip : string)
  : rate_limit_entry_t :=
  rate_limit_table st !!! Z.to_nat (ip_hash client_ip).

(** The timestamps an entry currently holds for its address. *)
Definition recorded (entry : rate_limit_entry_t) : list Z :=
  take (Z.to_nat (count entry)) (timestamps entry).

(** *** Request handling *)

(** The validator of lines 547-549. *)
Definition file_etag (st : file_stat) : string :=
  snprintf 64 ("W/" +:+ DQUOTE +:+ printf_lx (st_size st) +:+ "-" +:+
               printf_lx (st_mtime st) +:+ DQUOTE).

(** Lines 544-595 of [handle_http_request]: the request resolved to
    [file_path], whose [stat] result is [st]. *)
Definition handle_http_request_file (env : environment)
    (request : http_request_t) (response : http_response_t)
    (file_path : string) (st : file_stat) : http_response_t :=
  let mime_type := get_mime_type file_path in
  let etag := file_etag st in
  if negb (String.eqb (if_none_match request) EmptyString) &&
     bool_decide (is_Some (strstr (if_none_match request) etag))
  then {| status_code := 304;
          status_text := Some "Not Modified";
          content_type := Some mime_type;
          content_length := 0;
          body := None;
          response_keep_alive := keep_alive request;
          request := request_of response |}
  else
    match read_file_content env file_path with
    | None =>
        build_http_response response HTTP_INTERNAL_SERVER_ERROR MIME_TEXT
          (Some "Internal Server Error") 21
    | Some content =>
        let content_length := Z.of_nat (String.length content) in
        if strcmp_eq (method request) HTTP_METHOD_HEAD
        then build_http_response response HTTP_OK mime_type None 0
        else build_http_response response HTTP_OK mime_type (Some content)
               content_length
    end.

(** [handle_http_request]: the response structure after the call, or
    [None] where the C code reads [request->path[-1]]. *)
Definition handle_http_request (config : server_config_t) (env : environment)
    (request : http_request_t) (response : http_response_t)
  : option http_response_t :=
  if negb (strcmp_eq (method request) HTTP_METHOD_GET) &&
     negb (strcmp_eq (method request) HTTP_METHOD_HEAD)
  then Some (build_http_response response HTTP_METHOD_NOT_ALLOWED MIME_TEXT
               (Some "Method Not Allowed") 18)
  else
    let file_path :=
      if strcmp_eq (path request) "/"
      then snprintf 2560 (doc_root config +:+ "/index.html")
      else snprintf 2560 (doc_root config +:+ path request) in
    match fs_stat env file_path with
    | None =>
        Some (build_http_response response HTTP_NOT_FOUND MIME_TEXT
                (Some "Not Found") 9)
    | Some st =>
        if st_is_dir st then
          match last_char (path request) with
          | None => None
          | Some c =>
              if negb (Ascii.eqb c "/") then
                let redirect_path := snprintf 2560 (path request +:+ "/") in
                Some {| status_code := 301;
                        status_text := Some "Moved Permanently";
                        content_type := Some MIME_TEXT;
                        content_length := 0;
                        body := None;
                        response_keep_alive := keep_alive request;
                        request := request_of response |}
              else
                let file_path :=
                  snprintf 2560 (doc_root config +:+ path request +:+
                                 "/index.html") in
                match fs_stat env file_path with
                | None =>
                    Some (build_http_response response HTTP_NOT_FOUND
                            MIME_TEXT (Some "Not Found") 9)
                | Some st =>
                    Some (handle_http_request_file env request response
                            file_path st)
                end
          end
        else Some (handle_http_request_file env request response file_path st)
    end.

(** *** Sending *)

(** Lines 622-663 of [send_http_response]: the cache headers. *)
Definition response_cache_headers (now : Z) (response : http_response_t)
  : string :=
  if status_code response =? HTTP_OK then
    let etag :=
      snprintf 64 ("W/" +:+ DQUOTE +:+ printf_lx (content_length response) +:+
                   "-" +:+ printf_lx now +:+ DQUOTE) in
    let with_max_age (age : string) :=
      snprintf 1024 ("Cache-Control: public, max-age=" +:+ age +:+ CRLF +:+
                     "ETag: " +:+ etag +:+ CRLF) in
    match content_type response with
    | Some ct =>
        if strncmp_eq ct "text/html" then with_max_age "3600"
        else if strncmp_eq ct "text/css" ||
                strncmp_eq ct "application/javascript"
        then with_max_age "604800"
        else if strncmp_eq ct "image/" then with_max_age "2592000"
        else with_max_age "86400"
    | None => EmptyString
    end
  else snprintf 1024 ("Cache-Control: no-store" +:+ CRLF).

(** Lines 676-686: is the content type one that is compressed? *)
Definition compressible (content_type : option string) : bool :=
  match content_type with
  | Some ct =>
      strncmp_eq ct "text/" ||
      strncmp_eq ct "application/json" ||
      strncmp_eq ct "application/javascript" ||
      strncmp_eq ct "application/xml" ||
      strncmp_eq ct "application/x-javascript"
  | None => false
  end.

(** Lines 665-697: [Some compressed_body] when [using_compression] ends
    up 1, [None] when it stays 0.  [content_length] is a [size_t], so
    the [int] [gzip_min_size] is converted to unsigned for the
    comparison. *)
Definition response_compression (config : server_config_t) (env : environment)
    (response : http_response_t) : option string :=
  match body response, request response with
  | Some _, Some client_request =>
      if negb (enable_gzip config =? 0) &&
         (gzip_min_size config mod 2 ^ 64 <? content_length response) &&
         (status_code response =? HTTP_OK)
      then
        if compressible (content_type response) &&
           negb (client_accepts_gzip (Some (accept_encoding client_request)) =? 0)
        then gzip_compress_data env (body response) (content_length response)
        else None
      else None
  | _, _ => None
  end.

(** The [snprintf] of lines 699-717. *)
Definition format_response_header (status_code : Z) (status_text : option string)
    (time_buffer : string) (content_type : option string) (length : Z)
    (cache_headers encoding connection : string) : string :=
  snprintf 4096
    ("HTTP/1.1 " +:+ printf_d status_code +:+ " " +:+ printf_s status_text +:+ CRLF +:+
     "Server: CServer/1.0" +:+ CRLF +:+
     "Date: " +:+ time_buffer +:+ CRLF +:+
     "Content-Type: " +:+ printf_s content_type +:+ CRLF +:+
     "Content-Length: " +:+ printf_zu length +:+ CRLF +:+
     cache_headers +:+
     encoding +:+
     "Connection: " +:+ connection +:+ CRLF +:+
     CRLF).

(** [send_http_response]: the data of the successive [send] calls on
    the client socket.  The header text is assumed to fit the 4096-byte
    buffer, as it does for every response this server builds. *)
Definition send_http_response (config : server_config_t) (env : environment)
    (now : Z) (response : http_response_t) : list string :=
  let time_buffer := format_gmt env now in
  let cache_headers := response_cache_headers now response in
  let compressed := response_compression config env response in
  let header :=
    format_response_header
      (status_code response) (status_text response) time_buffer
      (content_type response)
      (match compressed with
       | Some compressed_body => Z.of_nat (String.length compressed_body)
       | None => content_length response
       end)
      cache_headers
      (match compressed with
       | Some _ => "Content-Encoding: gzip" +:+ CRLF
       | None => EmptyString
       end)
      (if negb (response_keep_alive response =? 0) then "keep-alive" else "close") in
  header ::
  match body response with
  | Some bytes =>
      if 0 <? content_length response then
        match compressed with
        | Some compressed_body => [compressed_body]
        | None => [String.substring 0 (Z.to_nat (content_length response)) bytes]
        end
      else []
  | None => []
  end.

(** Lines 358-368 of [handle_client]: one request/response exchange on
    a connection, from the parsed request to the bytes written. *)
Definition handle_client_exchange (config : server_config_t) (env : environment)
    (now : Z) (request : http_request_t) : option (list string) :=
  let response :=
    {| status_code := 0;
       status_text := None;
       content_type := None;
       content_length := 0;
       body := None;
       response_keep_alive := keep_alive request;
       request := Some request |} in
  response ← handle_http_request config env request response;
  Some (send_http_response config env now response).

End Server.

(* ------------------------------------------------------------------ *)
(** ** thread_pool.c: the cleanup of the queue *)
(* ------------------------------------------------------------------ *)

Section pool_cleanup.
Import ThreadPool.

(** Lines 241-246 of [thread_pool_destroy]: the client sockets the
    cleanup loop closes, in the order of the array.  The loop runs after
    the workers have been joined, on the queue as they left it. *)
Definition thread_pool_destroy_closes (pool : thread_pool_t) : list Z :=
  client_socket <$> omap id (queue pool).

End pool_cleanup.

(* ------------------------------------------------------------------ *)
(** ** server.c: the accept loop of [server_start] *)
(* ------------------------------------------------------------------ *)

Section acceptor.
Import ThreadPool.

(** What [accept] answers. *)
Inductive accept_result :=
| AcceptInterrupted                       (* -1, errno is EINTR *)
| AcceptFailed                            (* -1, another errno *)
| AcceptSocket (client_socket client_addr : Z).

(** One turn of the loop of [server_start] (lines 200-243): the socket
    the turn closes, whether the loop goes on, and the pool.  [malloc]
    is taken to succeed. *)
Definition server_start_turn (answer : accept_result) (pool : thread_pool_t)
  : option Z * bool * thread_pool_t :=
  match answer with
  | AcceptInterrupted => (None, false, pool)
  | AcceptFailed => (None, true, pool)
  | AcceptSocket client_socket client_addr =>
      let '(code, pool) :=
        thread_pool_add pool (Some (Task client_socket client_addr)) in
      if negb (code =? 0) then (Some client_socket, true, pool)
      else (None, true, pool)
  end.

(** The loop of [server_start] with the workers at work: each event is
    a turn of the loop or a pass of a worker through the locked part of
    [worker_thread]. *)
Inductive server_event :=
| ServerAccept (answer : accept_result)
| ServerWorker.

(** The course of the loop until it is left: the sockets it has closed
    itself, the tasks the workers have taken, and the pool. *)
Record serving := Serving {
  closed_at_once : list Z;
  handed_over : list (option task_t);
  pool_after : thread_pool_t
}.

Fixpoint accept_loop (events : list server_event) (pool : thread_pool_t)
  : serving :=
  match events with
  | [] => {| closed_at_once := []; handed_over := []; pool_after := pool |}
  | ServerAccept answer :: later =>
      let '(closes, goes_on, pool) := server_start_turn answer pool in
      if goes_on then
        let rest := accept_loop later pool in
        {| closed_at_once := option_list closes ++ closed_at_once rest;
           handed_over := handed_over rest;
           pool_after := pool_after rest |}
      else {| closed_at_once := []; handed_over := []; pool_after := pool |}
  | ServerWorker :: later =>
      match worker_thread pool with
      | WorkerTakes task pool =>
          let rest := accept_loop later pool in
          {| closed_at_once := closed_at_once rest;
             handed_over := task :: handed_over rest;
             pool_after := pool_after rest |}
      | _ => accept_loop later pool
      end
  end.

End acceptor.

(* ------------------------------------------------------------------ *)
(** ** libc, as the request parser uses it *)
(* ------------------------------------------------------------------ *)

(** The C string in a buffer: its bytes up to the first NUL. *)
Fixpoint c_string (bytes : string) : string :=
  match bytes with
  | EmptyString => EmptyString
  | String c rest =>
      if Ascii.eqb c Ascii.zero then EmptyString else String c (c_string rest)
  end.

(** [isspace] in the C locale: space, and [\t \n \v \f \r]. *)
Definition isspace (c : ascii) : bool :=
  let n := nat_of_ascii c in
  (n =? 32)%nat || ((9 <=? n)%nat && (n <=? 13)%nat).

(** [strchr(set, c) != NULL] for a character [c] other than NUL. *)
Fixpoint strchr_in (set : string) (c : ascii) : bool :=
  match set with
  | EmptyString => false
  | String d rest => Ascii.eqb c d || strchr_in rest c
  end.

(** The tokens that [strtok(s, delim)] followed by [strtok(NULL, delim)]
    until it answers [NULL] return, in order: the maximal runs of
    characters of [s] that are not in [delim].  [token] is the part of
    the current token already read. *)
Fixpoint strtok_tokens (delim s token : string) : list string :=
  match s with
  | EmptyString =>
      match token with
      | EmptyString => []
      | _ => [token]
      end
  | String c rest =>
      if strchr_in delim c then
        match token with
        | EmptyString => strtok_tokens delim rest EmptyString
        | _ => token :: strtok_tokens delim rest EmptyString
        end
      else strtok_tokens delim rest (token +:+ String c EmptyString)
  end.

(** The buffer after those calls: [strtok] overwrites the delimiter
    that ends a token with NUL and leaves the other bytes alone.
    [in_token] tells whether a token is being read. *)
Fixpoint strtok_buffer (delim s : string) (in_token : bool) : string :=
  match s with
  | EmptyString => EmptyString
  | String c rest =>
      if strchr_in delim c then
        String (if in_token then Ascii.zero else c) (strtok_buffer delim rest false)
      else String c (strtok_buffer delim rest true)
  end.

(** [sscanf]'s [%<width>s]: skip white space, then store up to [width]
    characters that are not white space.  [None] when the input ends
    before a character is stored; otherwise the stored text and the
    input left. *)
Fixpoint skip_spaces (s : string) : string :=
  match s with
  | EmptyString => EmptyString
  | String c rest => if isspace c then skip_spaces rest else s
  end.

Fixpoint scan_word (width : nat) (s : string) : string * string :=
  match width, s with
  | S width, String c rest =>
      if isspace c then (EmptyString, s)
      else let '(word, input) := scan_word width rest in (String c word, input)
  | _, _ => (EmptyString, s)
  end.

Definition scanf_s (width : nat) (s : string) : option (string * string) :=
  match skip_spaces s with
  | EmptyString => None
  | input => Some (scan_word width input)
  end.

(** [strncasecmp(a, b, n) == 0]. *)
Definition strncasecmp_eq (a b : string) (n : nat) : bool :=
  String.eqb (string_tolower (String.substring 0 n a))
             (string_tolower (String.substring 0 n b)).

(** [strcasestr(haystack, needle) != NULL]. *)
Definition strcasestr_found (haystack needle : string) : bool :=
  bool_decide (is_Some (strstr (string_tolower haystack) (string_tolower needle))).

(** [s + n] for a pointer into a string of at least [n] characters. *)
Fixpoint ptr_add (s : string) (n : nat) : string :=
  match n, s with
  | S n, String _ rest => ptr_add rest n
  | _, _ => s
  end.

(** [atoi]: white space, an optional sign, decimal digits.  A value
    outside the range of [int] is undefined in C; the digits are read
    exactly here. *)
Definition digit_value (c : ascii) : option Z :=
  let n := nat_of_ascii c in
  if (48 <=? n)%nat && (n <=? 57)%nat then Some (Z.of_nat n - 48) else None.

Fixpoint atoi_digits (s : string) (value : Z) : Z :=
  match s with
  | EmptyString => value
  | String c rest =>
      match digit_value c with
      | Some d => atoi_digits rest (10 * value + d)
      | None => value
      end
  end.

Definition atoi (s : string) : Z :=
  match skip_spaces s with
  | String "-" rest => - atoi_digits rest 0
  | String "+" rest => atoi_digits rest 0
  | digits => atoi_digits digits 0
  end.

(* ------------------------------------------------------------------ *)
(** ** server.c: the request parser *)
(* ------------------------------------------------------------------ *)

Section parser.
Import Server.

(** [http_request_t] in full.  The declaration of server.h is found in
    the source tree at the end of www/app/js/app.js (lines 294-307):
    [method[16]], [path[2048]], [version[16]], [host[255]],
    [user_agent[512]], [size_t content_length], [char* content_type],
    [char* body], [int keep_alive], [if_none_match[128]],
    [accept_encoding[128]] and [client_ip[50]].  [core] holds the fields
    that [handle_http_request] and [send_http_response] read; the
    others are written by the parser and read by nobody but the log. *)
Record http_request_full := HttpRequestFull {
  core : http_request_t;
  version : string;
  host : string;
  user_agent : string;
  request_content_length : Z;
  request_content_type : option string;
  request_body : option string;
  request_client_ip : string
}.

(** The structure after [memset(&request, 0, sizeof(request))]. *)
Definition zero_request : http_request_full :=
  {| core := {| method := EmptyString; path := EmptyString; keep_alive := 0;
                if_none_match := EmptyString; accept_encoding := EmptyString |};
     version := EmptyString; host := EmptyString; user_agent := EmptyString;
     request_content_length := 0; request_content_type := None;
     request_body := None; request_client_ip := EmptyString |}.

(** Assignments to single fields. *)
Definition with_core (f : http_request_t → http_request_t)
    (r : http_request_full) : http_request_full :=
  {| core := f (core r); version := version r; host := host r;
     user_agent := user_agent r;
     request_content_length := request_content_length r;
     request_content_type := request_content_type r;
     request_body := request_body r;
     request_client_ip := request_client_ip r |}.

Definition set_method (v : string) : http_request_full → http_request_full :=
  with_core (λ c, {| method := v; path := path c; keep_alive := keep_alive c;
                     if_none_match := if_none_match c;
                     accept_encoding := accept_encoding c |}).

Definition set_path (v : string) : http_request_full → http_request_full :=
  with_core (λ c, {| method := method c; path := v; keep_alive := keep_alive c;
                     if_none_match := if_none_match c;
                     accept_encoding := accept_encoding c |}).

Definition set_keep_alive (v : Z) : http_request_full → http_request_full :=
  with_core (λ c, {| method := method c; path := path c; keep_alive := v;
                     if_none_match := if_none_match c;
                     accept_encoding := accept_encoding c |}).

Definition set_if_none_match (v : string) : http_request_full → http_request_full :=
  with_core (λ c, {| method := method c; path := path c; keep_alive := keep_alive c;
                     if_none_match := v;
                     accept_encoding := accept_encoding c |}).

Definition set_accept_encoding (v : string) : http_request_full → http_request_full :=
  with_core (λ c, {| method := method c; path := path c; keep_alive := keep_alive c;
                     if_none_match := if_none_match c;
                     accept_encoding := v |}).

Definition set_version (v : string) (r : http_request_full) : http_request_full :=
  {| core := core r; version := v; host := host r; user_agent := user_agent r;
     request_content_length := request_content_length r;
     request_content_type := request_content_type r;
     request_body := request_body r;
     request_client_ip := request_client_ip r |}.

Definition set_host (v : string) (r : http_request_full) : http_request_full :=
  {| core := core r; version := version r; host := v; user_agent := user_agent r;
     request_content_length := request_content_length r;
     request_content_type := request_content_type r;
     request_body := request_body r;
     request_client_ip := request_client_ip r |}.

Definition set_user_agent (v : string) (r : http_request_full) : http_request_full :=
  {| core := core r; version := version r; host := host r; user_agent := v;
     request_content_length := request_content_length r;
     request_content_type := request_content_type r;
     request_body := request_body r;
     request_client_ip := request_client_ip r |}.

Definition set_content_length (v : Z) (r : http_request_full) : http_request_full :=
  {| core := core r; version := version r; host := host r;
     user_agent := user_agent r;
     request_content_length := v;
     request_content_type := request_content_type r;
     request_body := request_body r;
     request_client_ip := request_client_ip r |}.

Definition set_content_type (v : option string) (r : http_request_full)
  : http_request_full :=
  {| core := core r; version := version r; host := host r;
     user_agent := user_agent r;
     request_content_length := request_content_length r;
     request_content_type := v;
     request_body := request_body r;
     request_client_ip := request_client_ip r |}.

Definition set_body (v : option string) (r : http_request_full) : http_request_full :=
  {| core := core r; version := version r; host := host r;
     user_agent := user_agent r;
     request_content_length := request_content_length r;
     request_content_type := request_content_type r;
     request_body := v;
     request_client_ip := request_client_ip r |}.

Definition set_client_ip (v : string) (r : http_request_full) : http_request_full :=
  {| core := core r; version := version r; host := host r;
     user_agent := user_agent r;
     request_content_length := request_content_length r;
     request_content_type := request_content_type r;
     request_body := request_body r;
     request_client_ip := v |}.

(** What [recv(client_socket, buffer, sizeof(buffer) - 1, 0)] answers:
    between 1 and 8191 bytes, 0 for a connection the peer has closed,
    or -1 for an error or an expired receive timeout. *)
Inductive recv_result :=
| RecvBytes (bytes : string)
| RecvClosed
| RecvFailed.

(** Line 435: [sscanf(line, "%15s %2047s %15s", method, path, version)].
    A conversion that finds no input ends the call and leaves the
    remaining fields as they are. *)
Definition sscanf_request_line (line : string) (r : http_request_full)
  : http_request_full :=
  match scanf_s 15 line with
  | None => r
  | Some (word, input) =>
      let r := set_method word r in
      match scanf_s 2047 input with
      | None => r
      | Some (word, input) =>
          let r := set_path word r in
          match scanf_s 15 input with
          | None => r
          | Some (word, _) => set_version word r
          end
      end
  end.

(** Lines 444-464: one header line. *)
Definition parse_header_line (line : string) (r : http_request_full)
  : http_request_full :=
  if strncasecmp_eq line "Host: " 6 then
    set_host (strncpy 254 (ptr_add line 6)) r
  else if strncasecmp_eq line "User-Agent: " 12 then
    set_user_agent (strncpy 511 (ptr_add line 12)) r
  else if strncasecmp_eq line "Content-Length: " 16 then
    set_content_length (atoi (ptr_add line 16) mod 2 ^ 64) r
  else if strncasecmp_eq line "Content-Type: " 14 then
    set_content_type (Some (ptr_add line 14)) r
  else if strncasecmp_eq line "Connection: " 12 then
    if strcasestr_found (ptr_add line 12) "keep-alive" then set_keep_alive 1 r
    else r
  else if strncasecmp_eq line "If-None-Match: " 15 then
    set_if_none_match (strncpy 127 (ptr_add line 15)) r
  else if strncasecmp_eq line "Accept-Encoding: " 17 then
    set_accept_encoding (strncpy 127 (ptr_add line 17)) r
  else r.

(** The loop of lines 443-465 over the tokens [strtok] still returns. *)
Fixpoint parse_header_lines (lines : list string) (r : http_request_full)
  : http_request_full :=
  match lines with
  | [] => r
  | line :: later =>
      if (0 <? String.length line)%nat
      then parse_header_lines later (parse_header_line line r)
      else r
  end.

(** Lines 438-441: the header fields are cleared before the loop. *)
Definition clear_header_fields (r : http_request_full) : http_request_full :=
  set_accept_encoding EmptyString
    (set_if_none_match EmptyString
       (set_content_length 0 (set_keep_alive 0 r))).

(** Lines 468-472: the body is looked for in the buffer as [strtok]
    has left it. *)
Definition find_request_body (buffer : string) (r : http_request_full)
  : http_request_full :=
  match strstr (c_string (strtok_buffer CRLF buffer false)) (CRLF +:+ CRLF) with
  | Some body =>
      if 0 <? request_content_length r
      then set_body (Some (ptr_add body 4)) r
      else r
  | None => r
  end.

(** [parse_http_request]: the return value and the request structure
    after the call.  [peer] is the text [inet_ntoa] gives for the
    address [getpeername] reports.  The structure comes zeroed from
    [handle_client], so that the byte after each copied text is NUL.
    [strtok] keeps its position in a static variable; this is the
    parser with no other thread inside [strtok] at the same time. *)
Definition parse_http_request (received : recv_result) (peer : string)
    (request : http_request_full) : Z * http_request_full :=
  match received with
  | RecvClosed => (0, request)
  | RecvFailed => (-1, request)
  | RecvBytes bytes =>
      let bytes_received := Z.of_nat (String.length bytes) in
      if bytes_received <=? 0 then (bytes_received, request)
      else
        let buffer := c_string bytes in
        let request := set_client_ip (strncpy 49 peer) request in
        match strtok_tokens CRLF buffer EmptyString with
        | [] => (-1, request)
        | line :: lines =>
            let request := sscanf_request_line line request in
            let request := clear_header_fields request in
            let request := parse_header_lines lines request in
            (1, find_request_body buffer request)
        end
  end.

End parser.

(* ------------------------------------------------------------------ *)
(** ** server.c: [handle_client] *)
(* ------------------------------------------------------------------ *)

Section connection.
Import Server.

Definition HTTP_TOO_MANY_REQUESTS : Z := 429.

(** Lines 319-328: the response for a client over its limit. *)
Definition rate_limit_message : string :=
  "Too many requests. Please try again later.".

Definition rate_limit_response : http_response_t :=
  {| status_code := HTTP_TOO_MANY_REQUESTS;
     status_text := Some "Too Many Requests";
     content_type := Some "text/plain";
     content_length := Z.of_nat (String.length rate_limit_message);
     body := Some rate_limit_message;
     response_keep_alive := 0;
     request := None |}.

(** What the surroundings answer in one turn of the loop of
    [handle_client]: the clock when the rate limit is checked, the
    result of the [recv] in the parser, and the clock when the response
    is sent.  The last two are asked for only if the turn gets there. *)
Record turn := Turn {
  at_check : Z;
  received : recv_result;
  at_send : Z
}.

(** The course of a connection: the data written to the socket, whether
    the loop has been left (and the socket closed), and the rate limit
    table. *)
Record connection := Connection {
  sent : list string;
  closed : bool;
  limiter : rate_limit_state
}.

(** [handle_client] for a client whose address prints as [client_ip],
    over the turns the surroundings answer; the loop is still running
    when they are used up.  [None] where [handle_http_request] reads
    [path[-1]].  No other connection uses the rate limit table in
    between. *)
Fixpoint handle_client (config : server_config_t) (env : environment)
    (client_ip : string) (turns : list turn) (st : rate_limit_state)
  : option connection :=
  match turns with
  | [] => Some {| sent := []; closed := false; limiter := st |}
  | now :: later =>
      let '(is_limited, st) := check_rate_limit config (at_check now) client_ip st in
      if negb (is_limited =? 0) then
        Some {| sent := send_http_response config env (at_send now) rate_limit_response;
                closed := true;
                limiter := st |}
      else
        let request := set_client_ip (strncpy 49 client_ip) zero_request in
        let '(result, request) :=
          parse_http_request (received now) client_ip request in
        if result <=? 0 then Some {| sent := []; closed := true; limiter := st |}
        else
          writes ← handle_client_exchange config env (at_send now) (core request);
          if keep_alive (core request) =? 0
          then Some {| sent := writes; closed := true; limiter := st |}
          else
            rest ← handle_client config env client_ip later st;
            Some {| sent := writes ++ sent rest;
                    closed := closed rest;
                    limiter := limiter rest |}
  end.

End connection.

(* ================================================================== *)
(** * Part II: notions used in the statements *)
(* ================================================================== *)

Section pool_notions.
Import ThreadPool.

(** The shape of the circular queue: the array has [queue_size] cells,
    [head] is an index into it, and [tail] is [count] cells further on,
    modulo [queue_size]. *)
Record pool_wf (p : thread_pool_t) : Prop := PoolWf {
  wf_len : length (queue p) = Z.to_nat (queue_size p);
  wf_count : 0 ≤ count p ≤ queue_size p;
  wf_head : 0 ≤ head p ∧ (head p < queue_size p ∨ head p = 0);
  wf_tail : tail p = c_rem (head p + count p) (queue_size p)
}.

(** Every queued cell holds a submitted task, never [NULL]. *)
Definition pool_inv (p : thread_pool_t) : Prop :=
  pool_wf p ∧ Forall is_Some (pending p).

(** A pool of capacity 2 after two submissions, hence full. *)
Definition pool_of_two : thread_pool_t :=
  {| size := 1; queue_size := 2; head := 0; tail := 0; count := 0;
     shutdown := 0; queue := [None; None] |}.

Definition pool_full : thread_pool_t :=
  (thread_pool_add (thread_pool_add pool_of_two (Some (Task 4 1))).2
                   (Some (Task 5 2))).2.

Definition pool_stopped : thread_pool_t := thread_pool_destroy pool_full.

End pool_notions.

Section limiter_notions.
Import Server.

(** The shape of a table entry: the ring has 1000 cells; until it is
    full the next cell to write is cell [count]. *)
Record entry_wf (e : rate_limit_entry_t) : Prop := EntryWf {
  ewf_len : length (timestamps e) = 1000%nat;
  ewf_count : 0 ≤ count e ≤ 1000;
  ewf_index : 0 ≤ current_index e < 1000;
  ewf_fill : count e < 1000 → current_index e = count e
}.

(** The shape of the table; before the first enabled check it is still
    all zero. *)
Record state_wf (st : rate_limit_state) : Prop := StateWf {
  swf_len : length (rate_limit_table st) = 1024%nat;
  swf_entries : Forall entry_wf (rate_limit_table st);
  swf_start : rate_limit_initialized st = 0 →
              rate_limit_table st = replicate 1024 zero_entry
}.

(** The entry after the reset test of lines 831-836. *)
Definition claim_entry (client_ip : string) (e : rate_limit_entry_t)
  : rate_limit_entry_t :=
  if (count e =? 0) || negb (strcmp_eq (ip e) client_ip)
  then {| ip := strncpy 45 client_ip;
          timestamps := timestamps e;
          current_index := 0;
          count := 0 |}
  else e.

(** Two entries that the limiter cannot tell apart: equal up to the
    cells of the ring that no check reads. *)
Definition entry_equiv (e1 e2 : rate_limit_entry_t) : Prop :=
  ip e1 = ip e2 ∧ count e1 = count e2 ∧
  current_index e1 = current_index e2 ∧ recorded e1 = recorded e2.

(** A configuration with rate limiting and compression switched on, a
    window of 60 seconds and the given maximum. *)
Definition limiter_config (max : Z) : server_config_t :=
  {| doc_root := "./www";
     enable_gzip := 1;
     gzip_min_size := 4;
     enable_rate_limit := 1;
     rate_limit_max := max;
     rate_limit_interval := 60 |}.

(** Two addresses with the same hash. *)
Definition address_a : string := "10.0.0.100".
Definition address_b : string := "10.0.0.221".

(** With a maximum of 2: [address_a] is allowed twice, then limited. *)
Definition after_three_checks : rate_limit_state :=
  (check_rate_limit (limiter_config 2) 2 address_a
     (check_rate_limit (limiter_config 2) 1 address_a
        (check_rate_limit (limiter_config 2) 0 address_a rate_limit_start).2).2).2.

End limiter_notions.

Section http_notions.
Import Server.

(** A response as [build_http_response] leaves it: the length is that
    of the body, and there is no body of length 0. *)
Definition response_wf (response : http_response_t) : Prop :=
  match body response with
  | Some bytes =>
      content_length response = Z.of_nat (String.length bytes) ∧
      0 < content_length response
  | None => content_length response = 0
  end.

(** The path of lines 505-511. *)
Definition requested_path (config : server_config_t) (request : http_request_t)
  : string :=
  if strcmp_eq (path request) "/"
  then snprintf 2560 (doc_root config +:+ "/index.html")
  else snprintf 2560 (doc_root config +:+ path request).

(** The request resolves to the file [file_path] with [stat] result
    [st]: either the requested path exists and is not a directory, or it
    is a directory, the request path ends in a slash, and the
    [index.html] below it exists. *)
Inductive resolves_to (config : server_config_t) (env : environment)
    (request : http_request_t) : string → file_stat → Prop :=
| resolves_file st :
    fs_stat env (requested_path config request) = Some st →
    st_is_dir st = false →
    resolves_to config env request (requested_path config request) st
| resolves_index dir_st st :
    fs_stat env (requested_path config request) = Some dir_st →
    st_is_dir dir_st = true →
    last_char (path request) = Some "/"%char →
    fs_stat env (snprintf 2560 (doc_root config +:+ path request +:+ "/index.html"))
      = Some st →
    resolves_to config env request
      (snprintf 2560 (doc_root config +:+ path request +:+ "/index.html")) st.

(** A document root with a directory [subdir] and a text file [a.txt]
    of 11 bytes, modified at time 255; [gzip] is zlib's answer. *)
Definition site_env (gzip : string → option string) : environment :=
  {| fs_stat := λ file_path,
       if String.eqb file_path "./www/subdir" then Some (FileStat true 4096 1000)
       else if String.eqb file_path "./www/a.txt" then Some (FileStat false 11 255)
       else None;
     fs_read := λ file_path,
       if String.eqb file_path "./www/a.txt" then Some "hello world" else None;
     format_gmt := λ _, "Mon, 02 Nov 2026 00:00:00 GMT";
     zlib_gzip := gzip |}.

Definition gzip_fails : string → option string := λ _, None.
Definition gzip_stub : string → option string := λ _, Some "GZ".

Definition site_request (method path if_none_match accept_encoding : string)
  : http_request_t :=
  {| method := method; path := path; keep_alive := 0;
     if_none_match := if_none_match; accept_encoding := accept_encoding |}.

(** The zeroed response [handle_client] passes to the handler. *)
Definition blank_response (request : http_request_t) : http_response_t :=
  {| status_code := 0; status_text := None; content_type := None;
     content_length := 0; body := None;
     response_keep_alive := keep_alive request; request := Some request |}.

(** The 200 response for [a.txt]. *)
Definition text_response (accept_encoding : string) : http_response_t :=
  {| status_code := 200; status_text := Some "OK";
     content_type := Some MIME_TEXT;
     content_length := 11; body := Some "hello world";
     response_keep_alive := 0;
     request := Some (site_request "GET" "/a.txt" EmptyString accept_encoding) |}.

End http_notions.

(** ** Further notions: runs, windows, texts *)

Section pool_runs.
Import ThreadPool.

(** What may happen to a pool, and what the caller observes. *)
Inductive pool_event :=
| PoolSubmit (task : option task_t)
| PoolTake
| PoolShutdown.

Inductive pool_outcome :=
| Submitted (code : Z)
| Took (task : option task_t)
| Waited
| Exited
| ShutDown.

Definition pool_do (event : pool_event) (pool : thread_pool_t)
  : pool_outcome * thread_pool_t :=
  match event with
  | PoolSubmit task =>
      let '(code, pool') := thread_pool_add pool task in (Submitted code, pool')
  | PoolTake =>
      match worker_thread pool with
      | WorkerWaits => (Waited, pool)
      | WorkerExits => (Exited, pool)
      | WorkerTakes task pool' => (Took task, pool')
      end
  | PoolShutdown => (ShutDown, thread_pool_destroy pool)
  end.

Fixpoint pool_run (events : list pool_event) (pool : thread_pool_t)
  : list pool_outcome * thread_pool_t :=
  match events with
  | [] => ([], pool)
  | event :: later =>
      let '(outcome, pool) := pool_do event pool in
      let '(outcomes, pool) := pool_run later pool in
      (outcome :: outcomes, pool)
  end.

(** The reference: a first-in first-out queue of bounded capacity with
    a stop flag. *)
Record bounded_fifo := BoundedFifo {
  fifo_items : list task_t;
  fifo_stopped : bool
}.

Definition fifo_do (capacity : Z) (event : pool_event) (q : bounded_fifo)
  : pool_outcome * bounded_fifo :=
  match event with
  | PoolSubmit None => (Submitted (-1), q)
  | PoolSubmit (Some t) =>
      if (Z.of_nat (length (fifo_items q)) =? capacity) || fifo_stopped q
      then (Submitted (-1), q)
      else (Submitted 0,
            {| fifo_items := fifo_items q ++ [t]; fifo_stopped := fifo_stopped q |})
  | PoolTake =>
      if fifo_stopped q then (Exited, q)
      else match fifo_items q with
           | [] => (Waited, q)
           | t :: rest =>
               (Took (Some t),
                {| fifo_items := rest; fifo_stopped := fifo_stopped q |})
           end
  | PoolShutdown =>
      (ShutDown, {| fifo_items := fifo_items q; fifo_stopped := true |})
  end.

Fixpoint fifo_run (capacity : Z) (events : list pool_event) (q : bounded_fifo)
  : list pool_outcome * bounded_fifo :=
  match events with
  | [] => ([], q)
  | event :: later =>
      let '(outcome, q) := fifo_do capacity event q in
      let '(outcomes, q) := fifo_run capacity later q in
      (outcome :: outcomes, q)
  end.

(** The pool holds what the reference queue holds. *)
Definition pool_refines (pool : thread_pool_t) (q : bounded_fifo) : Prop :=
  pending pool = Some <$> fifo_items q ∧
  fifo_stopped q = negb (shutdown pool =? 0).

(** The cells of the array outside the queued range hold [NULL]. *)
Definition pool_spare_cells_null (pool : thread_pool_t) : Prop :=
  ∀ k : nat, count pool ≤ Z.of_nat k < queue_size pool →
    queue_at pool (c_rem (head pool + Z.of_nat k) (queue_size pool)) = None.

(** A run on the pool of capacity 2: two submissions, a third that
    finds the queue full, two dequeues, a shutdown, a late submission. *)
Definition pool_events : list pool_event :=
  [PoolSubmit (Some (Task 4 1)); PoolSubmit (Some (Task 5 2));
   PoolSubmit (Some (Task 6 3)); PoolTake; PoolTake; PoolTake;
   PoolShutdown; PoolSubmit (Some (Task 7 4)); PoolTake].

End pool_runs.

(** The connections accepted before the loop is left. *)
Fixpoint accepted (events : list server_event) : list ThreadPool.task_t :=
  match events with
  | [] => []
  | ServerAccept AcceptInterrupted :: _ => []
  | ServerAccept (AcceptSocket client_socket client_addr) :: later =>
      ThreadPool.Task client_socket client_addr :: accepted later
  | _ :: later => accepted later
  end.

(** Connections arriving at the full pool of capacity 2 while a worker
    takes one task. *)
Definition accept_events : list server_event :=
  [ServerAccept (AcceptSocket 6 3); ServerWorker;
   ServerAccept (AcceptSocket 7 4); ServerAccept AcceptFailed;
   ServerAccept (AcceptSocket 8 5); ServerAccept AcceptInterrupted;
   ServerAccept (AcceptSocket 9 6)].

Section limiter_windows.
Import Server.

(** The timestamps of the checks that were allowed. *)
Fixpoint allowed_at (times results : list Z) : list Z :=
  match times, results with
  | t :: times, r :: results =>
      if r =? 0 then t :: allowed_at times results else allowed_at times results
  | _, _ => []
  end.

(** The timestamps an entry holds, oldest write first: once the ring is
    full, the cell at [current_index] is the oldest. *)
Definition ring_view (e : rate_limit_entry_t) : list Z :=
  if count e <? 1000 then recorded e
  else drop (Z.to_nat (current_index e)) (timestamps e) ++
       take (Z.to_nat (current_index e)) (timestamps e).

(** No window of [interval] seconds holds more than [max] of the
    timestamps [hist]. *)
Definition window_ok (config : server_config_t) (hist : list Z) : Prop :=
  ∀ a, Z.of_nat (length (filter (λ t, a ≤ t ≤ a + rate_limit_interval config) hist))
       ≤ rate_limit_max config.

(** What links an entry to the timestamps [hist] allowed so far for
    its address, when no later check comes before time [c]: the ring
    holds the newest of them in order, and those it has dropped are
    out of every window still to come. *)
Record window_inv (config : server_config_t) (client_ip : string) (c : Z)
    (hist : list Z) (e : rate_limit_entry_t) : Prop := WindowInv {
  winv_wf : entry_wf e;
  winv_ip : ip e = client_ip;
  winv_hist : ∃ old, hist = old ++ ring_view e ∧
                     Forall (λ t, t < c - rate_limit_interval config) old;
  winv_sorted : StronglySorted Z.le (ring_view e);
  winv_past : Forall (λ t, t ≤ c) (ring_view e);
  winv_ok : window_ok config hist
}.

(** With a maximum of 1: the table after the first check of
    [address_a], which uses up its quota. *)
Definition after_first_check : rate_limit_state :=
  (check_rate_limit (limiter_config 1) 0 address_a rate_limit_start).2.

(** An address that is mapped to another slot than [address_a]. *)
Definition address_c : string := "10.0.0.1".

End limiter_windows.

Section http_texts.
Import Server.

(** The value of the Connection header for a keep-alive flag. *)
Definition connection_header (keep_alive : Z) : string :=
  if negb (keep_alive =? 0) then "keep-alive" else "close".

(** The entity tag a 200 response of [length] bytes carries when it is
    sent at time [now] (lines 628-630 of [send_http_response]). *)
Definition sent_etag (length now : Z) : string :=
  "W/" +:+ DQUOTE +:+ printf_lx length +:+ "-" +:+ printf_lx now +:+ DQUOTE.

End http_texts.

(** Strings of hexadecimal digits, and strings without a given
    character. *)
Fixpoint hex_string (s : string) : bool :=
  match s with
  | EmptyString => true
  | String c rest =>
      match HexString.ascii_to_digit c with
      | Some _ => hex_string rest
      | None => false
      end
  end.

Fixpoint lacks (c : ascii) (s : string) : bool :=
  match s with
  | EmptyString => true
  | String a rest => negb (Ascii.eqb a c) && lacks c rest
  end.

(** Every character of a string passes a test. *)
Fixpoint string_forall (test : ascii → bool) (s : string) : bool :=
  match s with
  | EmptyString => true
  | String c rest => test c && string_forall test rest
  end.

(** A word of a request line: at least one character, none of them
    white space or NUL. *)
Definition is_word (s : string) : bool :=
  negb (String.eqb s EmptyString) &&
  string_forall (λ c, negb (isspace c) && negb (Ascii.eqb c Ascii.zero)) s.


Section parser_examples.
Import Server.

(** A request with two Connection headers and a blank line. *)
Definition keep_alive_request : string :=
  "GET /a.txt HTTP/1.1" +:+ CRLF +:+ "Host: x" +:+ CRLF +:+
  "connection: Keep-Alive" +:+ CRLF +:+ "Connection: close" +:+ CRLF +:+ CRLF.

(** A file system in which the document root [./www] is a directory and
    nothing else exists. *)
Definition root_env : environment :=
  {| fs_stat := λ file_path,
       if String.eqb file_path "./www" then Some (FileStat true 4096 1000)
       else None;
     fs_read := λ _, None;
     format_gmt := λ _, "Mon, 02 Nov 2026 00:00:00 GMT";
     zlib_gzip := gzip_fails |}.

End parser_examples.

Section connection_examples.
Import Server.

(** A request that does not ask for a persistent connection. *)
Definition plain_request : string :=
  "GET /a.txt HTTP/1.1" +:+ CRLF +:+ "Host: x" +:+ CRLF +:+ CRLF.

End connection_examples.

(* ================================================================== *)
(** * Part III: properties *)
(* ================================================================== *)

Lemma c_rem_wrap (a k q : Z) :
  0 ≤ a < q → 0 ≤ k ≤ q →
  c_rem (a + k) q = if a + k <? q then a + k else a + k - q.
Proof.
  intros Ha Hk. unfold c_rem. rewrite Z.rem_mod_nonneg by lia.
  destruct (Z.ltb_spec (a + k) q) as [Hlt | Hge].
  - apply Z.mod_small. lia.
  - symmetry. apply (Z.mod_unique_pos _ _ 1). lia. lia.
Qed.

Lemma c_rem_mod (a q : Z) : 0 ≤ a → 0 < q → c_rem a q = a mod q.
Proof. intros. unfold c_rem. apply Z.rem_mod_nonneg; lia. Qed.

Lemma c_rem_small (a q : Z) : 0 ≤ a < q → c_rem a q = a.
Proof. intros. rewrite c_rem_mod by lia. apply Z.mod_small. lia. Qed.

Lemma c_rem_add_l (a k q : Z) :
  0 ≤ a → 0 ≤ k → 0 < q → c_rem (c_rem a q + k) q = c_rem (a + k) q.
Proof.
  intros Ha Hk Hq. pose proof (Z.mod_pos_bound a q Hq).
  rewrite (c_rem_mod a) by lia. rewrite !c_rem_mod by lia.
  apply Z.add_mod_idemp_l. lia.
Qed.

Lemma c_rem_succ_l (a c q : Z) :
  0 ≤ a → 0 ≤ c → 0 < q → c_rem (c_rem (a + c) q + 1) q = c_rem (a + (c + 1)) q.
Proof.
  intros. rewrite c_rem_add_l by lia. f_equal. lia.
Qed.

Section pool_facts.
Import ThreadPool.

Lemma thread_pool_create_wf sz qs p :
  thread_pool_create sz qs = Some p → pool_wf p.
Proof.
  unfold thread_pool_create. intros H.
  destruct (Z.ltb_spec sz 0), (Z.ltb_spec qs 0); simpl in H; try discriminate.
  injection H as <-. split; simpl.
  - by rewrite length_replicate.
  - lia.
  - lia.
  - unfold c_rem. by destruct qs.
Qed.

Lemma thread_pool_add_wf p task : pool_wf p → pool_wf (thread_pool_add p task).2.
Proof.
  intros [Hlen Hcnt Hhd Htl]. unfold thread_pool_add.
  destruct task as [t|]; [|by split].
  destruct (Z.eqb_spec (count p) (queue_size p)); [by split|].
  destruct (negb (shutdown p =? 0)); [by split|].
  split; simpl.
  - by rewrite length_insert.
  - lia.
  - lia.
  - rewrite Htl. apply c_rem_succ_l; lia.
Qed.

Lemma worker_thread_wf p task p' :
  pool_wf p → worker_thread p = WorkerTakes task p' → pool_wf p'.
Proof.
  intros [Hlen Hcnt Hhd Htl]. unfold worker_thread.
  destruct (Z.eqb_spec (count p) 0), (Z.eqb_spec (shutdown p) 0);
    simpl; intros H; try discriminate.
  injection H as _ <-. split; simpl.
  - by rewrite length_insert.
  - lia.
  - rewrite c_rem_wrap by lia. case_match; lia.
  - rewrite Htl. replace (head p + count p) with (head p + 1 + (count p - 1)) by lia.
    symmetry. apply c_rem_add_l; lia.
Qed.

Lemma thread_pool_destroy_wf p : pool_wf p → pool_wf (thread_pool_destroy p).
Proof.
  intros [Hlen Hcnt Hhd Htl]. unfold thread_pool_destroy.
  destruct (negb (shutdown p =? 0)); by split.
Qed.

Lemma pool_step_wf p p' : pool_step p p' → pool_wf p → pool_wf p'.
Proof.
  destruct 1; eauto using thread_pool_add_wf, worker_thread_wf,
    thread_pool_destroy_wf.
Qed.

Lemma pool_reachable_wf p : pool_reachable p → pool_wf p.
Proof.
  intros (sz & qs & p0 & Hcreate & Hsteps).
  eapply (rtc_ind_r (λ q, pool_wf q)); [| | exact Hsteps].
  - eauto using thread_pool_create_wf.
  - eauto using pool_step_wf.
Qed.

(** Submitting appends to the logical queue. *)
Lemma pending_add p t p' :
  pool_wf p → thread_pool_add p (Some t) = (0, p') →
  pending p' = pending p ++ [Some t].
Proof.
  intros [Hlen Hcnt Hhd Htl]. unfold thread_pool_add.
  destruct (Z.eqb_spec (count p) (queue_size p)); [discriminate|].
  destruct (negb (shutdown p =? 0)); [discriminate|].
  intros [= <-]. unfold pending, queue_at; simpl.
  replace (Z.to_nat (count p + 1)) with (S (Z.to_nat (count p))) by lia.
  rewrite seq_S, fmap_app. simpl. f_equal.
  - apply Forall_fmap_ext, Forall_seq. intros k Hk.
    apply list_lookup_total_insert_ne.
    rewrite Htl, !c_rem_wrap by lia. repeat case_match; lia.
  - f_equal. rewrite Z2Nat.id, <- Htl by lia.
    apply list_lookup_total_insert_eq.
    rewrite Hlen, Htl, c_rem_wrap by lia. case_match; lia.
Qed.

(** A worker takes the oldest queued task. *)
Lemma pending_take p task p' :
  pool_wf p → worker_thread p = WorkerTakes task p' →
  pending p = task :: pending p'.
Proof.
  intros [Hlen Hcnt Hhd Htl]. unfold worker_thread.
  destruct (Z.eqb_spec (count p) 0), (Z.eqb_spec (shutdown p) 0);
    simpl; intros H; try discriminate.
  injection H as <- <-. unfold pending, queue_at; simpl.
  replace (Z.to_nat (count p)) with (S (Z.to_nat (count p - 1))) by lia.
  simpl. f_equal.
  - f_equal. rewrite Z.add_0_r, c_rem_small by lia. done.
  - rewrite <- fmap_S_seq, <- list_fmap_compose.
    apply Forall_fmap_ext, Forall_seq. intros k Hk. simpl.
    rewrite list_lookup_total_insert_ne.
    + f_equal. f_equal. rewrite c_rem_add_l by lia.
      apply (f_equal (λ x, c_rem x _)). lia.
    + rewrite c_rem_add_l, <- Z.add_assoc by lia.
      rewrite c_rem_wrap by lia. case_match; lia.
Qed.

Lemma pending_destroy p : pending (thread_pool_destroy p) = pending p.
Proof. unfold thread_pool_destroy. by destruct (negb (shutdown p =? 0)). Qed.

Lemma thread_pool_add_cases p task :
  thread_pool_add p task = (-1, p) ∨
  ∃ t p', task = Some t ∧ thread_pool_add p task = (0, p') ∧
          count p ≠ queue_size p ∧ shutdown p = 0.
Proof.
  unfold thread_pool_add. destruct task as [t|]; [|by left].
  destruct (Z.eqb_spec (count p) (queue_size p)); [by left|].
  destruct (Z.eqb_spec (shutdown p) 0); simpl; [|by left].
  right. eauto 10.
Qed.

Lemma worker_thread_takes p task p' :
  worker_thread p = WorkerTakes task p' →
  count p ≠ 0 ∧ shutdown p = 0 ∧ count p' = count p - 1 ∧
  shutdown p' = 0 ∧ queue_size p' = queue_size p.
Proof.
  unfold worker_thread.
  destruct (Z.eqb_spec (count p) 0), (Z.eqb_spec (shutdown p) 0);
    simpl; intros H; try discriminate.
  by injection H as _ <-.
Qed.

Lemma pool_step_inv p p' : pool_step p p' → pool_inv p → pool_inv p'.
Proof.
  intros Hstep [Hwf Hall]. split; [by eapply pool_step_wf|].
  destruct Hstep as [p task | p task p' Htake | p].
  - destruct (thread_pool_add_cases p task) as [-> | (t & p' & -> & Hadd & _)];
      [done|].
    rewrite Hadd. simpl. rewrite (pending_add p t p') by done.
    apply Forall_app. split; [done|]. by repeat constructor.
  - rewrite (pending_take p task p') in Hall by done.
    by apply Forall_cons in Hall as [_ ?].
  - by rewrite pending_destroy.
Qed.

Lemma pool_reachable_inv p : pool_reachable p → pool_inv p.
Proof.
  intros (sz & qs & p0 & Hcreate & Hsteps).
  eapply (rtc_ind_r (λ q, pool_inv q)); [| | exact Hsteps].
  - split; [by eapply thread_pool_create_wf|].
    unfold thread_pool_create in Hcreate. case_match; [done|].
    injection Hcreate as <-. by constructor.
  - eauto using pool_step_inv.
Qed.

Lemma shutdown_is_final p p' :
  rtc pool_step p p' → shutdown p ≠ 0 → shutdown p' ≠ 0.
Proof.
  intros Hsteps Hdown.
  eapply (rtc_ind_r (λ q, shutdown q ≠ 0)); [done| |exact Hsteps].
  intros q q' _ Hstep Hq. destruct Hstep as [q task | q task q' Htake | q].
  - by destruct (thread_pool_add_cases q task) as [-> | (?&?&?&?&?&?)].
  - by apply worker_thread_takes in Htake as (?&?&?).
  - unfold thread_pool_destroy. by destruct (Z.eqb_spec (shutdown q) 0).
Qed.

(** C4.  Backpressure of the worker pool.  In every pool state reachable
    from [thread_pool_create], submitting a task fails at once with [-1]
    and leaves the pool as it was when the queue is full
    ([count = queue_size]) or the shutdown flag is set; in every other
    state it returns [0] and the task becomes the newest element of the
    logical queue.  A worker always takes the oldest element of that
    queue, which is a submitted task, and after it has taken one the
    next submission succeeds. *)
Theorem thread_pool_add_backpressure_fifo p t :
  pool_reachable p →
  ((count p = queue_size p ∨ shutdown p ≠ 0) →
     thread_pool_add p (Some t) = (-1, p)) ∧
  (count p ≠ queue_size p → shutdown p = 0 →
     ∃ p', thread_pool_add p (Some t) = (0, p') ∧
           count p' = count p + 1 ∧
           pending p' = pending p ++ [Some t]) ∧
  (∀ task p1, worker_thread p = WorkerTakes task p1 →
     is_Some task ∧ pending p = task :: pending p1 ∧
     count p1 < queue_size p1 ∧
     (thread_pool_add p1 (Some t)).1 = 0).
Proof.
  intros Hreach. destruct (pool_reachable_inv p Hreach) as [Hwf Hall].
  split; [|split].
  - unfold thread_pool_add. intros [-> | Hdown].
    + by rewrite Z.eqb_refl.
    + destruct (count p =? queue_size p); [done|].
      by destruct (Z.eqb_spec (shutdown p) 0).
  - intros Hroom Hup.
    destruct (thread_pool_add_cases p (Some t)) as [Hrej | (t' & p' & _ & Hadd & _)].
    + exfalso. revert Hrej. unfold thread_pool_add.
      destruct (Z.eqb_spec (count p) (queue_size p)); [done|].
      rewrite Hup. simpl. discriminate.
    + exists p'. split; [done|]. split; [|by eapply pending_add].
      revert Hadd. unfold thread_pool_add.
      destruct (count p =? queue_size p); [discriminate|].
      destruct (negb (shutdown p =? 0)); [discriminate|]. by intros [= <-].
  - intros task p1 Htake.
    pose proof (pending_take p task p1 Hwf Htake) as Hpend.
    rewrite Hpend in Hall. apply Forall_cons in Hall as [Htask _].
    apply worker_thread_takes in Htake as (Hne & Hup & Hcnt & Hup1 & Hqs).
    destruct Hwf as [_ Hbound _ _].
    assert (count p1 < queue_size p1) as Hlt by lia.
    repeat split; [done..|].
    unfold thread_pool_add.
    destruct (Z.eqb_spec (count p1) (queue_size p1)); [lia|].
    by rewrite Hup1.
Qed.

(** C5.  In every pool state reachable from a freshly created pool by
    submit, worker-dequeue and shutdown steps, [0 ≤ count ≤ queue_size];
    and once the shutdown flag is set it stays set along every further
    sequence of steps, and every later submission is rejected and
    leaves the pool unchanged. *)
Theorem pool_count_bounded_shutdown_final p :
  pool_reachable p →
  0 ≤ count p ≤ queue_size p ∧
  (shutdown p ≠ 0 →
   ∀ p', rtc pool_step p p' →
     shutdown p' ≠ 0 ∧ ∀ task, thread_pool_add p' task = (-1, p')).
Proof.
  intros Hreach. split.
  - by destruct (pool_reachable_wf p Hreach).
  - intros Hdown p' Hsteps.
    pose proof (shutdown_is_final p p' Hsteps Hdown) as Hdown'.
    split; [done|]. intros task.
    by destruct (thread_pool_add_cases p' task) as [? | (?&?&?&?&?&?)].
Qed.

End pool_facts.

(* ------------------------------------------------------------------ *)
(** ** The rate limiter *)
(* ------------------------------------------------------------------ *)

Lemma substring_all (n : nat) (s : string) :
  (String.length s ≤ n)%nat → String.substring 0 n s = s.
Proof.
  revert n. induction s as [|c s IH]; intros [|n] Hn; simpl in *; try done.
  - lia.
  - f_equal. apply IH. lia.
Qed.

Section limiter_facts.
Import Server.

Variable config : server_config_t.

Lemma zero_entry_wf : entry_wf zero_entry.
Proof. split; simpl; try lia; done. Qed.

Lemma ip_hash_range client_ip : 0 ≤ ip_hash client_ip < 1024.
Proof. unfold ip_hash. apply Z.mod_pos_bound. done. Qed.

Lemma slot_of_wf st client_ip : state_wf st → entry_wf (slot_of st client_ip).
Proof.
  intros [Hlen Hall _]. unfold slot_of.
  pose proof (ip_hash_range client_ip).
  eapply Forall_lookup_1; [done|]. apply list_lookup_lookup_total_lt. lia.
Qed.

(** *** The counting loop *)

Lemma count_recent_acc (l : list Z) (cutoff acc : Z) :
  foldl (λ v t, if cutoff <=? t then v + 1 else v) acc l =
  acc + foldl (λ v t, if cutoff <=? t then v + 1 else v) 0 l.
Proof.
  revert acc. induction l as [|t l IH]; intros acc; simpl; [lia|].
  rewrite IH. rewrite (IH (if cutoff <=? t then 0 + 1 else 0)).
  case_match; lia.
Qed.

Lemma count_recent_all e cutoff :
  entry_wf e → Forall (λ t, cutoff ≤ t) (recorded e) →
  count_recent (timestamps e) (count e) cutoff = count e.
Proof.
  intros [Hlen Hcnt _ _]. unfold count_recent, recorded.
  assert (length (take (Z.to_nat (count e)) (timestamps e)) = Z.to_nat (count e))
    as Htake by (rewrite length_take; lia).
  revert Htake. generalize (take (Z.to_nat (count e)) (timestamps e)).
  intros l Hl Hall. transitivity (Z.of_nat (length l)); [|lia]. clear Hl.
  induction Hall as [|t l Ht _ IH]; [done|]. simpl.
  rewrite count_recent_acc, IH. destruct (Z.leb_spec cutoff t); lia.
Qed.

Lemma count_recent_none e cutoff :
  Forall (λ t, t < cutoff) (recorded e) →
  count_recent (timestamps e) (count e) cutoff = 0.
Proof.
  unfold count_recent, recorded.
  generalize (take (Z.to_nat (count e)) (timestamps e)). intros l Hall.
  induction Hall as [|t l Ht _ IH]; [done|]. simpl.
  rewrite count_recent_acc, IH. destruct (Z.leb_spec cutoff t); lia.
Qed.

(** *** The locked region *)

Lemma claim_entry_wf client_ip e : entry_wf e → entry_wf (claim_entry client_ip e).
Proof.
  intros [Hlen Hcnt Hidx Hfill]. unfold claim_entry.
  case_match; split; simpl; try done; lia.
Qed.

Lemma claim_entry_reset client_ip e :
  count e = 0 ∨ ip e ≠ client_ip →
  claim_entry client_ip e =
    {| ip := strncpy 45 client_ip; timestamps := timestamps e;
       current_index := 0; count := 0 |}.
Proof.
  unfold claim_entry, strcmp_eq. intros [-> | Hne]; [done|].
  destruct (String.eqb_spec (ip e) client_ip); [done|].
  by rewrite orb_true_r.
Qed.

Lemma claim_entry_keep client_ip e :
  count e ≠ 0 → ip e = client_ip → claim_entry client_ip e = e.
Proof.
  unfold claim_entry, strcmp_eq. intros Hc ->.
  destruct (Z.eqb_spec (count e) 0); [done|].
  by rewrite String.eqb_refl.
Qed.

Lemma locked_limited now client_ip e :
  let e0 := claim_entry client_ip e in
  rate_limit_max config ≤
    count_recent (timestamps e0) (count e0) (now - rate_limit_interval config) →
  check_rate_limit_locked config now client_ip e = (1, e0).
Proof.
  intros e0 Hmax. unfold check_rate_limit_locked. fold (claim_entry client_ip e).
  fold e0. destruct (Z.leb_spec (rate_limit_max config)
    (count_recent (timestamps e0) (count e0) (now - rate_limit_interval config)));
    [done | lia].
Qed.

Lemma locked_allowed now client_ip e :
  let e0 := claim_entry client_ip e in
  entry_wf e0 →
  count_recent (timestamps e0) (count e0) (now - rate_limit_interval config)
    < rate_limit_max config →
  ∃ e1, check_rate_limit_locked config now client_ip e = (0, e1) ∧
        entry_wf e1 ∧ ip e1 = ip e0 ∧
        count e1 = Z.min (count e0 + 1) 1000 ∧
        (count e0 < 1000 → recorded e1 = recorded e0 ++ [now]) ∧
        (count e0 = 1000 →
           recorded e1 = <[Z.to_nat (current_index e0) := now]> (recorded e0)) ∧
        current_index e1 = c_rem (current_index e0 + 1) 1000.
Proof.
  intros e0 [Hlen Hcnt Hidx Hfill] Hmax.
  unfold check_rate_limit_locked. fold (claim_entry client_ip e). fold e0.
  destruct (Z.leb_spec (rate_limit_max config)
    (count_recent (timestamps e0) (count e0) (now - rate_limit_interval config)));
    [lia|]. simpl.
  eexists. split; [done|].
  split; [|split; [done|split; [|split; [|split; [|done]]]]]; simpl.
  - split; simpl.
    + by rewrite length_insert.
    + case_match; lia.
    + rewrite c_rem_wrap by lia. case_match; lia.
    + destruct (Z.ltb_spec (count e0) 1000); [|lia]. intros Hlt.
      rewrite Hfill by lia. rewrite c_rem_small; lia.
  - destruct (Z.ltb_spec (count e0) 1000); lia.
  - intros Hlt. unfold recorded; simpl.
    destruct (Z.ltb_spec (count e0) 1000); [|lia].
    rewrite Hfill by done.
    replace (Z.to_nat (count e0 + 1)) with (S (Z.to_nat (count e0))) by lia.
    assert (Z.to_nat (count e0) < length (timestamps e0))%nat as Hin by lia.
    destruct (lookup_lt_is_Some_2 _ _ Hin) as [old Hold].
    rewrite (take_S_r (<[_:=_]> _) _ now).
    + by rewrite take_insert_ge.
    + by apply list_lookup_insert_eq.
  - intros Hfull. unfold recorded; simpl.
    destruct (Z.ltb_spec (count e0) 1000); [lia|].
    apply take_insert_lt. lia.
Qed.

Lemma locked_wf now client_ip e :
  entry_wf e → entry_wf (check_rate_limit_locked config now client_ip e).2.
Proof.
  intros Hwf. pose proof (claim_entry_wf client_ip e Hwf) as Hwf0.
  destruct (Z.le_gt_cases (rate_limit_max config)
    (count_recent (timestamps (claim_entry client_ip e))
       (count (claim_entry client_ip e)) (now - rate_limit_interval config))).
  - by rewrite locked_limited.
  - destruct (locked_allowed now client_ip e Hwf0) as (e1 & -> & ? & _); [lia|done].
Qed.

(** *** From the entry to the table *)

Lemma check_rate_limit_slot now client_ip st :
  enable_rate_limit config ≠ 0 → state_wf st →
  ∃ st', check_rate_limit config now client_ip st =
           ((check_rate_limit_locked config now client_ip
               (slot_of st client_ip)).1, st') ∧
         slot_of st' client_ip =
           (check_rate_limit_locked config now client_ip
              (slot_of st client_ip)).2 ∧
         state_wf st' ∧ rate_limit_initialized st' ≠ 0.
Proof.
  intros Hon [Hlen Hall Hstart]. unfold check_rate_limit.
  destruct (Z.eqb_spec (enable_rate_limit config) 0); [done|].
  pose proof (ip_hash_range client_ip) as Hh.
  set (st1 := if rate_limit_initialized st =? 0 then init_rate_limiting st else st).
  assert (rate_limit_table st1 = rate_limit_table st ∧
          rate_limit_initialized st1 ≠ 0) as [Htab Hinit].
  { unfold st1, init_rate_limiting.
    destruct (Z.eqb_spec (rate_limit_initialized st) 0) as [H0|]; [|done].
    split; [|done]. simpl. by rewrite Hstart. }
  unfold slot_of. rewrite Htab.
  pose proof (locked_wf now client_ip (slot_of st client_ip)
                (slot_of_wf st client_ip (StateWf st Hlen Hall Hstart))) as Hwf'.
  unfold slot_of in Hwf'.
  destruct (check_rate_limit_locked config now client_ip
              (rate_limit_table st !!! Z.to_nat (ip_hash client_ip)))
    as [r e'] eqn:Hlocked.
  eexists. split; [done|]. simpl.
  split; [|split; [split|]]; simpl.
  - apply list_lookup_total_insert_eq. lia.
  - by rewrite length_insert.
  - apply Forall_insert; done.
  - done.
  - done.
Qed.

Lemma check_rate_limit_wf now client_ip st :
  state_wf st → state_wf (check_rate_limit config now client_ip st).2.
Proof.
  intros Hwf. destruct (Z.eq_dec (enable_rate_limit config) 0) as [Hoff|Hon].
  - unfold check_rate_limit. by rewrite Hoff.
  - destruct (check_rate_limit_slot now client_ip st Hon Hwf)
      as (st' & -> & _ & ? & _). done.
Qed.

Lemma rate_limit_start_wf : state_wf rate_limit_start.
Proof.
  split; unfold rate_limit_start; cbn [rate_limit_table rate_limit_initialized].
  - by rewrite length_replicate.
  - apply Forall_replicate, zero_entry_wf.
  - done.
Qed.

Lemma limiter_reachable_wf st : limiter_reachable config st → state_wf st.
Proof.
  intros Hsteps.
  eapply (rtc_ind_r (λ s, state_wf s)); [| |exact Hsteps].
  - apply rate_limit_start_wf.
  - intros s s' _ [now client_ip s0] Hs. by apply check_rate_limit_wf.
Qed.

(** *** Quota within one window *)

Lemma recorded_length e : entry_wf e → Z.of_nat (length (recorded e)) = count e.
Proof. intros [Hlen Hcnt _ _]. unfold recorded. rewrite length_take. lia. Qed.

Lemma claim_entry_own client_ip e :
  count e = 0 ∨ ip e = client_ip →
  strncpy 45 client_ip = client_ip →
  ip (claim_entry client_ip e) = client_ip ∧
  count (claim_entry client_ip e) = count e ∧
  recorded (claim_entry client_ip e) = recorded e.
Proof.
  intros Hown Hfit. destruct (Z.eq_dec (count e) 0) as [H0|Hn0].
  - rewrite claim_entry_reset by auto. unfold recorded. simpl. by rewrite H0.
  - destruct Hown as [|Hip]; [done|]. by rewrite claim_entry_keep.
Qed.

Lemma quota_step client_ip w now st :
  enable_rate_limit config ≠ 0 → state_wf st →
  strncpy 45 client_ip = client_ip →
  count (slot_of st client_ip) = 0 ∨ ip (slot_of st client_ip) = client_ip →
  Forall (λ t, w ≤ t) (recorded (slot_of st client_ip)) →
  now ≤ w + rate_limit_interval config →
  count (slot_of st client_ip) < rate_limit_max config →
  count (slot_of st client_ip) < 1000 →
  ∃ st', check_rate_limit config now client_ip st = (0, st') ∧ state_wf st' ∧
         ip (slot_of st' client_ip) = client_ip ∧
         recorded (slot_of st' client_ip) =
           recorded (slot_of st client_ip) ++ [now].
Proof.
  intros Hon Hwf Hfit Hown Hrec Hnow Hroom Hcell.
  destruct (check_rate_limit_slot now client_ip st Hon Hwf)
    as (st' & Hcheck & Hslot & Hwf' & _).
  pose proof (slot_of_wf st client_ip Hwf) as Hewf.
  pose proof (claim_entry_wf client_ip _ Hewf) as Hewf0.
  destruct (claim_entry_own client_ip _ Hown Hfit) as (Hip0 & Hcnt0 & Hrec0).
  destruct (locked_allowed now client_ip (slot_of st client_ip) Hewf0)
    as (e1 & Hlocked & _ & Hip1 & _ & Happ & _).
  { rewrite count_recent_all; [lia|done|]. rewrite Hrec0.
    eapply Forall_impl; [done|]. simpl. lia. }
  rewrite Hlocked in Hcheck, Hslot. simpl in *.
  exists st'. rewrite Hslot, Hip1, Happ by lia. by rewrite Hrec0.
Qed.

Lemma quota_run client_ip w times :
  enable_rate_limit config ≠ 0 →
  strncpy 45 client_ip = client_ip →
  Forall (λ t, w ≤ t ≤ w + rate_limit_interval config) times →
  ∀ st, state_wf st →
  count (slot_of st client_ip) = 0 ∨ ip (slot_of st client_ip) = client_ip →
  Forall (λ t, w ≤ t) (recorded (slot_of st client_ip)) →
  count (slot_of st client_ip) + Z.of_nat (length times) ≤ rate_limit_max config →
  count (slot_of st client_ip) + Z.of_nat (length times) ≤ 1000 →
  ∃ st', check_rate_limit_seq config client_ip times st
           = (replicate (length times) 0, st') ∧
         state_wf st' ∧
         (count (slot_of st' client_ip) = 0 ∨
          ip (slot_of st' client_ip) = client_ip) ∧
         recorded (slot_of st' client_ip) =
           recorded (slot_of st client_ip) ++ times.
Proof.
  intros Hon Hfit Hwin.
  induction Hwin as [|now later Hnow _ IH]; intros st Hwf Hown Hrec Hroom Hcells.
  - exists st. simpl. by rewrite app_nil_r.
  - simpl in Hroom, Hcells.
    destruct (quota_step client_ip w now st) as (st1 & Hcheck & Hwf1 & Hip1 & Hrec1);
      [done..|lia|lia|lia|].
    pose proof (recorded_length _ (slot_of_wf st client_ip Hwf)) as Hlen.
    pose proof (recorded_length _ (slot_of_wf st1 client_ip Hwf1)) as Hlen1.
    rewrite Hrec1, length_app in Hlen1. simpl in Hlen1.
    destruct (IH st1) as (st' & Hseq & Hwf' & Hown' & Hrec'); [done|auto|..].
    { rewrite Hrec1. apply Forall_app. split; [done|]. constructor; [lia|done]. }
    { lia. }
    { lia. }
    exists st'. simpl. rewrite Hcheck, Hseq.
    split; [done|]. split; [done|]. split; [done|].
    by rewrite Hrec', Hrec1, <- app_assoc.
Qed.

Lemma quota_exhausted client_ip w now st :
  enable_rate_limit config ≠ 0 → state_wf st →
  strncpy 45 client_ip = client_ip →
  count (slot_of st client_ip) = 0 ∨ ip (slot_of st client_ip) = client_ip →
  Forall (λ t, w ≤ t) (recorded (slot_of st client_ip)) →
  now ≤ w + rate_limit_interval config →
  rate_limit_max config ≤ count (slot_of st client_ip) →
  ∃ st', check_rate_limit config now client_ip st = (1, st') ∧
         recorded (slot_of st' client_ip) = recorded (slot_of st client_ip).
Proof.
  intros Hon Hwf Hfit Hown Hrec Hnow Hfull.
  destruct (check_rate_limit_slot now client_ip st Hon Hwf)
    as (st' & Hcheck & Hslot & _).
  pose proof (slot_of_wf st client_ip Hwf) as Hewf.
  pose proof (claim_entry_wf client_ip _ Hewf) as Hewf0.
  destruct (claim_entry_own client_ip _ Hown Hfit) as (Hip0 & Hcnt0 & Hrec0).
  rewrite locked_limited in Hcheck, Hslot.
  - exists st'. simpl in *. by rewrite Hslot, Hrec0.
  - rewrite count_recent_all; [lia|done|]. rewrite Hrec0.
    eapply Forall_impl; [done|]. simpl. lia.
  - rewrite count_recent_all; [lia|done|]. rewrite Hrec0.
    eapply Forall_impl; [done|]. simpl. lia.
Qed.

(** *** A maximum above the capacity of the ring *)

(** The counting loop looks at [count] cells, so it never counts more
    than the ring holds. *)
Lemma count_recent_le e cutoff :
  entry_wf e → count_recent (timestamps e) (count e) cutoff ≤ count e.
Proof.
  intros [Hlen Hcnt _ _]. unfold count_recent.
  assert (length (take (Z.to_nat (count e)) (timestamps e)) = Z.to_nat (count e))
    as Htake by (rewrite length_take; lia).
  revert Htake. generalize (take (Z.to_nat (count e)) (timestamps e)).
  intros l Hl. transitivity (Z.of_nat (length l)); [|lia]. clear Hl.
  induction l as [|t l IH]; [done|]. simpl.
  rewrite count_recent_acc. destruct (cutoff <=? t); lia.
Qed.

Lemma ring_never_limits now client_ip st :
  enable_rate_limit config ≠ 0 → state_wf st →
  1000 < rate_limit_max config →
  ∃ st', check_rate_limit config now client_ip st = (0, st') ∧ state_wf st'.
Proof.
  intros Hon Hwf Hmax.
  destruct (check_rate_limit_slot now client_ip st Hon Hwf)
    as (st' & Hcheck & _ & Hwf' & _).
  pose proof (claim_entry_wf client_ip _ (slot_of_wf st client_ip Hwf)) as Hewf0.
  destruct (locked_allowed now client_ip (slot_of st client_ip) Hewf0)
    as (e1 & Hlocked & _).
  - pose proof (count_recent_le _ (now - rate_limit_interval config) Hewf0).
    destruct Hewf0 as [_ Hcnt _ _]. lia.
  - exists st'. by rewrite Hcheck, Hlocked.
Qed.

Lemma ring_never_limits_run client_ip times :
  enable_rate_limit config ≠ 0 → 1000 < rate_limit_max config →
  ∀ st, state_wf st →
  ∃ st', check_rate_limit_seq config client_ip times st
           = (replicate (length times) 0, st') ∧ state_wf st'.
Proof.
  intros Hon Hmax. induction times as [|now later IH]; intros st Hwf.
  - by exists st.
  - destruct (ring_never_limits now client_ip st Hon Hwf Hmax)
      as (st1 & Hcheck & Hwf1).
    destruct (IH st1 Hwf1) as (st' & Hseq & Hwf').
    exists st'. simpl. by rewrite Hcheck, Hseq.
Qed.

(** C1, as the code has it.  With rate limiting enabled, for an address
    (of at most 45 characters, as IP addresses are) whose slot holds no
    history: any [n ≤ max] checks whose times lie in one window
    [[w, w + interval]] are all allowed, and as long as [n] is at most
    1000, the number of cells of the timestamp ring, the slot records
    exactly their timestamps, in order.  When [n = max], a further check
    in that window is limited and records nothing if [max ≤ 1000]; if
    [max] is above 1000 it is allowed as well, since the count of recent
    timestamps cannot exceed the 1000 cells of the ring and so never
    reaches the maximum. *)
Theorem rate_limit_quota_ring_cap st client_ip times w :
  enable_rate_limit config ≠ 0 →
  limiter_reachable config st →
  (String.length client_ip ≤ 45)%nat →
  count (slot_of st client_ip) = 0 →
  Z.of_nat (length times) ≤ rate_limit_max config →
  Forall (λ t, w ≤ t ≤ w + rate_limit_interval config) times →
  ∃ st', check_rate_limit_seq config client_ip times st
           = (replicate (length times) 0, st') ∧
         (Z.of_nat (length times) ≤ 1000 →
          recorded (slot_of st' client_ip) = times) ∧
         (Z.of_nat (length times) = rate_limit_max config →
          ∀ next, w ≤ next ≤ w + rate_limit_interval config →
            (rate_limit_max config ≤ 1000 →
             ∃ st'', check_rate_limit config next client_ip st' = (1, st'') ∧
                     recorded (slot_of st'' client_ip) = times) ∧
            (1000 < rate_limit_max config →
             ∃ st'', check_rate_limit config next client_ip st' = (0, st''))).
Proof.
  intros Hon Hreach Hfit Hfresh Hn Hwin.
  pose proof (limiter_reachable_wf st Hreach) as Hwf.
  assert (strncpy 45 client_ip = client_ip) as Hcpy by by apply substring_all.
  assert (recorded (slot_of st client_ip) = []) as Hrec0.
  { unfold recorded. by rewrite Hfresh. }
  destruct (Z.le_gt_cases (Z.of_nat (length times)) 1000) as [Hcells|Hmany].
  - destruct (quota_run client_ip w times Hon Hcpy Hwin st Hwf)
      as (st' & Hseq & Hwf' & Hown' & Hrec'); [auto| |lia|lia|].
    { by rewrite Hrec0. }
    rewrite Hrec0 in Hrec'. simpl in Hrec'.
    exists st'. split; [done|]. split; [done|].
    intros Hfull next Hnext. split.
    + intros _.
      pose proof (recorded_length _ (slot_of_wf st' client_ip Hwf')) as Hlen.
      rewrite Hrec' in Hlen.
      destruct (quota_exhausted client_ip w next st') as (st'' & Hcheck & Hsame);
        [done..| | | |].
      * rewrite Hrec'. eapply Forall_impl; [done|]. simpl. lia.
      * lia.
      * lia.
      * exists st''. by rewrite Hsame, Hrec'.
    + intros Hmax.
      destruct (ring_never_limits next client_ip st' Hon Hwf' Hmax)
        as (st'' & Hcheck & _).
      by exists st''.
  - destruct (ring_never_limits_run client_ip times Hon ltac:(lia) st Hwf)
      as (st' & Hseq & Hwf').
    exists st'. split; [done|]. split; [lia|].
    intros Hfull next Hnext. split; [lia|].
    intros Hmax.
    destruct (ring_never_limits next client_ip st' Hon Hwf' Hmax)
      as (st'' & Hcheck & _).
    by exists st''.
Qed.

(** *** Expiry of the window *)

Lemma recorded_claim_entry client_ip e :
  recorded (claim_entry client_ip e) = recorded e ∨
  recorded (claim_entry client_ip e) = [].
Proof. unfold claim_entry. case_match; [by right | by left]. Qed.

(** C9, for a configured maximum of at least 1.  With rate limiting
    enabled: when every timestamp the slot of an address
    holds is older than [now - interval], the check of that address at
    [now] is allowed, whatever was decided for it before. *)
Theorem rate_limit_window_expiry st client_ip now :
  enable_rate_limit config ≠ 0 →
  1 ≤ rate_limit_max config →
  limiter_reachable config st →
  Forall (λ t, t < now - rate_limit_interval config)
         (recorded (slot_of st client_ip)) →
  ∃ st', check_rate_limit config now client_ip st = (0, st').
Proof.
  intros Hon Hmax Hreach Hold.
  pose proof (limiter_reachable_wf st Hreach) as Hwf.
  destruct (check_rate_limit_slot now client_ip st Hon Hwf)
    as (st' & Hcheck & _).
  pose proof (claim_entry_wf client_ip _ (slot_of_wf st client_ip Hwf)) as Hewf0.
  destruct (locked_allowed now client_ip (slot_of st client_ip) Hewf0)
    as (e1 & Hlocked & _).
  - rewrite count_recent_none; [lia|].
    destruct (recorded_claim_entry client_ip (slot_of st client_ip)) as [-> | ->];
      [done | constructor].
  - exists st'. by rewrite Hcheck, Hlocked.
Qed.

(** *** Eviction on collision *)

Lemma claim_entry_equiv client_ip e1 e2 :
  entry_equiv e1 e2 →
  entry_equiv (claim_entry client_ip e1) (claim_entry client_ip e2).
Proof.
  intros (Hip & Hcnt & Hidx & Hrec). unfold claim_entry.
  rewrite Hip, Hcnt. case_match; [|done].
  by repeat split.
Qed.

Lemma locked_equiv now client_ip e1 e2 :
  entry_wf e1 → entry_wf e2 →
  entry_equiv (claim_entry client_ip e1) (claim_entry client_ip e2) →
  (check_rate_limit_locked config now client_ip e1).1 =
  (check_rate_limit_locked config now client_ip e2).1 ∧
  entry_equiv (check_rate_limit_locked config now client_ip e1).2
              (check_rate_limit_locked config now client_ip e2).2.
Proof.
  intros Hwf1 Hwf2 Heq.
  pose proof (claim_entry_wf client_ip e1 Hwf1) as Hwf1'.
  pose proof (claim_entry_wf client_ip e2 Hwf2) as Hwf2'.
  pose proof Heq as (Hip & Hcnt & Hidx & Hrec).
  assert (count_recent (timestamps (claim_entry client_ip e1))
            (count (claim_entry client_ip e1)) (now - rate_limit_interval config)
          = count_recent (timestamps (claim_entry client_ip e2))
            (count (claim_entry client_ip e2)) (now - rate_limit_interval config))
    as Hvalid.
  { unfold count_recent. fold (recorded (claim_entry client_ip e1)).
    fold (recorded (claim_entry client_ip e2)). by rewrite Hrec. }
  destruct (Z.le_gt_cases (rate_limit_max config)
    (count_recent (timestamps (claim_entry client_ip e1))
       (count (claim_entry client_ip e1)) (now - rate_limit_interval config)))
    as [Hlim | Hok].
  - rewrite !locked_limited by (rewrite <- ?Hvalid; done). done.
  - destruct (locked_allowed now client_ip e1 Hwf1')
      as (a1 & -> & _ & Hip1 & Hcnt1 & Happ1 & Hfull1 & Hidx1); [lia|].
    destruct (locked_allowed now client_ip e2 Hwf2')
      as (a2 & -> & _ & Hip2 & Hcnt2 & Happ2 & Hfull2 & Hidx2); [lia|].
    simpl. split; [done|].
    repeat split; [congruence..|].
    destruct Hwf1' as [_ Hc1 _ _].
    destruct (Z.eq_dec (count (claim_entry client_ip e1)) 1000) as [H1000|].
    + rewrite Hfull1, Hfull2 by lia. by rewrite Hidx, Hrec.
    + rewrite Happ1, Happ2 by lia. by rewrite Hrec.
Qed.

Lemma equiv_run client_ip times :
  enable_rate_limit config ≠ 0 →
  ∀ st1 st2, state_wf st1 → state_wf st2 →
  entry_equiv (claim_entry client_ip (slot_of st1 client_ip))
              (claim_entry client_ip (slot_of st2 client_ip)) →
  (check_rate_limit_seq config client_ip times st1).1 =
  (check_rate_limit_seq config client_ip times st2).1.
Proof.
  intros Hon. induction times as [|now later IH]; intros st1 st2 Hwf1 Hwf2 Heq;
    [done|]. simpl.
  destruct (check_rate_limit_slot now client_ip st1 Hon Hwf1)
    as (st1' & -> & Hslot1 & Hwf1' & _).
  destruct (check_rate_limit_slot now client_ip st2 Hon Hwf2)
    as (st2' & -> & Hslot2 & Hwf2' & _).
  destruct (locked_equiv now client_ip _ _
              (slot_of_wf st1 client_ip Hwf1) (slot_of_wf st2 client_ip Hwf2) Heq)
    as [Hres Hnext].
  specialize (IH st1' st2' Hwf1' Hwf2').
  rewrite Hslot1, Hslot2 in IH.
  specialize (IH (claim_entry_equiv client_ip _ _ Hnext)).
  destruct (check_rate_limit_seq config client_ip later st1') as [rs1 ?].
  destruct (check_rate_limit_seq config client_ip later st2') as [rs2 ?].
  simpl in *. by rewrite Hres, IH.
Qed.

(** C3, for a configured maximum of at least 1.  With rate limiting
    enabled: let [ipA] and [ipB] be distinct addresses
    with the same hash, and let the shared slot currently belong to
    [ipA], with any history.  Then the check of [ipB] resets the slot,
    stores [ipB] in it (its first 45 characters, which is all of an IP
    address) and is allowed, the slot then holding that one timestamp;
    and every later decision for [ipB] is the one a server that has
    just started would take: nothing of [ipA]'s history is counted. *)
Theorem rate_limit_collision_evicts st ipA ipB now :
  enable_rate_limit config ≠ 0 →
  1 ≤ rate_limit_max config →
  limiter_reachable config st →
  ipA ≠ ipB →
  ip_hash ipA = ip_hash ipB →
  ip (slot_of st ipA) = ipA →
  ∃ st', check_rate_limit config now ipB st = (0, st') ∧
         ip (slot_of st' ipB) = strncpy 45 ipB ∧
         ((String.length ipB ≤ 45)%nat → ip (slot_of st' ipB) = ipB) ∧
         recorded (slot_of st' ipB) = [now] ∧
         ∀ times,
           (check_rate_limit_seq config ipB times st).1 =
           (check_rate_limit_seq config ipB times rate_limit_start).1.
Proof.
  intros Hon Hmax Hreach Hne Hhash HA.
  pose proof (limiter_reachable_wf st Hreach) as Hwf.
  assert (slot_of st ipA = slot_of st ipB) as Hsame
    by (unfold slot_of; by rewrite Hhash).
  rewrite Hsame in HA.
  assert (claim_entry ipB (slot_of st ipB) =
            {| ip := strncpy 45 ipB; timestamps := timestamps (slot_of st ipB);
               current_index := 0; count := 0 |}) as Hreset.
  { apply claim_entry_reset. right. congruence. }
  destruct (check_rate_limit_slot now ipB st Hon Hwf)
    as (st' & Hcheck & Hslot & _).
  pose proof (claim_entry_wf ipB _ (slot_of_wf st ipB Hwf)) as Hewf0.
  destruct (locked_allowed now ipB (slot_of st ipB) Hewf0)
    as (e1 & Hlocked & _ & Hip1 & _ & Happ & _).
  { rewrite count_recent_none; [lia|]. rewrite Hreset. constructor. }
  rewrite Hlocked in Hcheck, Hslot. simpl in Hcheck, Hslot.
  exists st'. rewrite Hslot, Hip1, Happ, Hreset by (rewrite Hreset; simpl; lia).
  simpl. split; [done|]. split; [done|].
  split; [by intros; apply substring_all|]. split; [done|].
  intros times. apply equiv_run; [done|done|apply rate_limit_start_wf|].
  rewrite Hreset. rewrite claim_entry_reset.
  - by repeat split.
  - left. unfold slot_of, rate_limit_start. cbn [rate_limit_table].
    rewrite lookup_total_replicate_2; [done|].
    pose proof (ip_hash_range ipB). unfold RATE_LIMIT_TABLE_SIZE. lia.
Qed.

End limiter_facts.

(* ------------------------------------------------------------------ *)
(** ** Strings *)
(* ------------------------------------------------------------------ *)

Lemma append_nil (b : string) : EmptyString +:+ b = b.
Proof. reflexivity. Qed.

Lemma append_cons (c : ascii) (a b : string) :
  String c a +:+ b = String c (a +:+ b).
Proof. reflexivity. Qed.

Lemma length_append (a b : string) :
  String.length (a +:+ b) = (String.length a + String.length b)%nat.
Proof.
  induction a as [|c a IH]; [done|]. rewrite append_cons. simpl. by rewrite IH.
Qed.

Lemma prefix_spec (p s : string) :
  String.prefix p s = true ↔ ∃ rest, s = p +:+ rest.
Proof.
  revert s. induction p as [|a p IH]; intros s.
  - split; [|by destruct s]. intros _. by exists s.
  - destruct s as [|b s]; cbn.
    + split; [done|]. by intros [rest ?].
    + destruct (ascii_dec a b) as [->|Hne].
      * rewrite IH. split; intros [rest Hrest]; exists rest.
        -- by rewrite append_cons, Hrest.
        -- rewrite append_cons in Hrest. by injection Hrest.
      * split; [done|]. intros [rest Hrest].
        rewrite append_cons in Hrest. by injection Hrest as <- _.
Qed.

Lemma strstr_unfold (haystack needle : string) :
  strstr haystack needle =
    if String.prefix needle haystack then Some haystack
    else match haystack with
         | EmptyString => None
         | String _ rest => strstr rest needle
         end.
Proof. by destruct haystack. Qed.

(** [strstr] finds the needle exactly when it occurs somewhere. *)
Lemma strstr_spec (haystack needle : string) :
  is_Some (strstr haystack needle) ↔
  ∃ before after, haystack = before +:+ needle +:+ after.
Proof.
  split.
  - induction haystack as [|c rest IH]; rewrite strstr_unfold.
    + destruct (String.prefix needle EmptyString) eqn:Hp; [|by intros [? ?]].
      intros _. apply prefix_spec in Hp as [after Hafter].
      by exists EmptyString, after.
    + destruct (String.prefix needle (String c rest)) eqn:Hp.
      * intros _. apply prefix_spec in Hp as [after Hafter].
        by exists EmptyString, after.
      * intros Hrest. destruct (IH Hrest) as (before & after & ->).
        by exists (String c before), after.
  - intros (before & after & ->).
    induction before as [|c before IH]; rewrite strstr_unfold.
    + assert (String.prefix needle (EmptyString +:+ needle +:+ after) = true) as ->;
        [|done]. apply prefix_spec. by exists after.
    + destruct (String.prefix needle _); [done|]. apply IH.
Qed.

Lemma hex_of_pos_length (k : nat) :
  ∀ (p : positive) (rest : string),
    Z.pos p < 16 ^ Z.of_nat k →
    (String.length (HexString.Raw.of_pos p rest) ≤ k + String.length rest)%nat.
Proof.
  induction k as [|k IH]; intros p rest Hp; [simpl in Hp; lia|].
  rewrite Nat2Z.inj_succ, Z.pow_succ_r in Hp by lia.
  destruct p as [[[[q|q|]|[q|q|]|]|[[q|q|]|[q|q|]|]|]
                |[[[q|q|]|[q|q|]|]|[[q|q|]|[q|q|]|]|]|];
    simpl; try lia;
    (etrans; [apply IH; lia|simpl; lia]).
Qed.

Lemma printf_lx_length (v : Z) : (String.length (printf_lx v) ≤ 16)%nat.
Proof.
  unfold printf_lx. pose proof (Z.mod_pos_bound v (2 ^ 64) eq_refl) as Hv.
  destruct (v mod 2 ^ 64) as [|p|p]; simpl; try lia.
  pose proof (hex_of_pos_length 16 p EmptyString) as Hlen. simpl in Hlen.
  apply Hlen. change (16 ^ 16) with (2 ^ 64). lia.
Qed.

Section http_facts.
Import Server.

(** The validator is never cut by the 64-byte buffer: it is exactly
    [W/"<size-hex>-<mtime-hex>"]. *)
Lemma file_etag_format (st : file_stat) :
  file_etag st =
    "W/" +:+ DQUOTE +:+ printf_lx (st_size st) +:+ "-" +:+
    printf_lx (st_mtime st) +:+ DQUOTE.
Proof.
  unfold file_etag, snprintf. apply substring_all.
  rewrite !length_append.
  pose proof (printf_lx_length (st_size st)).
  pose proof (printf_lx_length (st_mtime st)).
  simpl. lia.
Qed.

(** *** Compression *)

Lemma client_accepts_gzip_cases (value : option string) :
  client_accepts_gzip value = 0 ∨ client_accepts_gzip value = 1.
Proof.
  unfold client_accepts_gzip. destruct value as [v|]; [|by left].
  destruct (strstr v "gzip"); auto.
Qed.

Lemma client_accepts_gzip_spec (value : string) :
  client_accepts_gzip (Some value) = 1 ↔
  ∃ before after, value = before +:+ "gzip" +:+ after.
Proof.
  rewrite <- strstr_spec. unfold client_accepts_gzip.
  destruct (strstr value "gzip") as [found|].
  - split; [by exists found | done].
  - split; [done|]. by intros [found ?].
Qed.

Lemma response_compression_spec config env response z :
  response_compression config env response = Some z ↔
  ∃ bytes client_request,
    body response = Some bytes ∧ request response = Some client_request ∧
    enable_gzip config ≠ 0 ∧
    gzip_min_size config mod 2 ^ 64 < content_length response ∧
    status_code response = 200 ∧
    compressible (content_type response) = true ∧
    client_accepts_gzip (Some (accept_encoding client_request)) = 1 ∧
    gzip_compress_data env (Some bytes) (content_length response) = Some z.
Proof.
  unfold response_compression.
  destruct (body response) as [bytes|] eqn:Hbody;
    [|split; [done | by intros (? & ? & ? & _)]].
  destruct (request response) as [req|] eqn:Hreq;
    [|split; [done | by intros (? & ? & ? & ? & _)]].
  destruct (Z.eqb_spec (enable_gzip config) 0) as [Hoff|Hon]; cbn [andb negb].
  { split; [done|]. by intros (? & ? & ? & ? & ? & _). }
  destruct (Z.ltb_spec (gzip_min_size config mod 2 ^ 64) (content_length response))
    as [Hbig|Hsmall]; cbn [andb negb];
    [|split; [done | intros (? & ? & ? & ? & ? & ? & _); lia]].
  unfold HTTP_OK.
  destruct (Z.eqb_spec (status_code response) 200) as [H200|Hnot]; cbn [andb negb];
    [|split; [done | by intros (? & ? & ? & ? & ? & ? & ? & _)]].
  destruct (compressible (content_type response)) eqn:Hct; cbn [andb negb];
    [|split; [done | by intros (? & ? & ? & ? & ? & ? & ? & ? & _)]].
  destruct (client_accepts_gzip_cases (Some (accept_encoding req))) as [H0|H1].
  - rewrite H0. cbn [andb negb Z.eqb]. split; [done|].
    intros (? & ? & ? & [= <-] & ? & ? & ? & ? & ? & _). congruence.
  - rewrite H1. cbn [andb negb Z.eqb Pos.eqb]. split.
    + intros Hz. exists bytes, req. by repeat split.
    + by intros (? & ? & [= <-] & [= <-] & _ & _ & _ & _ & _ & ?).
Qed.

Lemma response_compression_body config env response z :
  response_wf response →
  response_compression config env response = Some z →
  ∃ bytes, body response = Some bytes ∧ zlib_gzip env bytes = Some z.
Proof.
  intros Hwf (bytes & req & Hbody & _ & _ & _ & _ & _ & _ & Hgz)%response_compression_spec.
  exists bytes. split; [done|].
  unfold response_wf in Hwf. rewrite Hbody in Hwf. destruct Hwf as [Hlen Hpos].
  unfold gzip_compress_data in Hgz.
  destruct (Z.eqb_spec (content_length response) 0); [lia|].
  by rewrite Hlen, Nat2Z.id, substring_all in Hgz.
Qed.

(** What is written to the socket, given the outcome of the
    compression step. *)
Lemma send_http_response_compressed config env now response z :
  response_compression config env response = Some z →
  send_http_response config env now response =
    [format_response_header (status_code response) (status_text response)
       (format_gmt env now) (content_type response)
       (Z.of_nat (String.length z)) (response_cache_headers now response)
       ("Content-Encoding: gzip" +:+ CRLF)
       (if negb (response_keep_alive response =? 0) then "keep-alive" else "close");
     z].
Proof.
  intros Hz. unfold send_http_response. rewrite Hz.
  apply response_compression_spec in Hz
    as (bytes & req & -> & _ & _ & Hbig & _).
  pose proof (Z.mod_pos_bound (gzip_min_size config) (2 ^ 64) eq_refl).
  destruct (Z.ltb_spec 0 (content_length response)); [done|lia].
Qed.

Lemma send_http_response_plain config env now response :
  response_wf response →
  response_compression config env response = None →
  send_http_response config env now response =
    format_response_header (status_code response) (status_text response)
      (format_gmt env now) (content_type response)
      (content_length response) (response_cache_headers now response)
      EmptyString
      (if negb (response_keep_alive response =? 0) then "keep-alive" else "close")
    :: match body response with Some bytes => [bytes] | None => [] end.
Proof.
  intros Hwf Hz. unfold send_http_response. rewrite Hz. f_equal.
  unfold response_wf in Hwf. destruct (body response) as [bytes|]; [|done].
  destruct Hwf as [Hlen Hpos].
  destruct (Z.ltb_spec 0 (content_length response)); [|lia].
  by rewrite Hlen, Nat2Z.id, substring_all.
Qed.

(** C10.  [client_accepts_gzip] is a substring test: it returns 0 for a
    [NULL] value and otherwise 1 exactly when the value contains the
    four characters "gzip" somewhere (0 if not).  Consequently a
    request whose Accept-Encoding is "gzip;q=0" gets a gzip-compressed
    body whenever the other conditions of the compression step hold. *)
Theorem client_accepts_gzip_substring :
  client_accepts_gzip None = 0 ∧
  (∀ value, client_accepts_gzip (Some value) = 1 ↔
            ∃ before after, value = before +:+ "gzip" +:+ after) ∧
  (∀ value, client_accepts_gzip (Some value) ≠ 1 →
            client_accepts_gzip (Some value) = 0) ∧
  (∀ config env now response client_request bytes z,
     request response = Some client_request →
     accept_encoding client_request = "gzip;q=0" →
     body response = Some bytes →
     content_length response = Z.of_nat (String.length bytes) →
     status_code response = 200 →
     enable_gzip config ≠ 0 →
     compressible (content_type response) = true →
     gzip_min_size config mod 2 ^ 64 < content_length response →
     zlib_gzip env bytes = Some z →
     send_http_response config env now response =
       [format_response_header 200 (status_text response)
          (format_gmt env now) (content_type response)
          (Z.of_nat (String.length z)) (response_cache_headers now response)
          ("Content-Encoding: gzip" +:+ CRLF)
          (if negb (response_keep_alive response =? 0)
           then "keep-alive" else "close");
        z]).
Proof.
  split; [done|]. split; [apply client_accepts_gzip_spec|]. split.
  - intros value Hne.
    by destruct (client_accepts_gzip_cases (Some value)).
  - intros config env now response req bytes z Hreq Hae Hbody Hlen H200 Hon Hct
      Hbig Hz.
    rewrite <- H200. apply send_http_response_compressed.
    apply response_compression_spec. exists bytes, req.
    pose proof (Z.mod_pos_bound (gzip_min_size config) (2 ^ 64) eq_refl).
    repeat split; try done.
    + by rewrite Hae.
    + unfold gzip_compress_data.
      destruct (Z.eqb_spec (content_length response) 0); [lia|].
      by rewrite Hlen, Nat2Z.id, substring_all.
Qed.

(** *** Resolution of the request path *)

Lemma handle_http_request_resolved config env request response file_path st :
  method request = "GET" ∨ method request = "HEAD" →
  resolves_to config env request file_path st →
  handle_http_request config env request response =
    Some (handle_http_request_file env request response file_path st).
Proof.
  intros Hmethod Hres. unfold handle_http_request.
  assert (negb (strcmp_eq (method request) HTTP_METHOD_GET) &&
          negb (strcmp_eq (method request) HTTP_METHOD_HEAD) = false) as ->.
  { by destruct Hmethod as [-> | ->]. }
  fold (requested_path config request).
  destruct Hres as [st Hstat Hfile | dir_st st Hstat Hdir Hslash Hindex].
  - by rewrite Hstat, Hfile.
  - rewrite Hstat, Hdir, Hslash. cbn [Ascii.eqb negb]. simpl Ascii.eqb.
    by rewrite Hindex.
Qed.

Lemma file_etag_nonempty st : file_etag st ≠ EmptyString.
Proof. by rewrite file_etag_format. Qed.

Lemma validator_matches_spec request st :
  negb (String.eqb (if_none_match request) EmptyString) &&
  bool_decide (is_Some (strstr (if_none_match request) (file_etag st))) = true ↔
  ∃ before after, if_none_match request = before +:+ file_etag st +:+ after.
Proof.
  rewrite andb_true_iff, bool_decide_eq_true, strstr_spec. split; [by intros [_ ?]|].
  intros (before & after & Heq). split; [|by eauto].
  destruct (String.eqb_spec (if_none_match request) EmptyString) as [Hempty|]; [|done].
  rewrite Hempty in Heq. pose proof (file_etag_nonempty st) as Hne.
  destruct before; [|done]. rewrite append_nil in Heq.
  destruct (file_etag st); done.
Qed.

(** *** Conditional requests and HEAD *)

Lemma handle_http_request_file_cases env request response file_path st :
  let matched :=
    negb (String.eqb (if_none_match request) EmptyString) &&
    bool_decide (is_Some (strstr (if_none_match request) (file_etag st))) in
  handle_http_request_file env request response file_path st =
    if matched
    then {| status_code := 304;
            status_text := Some "Not Modified";
            content_type := Some (get_mime_type file_path);
            content_length := 0;
            body := None;
            response_keep_alive := keep_alive request;
            request := request_of response |}
    else
      match read_file_content env file_path with
      | None =>
          build_http_response response HTTP_INTERNAL_SERVER_ERROR MIME_TEXT
            (Some "Internal Server Error") 21
      | Some content =>
          if strcmp_eq (method request) HTTP_METHOD_HEAD
          then build_http_response response HTTP_OK (get_mime_type file_path) None 0
          else build_http_response response HTTP_OK (get_mime_type file_path)
                 (Some content) (Z.of_nat (String.length content))
      end.
Proof. reflexivity. Qed.

Lemma send_bodyless config env now response :
  body response = None → content_length response = 0 →
  send_http_response config env now response =
    [format_response_header (status_code response) (status_text response)
       (format_gmt env now) (content_type response) 0
       (response_cache_headers now response) EmptyString
       (if negb (response_keep_alive response =? 0) then "keep-alive" else "close")].
Proof.
  intros Hbody Hlen.
  rewrite send_http_response_plain.
  - by rewrite Hbody, Hlen.
  - unfold response_wf. by rewrite Hbody.
  - unfold response_compression. by rewrite Hbody.
Qed.

Lemma build_http_response_wf response status_code content_type bytes :
  response_wf (build_http_response response status_code content_type
                 (Some bytes) (Z.of_nat (String.length bytes))) ∧
  response_wf (build_http_response response status_code content_type None 0).
Proof.
  unfold response_wf, build_http_response. split; [|done].
  destruct (Z.ltb_spec 0 (Z.of_nat (String.length bytes))); cbn [body content_length fst snd];
    [|done].
  rewrite Nat2Z.id, substring_all by done. by split.
Qed.

(** Every response the handler builds for a request of [handle_client]
    has the length of its body in its length field and refers to the
    request. *)
Lemma handle_http_request_file_wf env req response file_path st :
  response_wf (handle_http_request_file env req response file_path st) ∧
  request (handle_http_request_file env req response file_path st)
    = request response.
Proof.
  rewrite handle_http_request_file_cases. cbv zeta.
  destruct (negb _ && bool_decide _); [done|].
  destruct (read_file_content env file_path) as [content|].
  - destruct (strcmp_eq (method req) HTTP_METHOD_HEAD); split; try done;
      apply (build_http_response_wf _ _ _ content).
  - split; [|done]. apply (build_http_response_wf _ _ _ "Internal Server Error").
Qed.

Lemma handle_http_request_wf config env req resp :
  handle_http_request config env req (blank_response req) = Some resp →
  response_wf resp ∧ request resp = Some req.
Proof.
  unfold handle_http_request.
  destruct (negb _ && negb _).
  { intros [= <-]. split; [|done].
    apply (build_http_response_wf _ _ _ "Method Not Allowed"). }
  destruct (fs_stat env _) as [st|].
  2: { intros [= <-]. split; [|done].
       apply (build_http_response_wf _ _ _ "Not Found"). }
  destruct (st_is_dir st).
  - destruct (last_char (path req)) as [c|]; [|done].
    destruct (negb (Ascii.eqb c "/")); [by intros [= <-]|].
    destruct (fs_stat env _) as [st'|].
    + intros [= <-]. apply handle_http_request_file_wf.
    + intros [= <-]. split; [|done].
      apply (build_http_response_wf _ _ _ "Not Found").
  - intros [= <-]. apply handle_http_request_file_wf.
Qed.

End http_facts.

(* ------------------------------------------------------------------ *)
(** ** Further properties of the pool, the limiter and the HTTP path *)
(* ------------------------------------------------------------------ *)

Section pool_facts_more.
Import ThreadPool.

Lemma pending_length p : length (pending p) = Z.to_nat (count p).
Proof. unfold pending. by rewrite length_fmap, length_seq. Qed.

(** X1.  In every pool that [thread_pool_create] and any sequence of
    submissions, dequeues and shutdowns lead to, the array has
    [queue_size] cells and holds [count] queued tasks, the cell
    [thread_pool_add] writes (at [tail], when the queue is not full) lies
    inside the array, and so does the cell a worker reads (at [head],
    when the queue is not empty). *)
Theorem pool_indices_in_bounds p :
  pool_reachable p →
  length (queue p) = Z.to_nat (queue_size p) ∧
  Z.of_nat (length (pending p)) = count p ∧
  (count p ≠ queue_size p →
     (Z.to_nat (tail p) < length (queue p))%nat ∧ 0 ≤ tail p) ∧
  (count p ≠ 0 →
     (Z.to_nat (head p) < length (queue p))%nat ∧ 0 ≤ head p).
Proof.
  intros Hreach. destruct (pool_reachable_wf p Hreach) as [Hlen Hcnt Hhd Htl].
  split; [done|]. split; [rewrite pending_length; lia|]. split.
  - intros Hroom. rewrite Hlen, Htl, c_rem_wrap by lia. case_match; lia.
  - intros Hsome. rewrite Hlen. lia.
Qed.

Lemma pool_step_frozen p p' : shutdown p ≠ 0 → pool_step p p' → p' = p.
Proof.
  intros Hdown Hstep. destruct Hstep as [p task | p task p' Htake | p].
  - by destruct (thread_pool_add_cases p task) as [-> | (?&?&?&?&?&?)].
  - by apply worker_thread_takes in Htake as (?&?&?).
  - unfold thread_pool_destroy. by destruct (Z.eqb_spec (shutdown p) 0).
Qed.

(** X2.  Once the shutdown flag is set nothing changes the pool any
    more: a worker that passes through its loop exits, and every
    further submission, dequeue or shutdown leaves the pool as it is;
    in particular the tasks still queued are never handed to a
    worker. *)
Theorem pool_frozen_after_shutdown p :
  shutdown p ≠ 0 →
  worker_thread p = WorkerExits ∧
  ∀ p', rtc pool_step p p' → p' = p.
Proof.
  intros Hdown. split.
  - unfold worker_thread. destruct (Z.eqb_spec (shutdown p) 0); [done|].
    by rewrite andb_false_r.
  - intros p' Hsteps. induction Hsteps as [p | p p1 p2 Hstep _ IH]; [done|].
    apply (pool_step_frozen _ _ Hdown) in Hstep as ->. by apply IH.
Qed.

(** *** The pool against a bounded queue *)

Lemma pool_do_step event p : pool_inv p → pool_inv (pool_do event p).2.
Proof.
  intros Hinv. destruct event as [task| |]; simpl.
  - destruct (thread_pool_add p task) as [code p'] eqn:Hadd.
    replace p' with (thread_pool_add p task).2 by (by rewrite Hadd).
    eapply pool_step_inv; [apply step_submit|done].
  - destruct (worker_thread p) as [| |task p'] eqn:Htake; [done..|].
    eapply pool_step_inv; [by eapply step_dequeue|done].
  - eapply pool_step_inv; [apply step_shutdown|done].
Qed.

Lemma pool_do_refines event p q :
  pool_inv p → pool_refines p q →
  (pool_do event p).1 = (fifo_do (queue_size p) event q).1 ∧
  pool_refines (pool_do event p).2 (fifo_do (queue_size p) event q).2 ∧
  queue_size (pool_do event p).2 = queue_size p.
Proof.
  intros [Hwf Hall] Href. pose proof Href as [Hpend Hstop].
  assert (Z.of_nat (length (fifo_items q)) = count p) as Hlen.
  { rewrite <- (length_fmap Some), <- Hpend, pending_length.
    destruct Hwf as [_ ? _ _]. lia. }
  destruct event as [[t|]| |]; simpl; [| by (split; [|split]) | |].
  - rewrite Hlen. destruct (Z.eqb_spec (count p) (queue_size p)) as [Hfull|Hroom];
      simpl; [by (split; [|split])|].
    destruct (fifo_stopped q) eqn:Hq; rewrite <- Hstop; simpl;
      [by (split; [|split])|].
    split; [done|]. split; [|done]. split; simpl; [|done].
    rewrite fmap_app. simpl. rewrite <- Hpend.
    apply (pending_add p t); [done|]. unfold thread_pool_add.
    destruct (Z.eqb_spec (count p) (queue_size p)); [done|]. by rewrite <- Hstop.
  - rewrite Hstop. unfold worker_thread.
    destruct (Z.eqb_spec (shutdown p) 0) as [Hup|Hdown]; simpl.
    + destruct (Z.eqb_spec (count p) 0) as [Hzero|Hsome]; simpl.
      * destruct (fifo_items q) eqn:Hitems; simpl; [|simpl in Hlen; lia].
        split; [done|]. split; [exact Href|done].
      * assert (worker_thread p = WorkerTakes (queue_at p (head p))
          {| size := size p; queue_size := queue_size p;
             head := c_rem (head p + 1) (queue_size p); tail := tail p;
             count := count p - 1; shutdown := shutdown p;
             queue := <[Z.to_nat (head p):=None]> (queue p) |}) as Htake.
        { unfold worker_thread. destruct (Z.eqb_spec (count p) 0); [done|].
          by rewrite Hup. }
        apply (pending_take p _ _ Hwf) in Htake.
        rewrite Hpend in Htake.
        destruct (fifo_items q) as [|t rest]; [done|].
        simpl in Htake. injection Htake as Hhead Hrest.
        rewrite <- Hhead. split; [done|]. split; [|done].
        split; simpl; [done|]. by rewrite Hup.
    + rewrite andb_false_r. by (split; [|split]).
  - split; [done|]. split.
    + split; simpl; [by rewrite pending_destroy|].
      unfold thread_pool_destroy.
      destruct (shutdown p =? 0) eqn:Hs; simpl; [done|by rewrite Hs].
    + unfold thread_pool_destroy. by destruct (negb (shutdown p =? 0)).
Qed.

Lemma pool_run_refines events :
  ∀ p q, pool_inv p → pool_refines p q →
  (pool_run events p).1 = (fifo_run (queue_size p) events q).1.
Proof.
  induction events as [|event later IH]; intros p q Hinv Href; [done|]. simpl.
  destruct (pool_do_refines event p q Hinv Href) as (Hout & Href' & Hqs).
  pose proof (pool_do_step event p Hinv) as Hinv'.
  specialize (IH _ _ Hinv' Href'). rewrite Hqs in IH.
  destruct (pool_do event p) as [outcome p'].
  destruct (fifo_do (queue_size p) event q) as [outcome' q'].
  simpl in *. revert IH.
  destruct (pool_run later p') as [outcomes p''].
  destruct (fifo_run (queue_size p) later q') as [outcomes' q''].
  simpl. congruence.
Qed.

(** X3.  A pool made by [thread_pool_create] answers any sequence of
    submissions, worker passes and shutdowns exactly as a first-in
    first-out queue of capacity [queue_size] with a stop flag does: the
    same return codes, the same tasks in the same order, the same
    waiting and exiting. *)
Theorem pool_behaves_as_bounded_fifo size queue_size pool events :
  thread_pool_create size queue_size = Some pool →
  (pool_run events pool).1 =
  (fifo_run queue_size events (BoundedFifo [] false)).1.
Proof.
  intros Hcreate.
  assert (ThreadPool.queue_size pool = queue_size ∧ pending pool = [] ∧
          shutdown pool = 0) as (Hqs & Hpend & Hup).
  { unfold thread_pool_create in Hcreate. case_match; [done|].
    by injection Hcreate as <-. }
  rewrite <- Hqs. apply pool_run_refines.
  - apply pool_reachable_inv. exists size, queue_size, pool. by split.
  - split; simpl; [done|]. by rewrite Hup.
Qed.

(** *** The cleanup of the queue *)

Lemma pool_step_spare p p' :
  pool_step p p' → pool_wf p → pool_spare_cells_null p → pool_spare_cells_null p'.
Proof.
  intros Hstep [Hlen Hcnt Hhd Htl] Hspare.
  destruct Hstep as [p task | p task p' Htake | p].
  - unfold thread_pool_add. destruct task as [t|]; [|done].
    destruct (Z.eqb_spec (count p) (queue_size p)); [done|].
    destruct (negb (shutdown p =? 0)); [done|].
    intros k Hk. simpl in *. unfold queue_at. simpl.
    rewrite list_lookup_total_insert_ne.
    + apply Hspare. lia.
    + rewrite Htl, !c_rem_wrap by lia. repeat case_match; lia.
  - revert Htake. unfold worker_thread.
    destruct (Z.eqb_spec (count p) 0), (Z.eqb_spec (shutdown p) 0);
      simpl; intros H; try discriminate.
    injection H as _ <-. intros k Hk. simpl in *. unfold queue_at. simpl.
    rewrite c_rem_add_l, <- Z.add_assoc by lia.
    destruct (Z.eq_dec (1 + Z.of_nat k) (queue_size p)) as [Hlast|Hmid].
    + rewrite Hlast, c_rem_wrap by lia.
      destruct (Z.ltb_spec (head p + queue_size p) (queue_size p)); [lia|].
      replace (head p + queue_size p - queue_size p) with (head p) by lia.
      apply list_lookup_total_insert_eq. lia.
    + destruct (decide (Z.to_nat (head p) =
                        Z.to_nat (c_rem (head p + (1 + Z.of_nat k)) (queue_size p))))
        as [<-|Hne].
      * apply list_lookup_total_insert_eq. lia.
      * rewrite list_lookup_total_insert_ne by done.
        replace (1 + Z.of_nat k) with (Z.of_nat (S k)) by lia.
        apply Hspare. lia.
  - unfold thread_pool_destroy. by destruct (negb (shutdown p =? 0)).
Qed.

Lemma pool_reachable_spare p : pool_reachable p → pool_spare_cells_null p.
Proof.
  intros (sz & qs & p0 & Hcreate & Hsteps).
  assert (pool_wf p ∧ pool_spare_cells_null p) as [_ ?]; [|done].
  eapply (rtc_ind_r (λ q, pool_wf q ∧ pool_spare_cells_null q));
    [| |exact Hsteps].
  - split; [by eapply thread_pool_create_wf|].
    unfold thread_pool_create in Hcreate. case_match; [done|].
    injection Hcreate as <-. intros k Hk. unfold queue_at. simpl in *.
    apply lookup_total_replicate_2. rewrite c_rem_wrap by lia. case_match; lia.
  - intros q q' _ Hstep [Hwf Hspare]. split; [by eapply pool_step_wf|].
    by eapply pool_step_spare.
Qed.

Lemma rotate_perm {A} (n : nat) (l : list A) : rotate n l ≡ₚ l.
Proof.
  unfold rotate. rewrite Permutation_app_comm. by rewrite take_drop.
Qed.

Lemma pool_rotated p :
  pool_wf p → pool_spare_cells_null p →
  rotate (Z.to_nat (head p)) (queue p) =
    pending p ++ replicate (Z.to_nat (queue_size p - count p)) None.
Proof.
  intros [Hlen Hcnt Hhd Htl] Hspare. apply list_eq. intros i.
  destruct (decide (i < length (queue p))%nat) as [Hin|Hout].
  - rewrite lookup_rotate_r by done. unfold rotate_nat_add.
    assert (Z.to_nat ((Z.of_nat (Z.to_nat (head p)) + Z.of_nat i)
                        `mod` Z.of_nat (length (queue p)))
            = Z.to_nat (c_rem (head p + Z.of_nat i) (queue_size p))) as ->.
    { rewrite c_rem_mod by lia. rewrite Hlen, !Z2Nat.id by lia. done. }
    assert (Z.to_nat (c_rem (head p + Z.of_nat i) (queue_size p))
            < length (queue p))%nat as Hidx.
    { rewrite c_rem_wrap by lia. case_match; lia. }
    rewrite (list_lookup_lookup_total_lt _ _ Hidx).
    destruct (decide (Z.of_nat i < count p)) as [Hq|Hs].
    + rewrite lookup_app_l by (rewrite pending_length; lia).
      unfold pending. rewrite list_lookup_fmap, lookup_seq_lt by lia. done.
    + rewrite lookup_app_r by (rewrite pending_length; lia).
      rewrite lookup_replicate_2 by (rewrite pending_length; lia).
      f_equal. apply Hspare. lia.
  - rewrite !lookup_ge_None_2; [done| |].
    + rewrite length_app, pending_length, length_replicate. lia.
    + rewrite length_rotate. lia.
Qed.

(** X4.  In a pool reached from [thread_pool_create], the sockets the
    cleanup loop of [thread_pool_destroy] closes are exactly the
    sockets of the tasks still queued, each once: the cells outside the
    queued range hold [NULL]. *)
Theorem destroy_closes_queued_sockets p :
  pool_reachable p →
  thread_pool_destroy_closes p ≡ₚ client_socket <$> omap id (pending p).
Proof.
  intros Hreach. unfold thread_pool_destroy_closes.
  pose proof (pool_rotated p (pool_reachable_wf p Hreach)
                (pool_reachable_spare p Hreach)) as Hrot.
  rewrite <- (rotate_perm (Z.to_nat (head p)) (queue p)), Hrot.
  rewrite omap_app.
  assert (omap id (replicate (Z.to_nat (queue_size p - count p)) (@None task_t))
          = []) as ->; [|by rewrite app_nil_r].
  generalize (Z.to_nat (queue_size p - count p)). intros n.
  induction n as [|n IH]; [done|]. simpl. exact IH.
Qed.

End pool_facts_more.

Section acceptor_facts.
Import ThreadPool.

(** X5.  The accept loop loses no connection.  From any pool reached
    from [thread_pool_create], and however the passes of the workers
    fall between the turns of the loop: the connections accepted are,
    each once, those the loop closed at once because [thread_pool_add]
    refused them and those it queued; and the queued ones, appended in
    their order of arrival to what was waiting before, are what the
    workers have taken, in that order, followed by what is still
    waiting. *)
Theorem no_accepted_connection_is_lost events pool :
  pool_reachable pool →
  ∃ queued,
    pending pool ++ (Some <$> queued) =
      handed_over (accept_loop events pool) ++
      pending (pool_after (accept_loop events pool)) ∧
    client_socket <$> accepted events ≡ₚ
      (client_socket <$> queued) ++ closed_at_once (accept_loop events pool).
Proof.
  intros Hwf%pool_reachable_wf. revert pool Hwf.
  induction events as [|[answer|] later IH]; intros pool Hwf.
  - exists []. simpl. by rewrite app_nil_r.
  - destruct answer as [| |s a]; cbn [accept_loop server_start_turn accepted].
    + exists []. simpl. by rewrite app_nil_r.
    + destruct (IH pool Hwf) as (queued & Hq & Hperm). by exists queued.
    + destruct (thread_pool_add_cases pool (Some (Task s a)))
        as [Hfull | (t & pool' & [= <-] & Hadd & _)].
      * rewrite Hfull. cbn [negb Z.eqb]. cbn.
        destruct (IH pool Hwf) as (queued & Hq & Hperm). exists queued.
        split; [done|]. rewrite Hperm. by rewrite Permutation_middle.
      * rewrite Hadd. cbn.
        pose proof (thread_pool_add_wf pool (Some (Task s a)) Hwf) as Hwf'.
        rewrite Hadd in Hwf'.
        destruct (IH pool' Hwf') as (queued & Hq & Hperm).
        exists (Task s a :: queued). split.
        -- rewrite <- Hq, (pending_add pool (Task s a) pool') by done.
           by rewrite <- app_assoc.
        -- cbn. by rewrite Hperm.
  - cbn [accept_loop accepted].
    destruct (worker_thread pool) as [| |task pool'] eqn:Htake;
      [by apply IH..|].
    pose proof (worker_thread_wf pool task pool' Hwf Htake) as Hwf'.
    destruct (IH pool' Hwf') as (queued & Hq & Hperm).
    exists queued. split; [|done]. cbn.
    rewrite (pending_take pool task pool') by done.
    cbn. by rewrite Hq.
Qed.

End acceptor_facts.

Section limiter_facts_more.
Import Server.

Variable config : server_config_t.

(** The state after a check, written out. *)
Lemma check_rate_limit_explicit now client_ip st :
  enable_rate_limit config ≠ 0 → state_wf st →
  check_rate_limit config now client_ip st =
    ((check_rate_limit_locked config now client_ip (slot_of st client_ip)).1,
     {| rate_limit_table :=
          <[Z.to_nat (ip_hash client_ip) :=
              (check_rate_limit_locked config now client_ip
                 (slot_of st client_ip)).2]> (rate_limit_table st);
        rate_limit_initialized :=
          if rate_limit_initialized st =? 0 then 1
          else rate_limit_initialized st |}).
Proof.
  intros Hon [Hlen Hall Hstart]. unfold check_rate_limit, slot_of.
  destruct (Z.eqb_spec (enable_rate_limit config) 0); [done|].
  unfold init_rate_limiting.
  destruct (Z.eqb_spec (rate_limit_initialized st) 0) as [H0|Hn0].
  - cbn [negb rate_limit_table rate_limit_initialized].
    change (replicate (Z.to_nat RATE_LIMIT_TABLE_SIZE) zero_entry)
      with (replicate 1024 zero_entry).
    rewrite <- (Hstart H0).
    by destruct (check_rate_limit_locked config now client_ip _).
  - by destruct (check_rate_limit_locked config now client_ip _).
Qed.

(** X6.  In every state of the table that checks lead to, the table
    has 1024 entries, the slot of any address lies inside it, the ring
    of that slot has 1000 cells, and its [count] and [current_index]
    stay within the ring: every array access of [check_rate_limit] is in
    bounds. *)
Theorem rate_limit_table_in_bounds st client_ip :
  limiter_reachable config st →
  length (rate_limit_table st) = 1024%nat ∧
  (Z.to_nat (ip_hash client_ip) < length (rate_limit_table st))%nat ∧
  length (timestamps (slot_of st client_ip)) = 1000%nat ∧
  0 ≤ count (slot_of st client_ip) ≤ 1000 ∧
  0 ≤ current_index (slot_of st client_ip) < 1000.
Proof.
  intros Hreach. pose proof (limiter_reachable_wf config st Hreach) as Hwf.
  destruct (slot_of_wf st client_ip Hwf) as [? ? ? _].
  destruct Hwf as [Hlen _ _]. pose proof (ip_hash_range client_ip).
  repeat split; try done; lia.
Qed.

(** X7.  Checks of two addresses that are mapped to different slots do
    not affect each other: the first leaves the slot of the second as it
    is, each gets the same answer whichever comes first, and the table
    ends up the same in both orders. *)
Theorem rate_limit_slots_independent st ip1 ip2 now1 now2 :
  limiter_reachable config st →
  ip_hash ip1 ≠ ip_hash ip2 →
  let '(r1, st1) := check_rate_limit config now1 ip1 st in
  let '(r2, st12) := check_rate_limit config now2 ip2 st1 in
  let '(r2', st2) := check_rate_limit config now2 ip2 st in
  let '(r1', st21) := check_rate_limit config now1 ip1 st2 in
  slot_of st1 ip2 = slot_of st ip2 ∧ r1 = r1' ∧ r2 = r2' ∧ st12 = st21.
Proof.
  intros Hreach Hne. pose proof (limiter_reachable_wf config st Hreach) as Hwf.
  destruct (Z.eq_dec (enable_rate_limit config) 0) as [Hoff|Hon].
  { unfold check_rate_limit. by rewrite Hoff. }
  pose proof (check_rate_limit_wf config now1 ip1 st Hwf) as Hwf1.
  pose proof (check_rate_limit_wf config now2 ip2 st Hwf) as Hwf2.
  pose proof (ip_hash_range ip1) as Hr1. pose proof (ip_hash_range ip2) as Hr2.
  assert (Z.to_nat (ip_hash ip1) ≠ Z.to_nat (ip_hash ip2)) as Hidx by lia.
  destruct (check_rate_limit config now1 ip1 st) as [r1 st1] eqn:E1.
  destruct (check_rate_limit config now2 ip2 st) as [r2' st2] eqn:E2.
  simpl in Hwf1, Hwf2.
  destruct (check_rate_limit config now2 ip2 st1) as [r2 st12] eqn:E12.
  destruct (check_rate_limit config now1 ip1 st2) as [r1' st21] eqn:E21.
  rewrite check_rate_limit_explicit in E1, E2, E12, E21 by done.
  injection E1 as <- <-. injection E2 as <- <-.
  assert (∀ e, slot_of {| rate_limit_table :=
                 <[Z.to_nat (ip_hash ip1) := e]> (rate_limit_table st);
               rate_limit_initialized :=
                 if rate_limit_initialized st =? 0 then 1
                 else rate_limit_initialized st |} ip2 = slot_of st ip2) as H12.
  { intros e. unfold slot_of. simpl. by apply list_lookup_total_insert_ne. }
  assert (∀ e, slot_of {| rate_limit_table :=
                 <[Z.to_nat (ip_hash ip2) := e]> (rate_limit_table st);
               rate_limit_initialized :=
                 if rate_limit_initialized st =? 0 then 1
                 else rate_limit_initialized st |} ip1 = slot_of st ip1) as H21.
  { intros e. unfold slot_of. simpl. apply list_lookup_total_insert_ne. lia. }
  rewrite H12 in E12. rewrite H21 in E21.
  cbn [rate_limit_table rate_limit_initialized] in E12, E21.
  injection E12 as <- <-. injection E21 as <- <-.
  split; [apply H12|]. split; [done|]. split; [done|]. f_equal.
  apply list_insert_insert_ne. lia.
Qed.

(** X8.  With a configured maximum of at least 1, a check that is
    rejected changes nothing: the table after it is the table before
    it, so a rejected request does not count against the quota. *)
Theorem rate_limit_rejection_leaves_table st client_ip now :
  1 ≤ rate_limit_max config →
  (check_rate_limit config now client_ip st).1 = 1 →
  (check_rate_limit config now client_ip st).2 = st.
Proof.
  intros Hmax. unfold check_rate_limit.
  destruct (enable_rate_limit config =? 0); [done|].
  pose proof (ip_hash_range client_ip) as Hrange.
  destruct (Z.eqb_spec (rate_limit_initialized st) 0) as [H0|Hinit].
  - unfold init_rate_limiting. rewrite H0.
    cbn [Z.eqb negb rate_limit_table rate_limit_initialized].
    rewrite lookup_total_replicate_2 by (unfold RATE_LIMIT_TABLE_SIZE; lia).
    destruct (locked_allowed config now client_ip zero_entry) as (e1 & -> & _).
    + apply claim_entry_wf, zero_entry_wf.
    + rewrite claim_entry_reset by (by left). unfold count_recent. simpl. lia.
    + done.
  - set (e := rate_limit_table st !!! Z.to_nat (ip_hash client_ip)).
    destruct (Z.le_gt_cases (rate_limit_max config)
      (count_recent (timestamps (claim_entry client_ip e))
         (count (claim_entry client_ip e)) (now - rate_limit_interval config)))
      as [Hlim|Hok].
    + rewrite (locked_limited config now client_ip e Hlim). simpl. intros _.
      assert (claim_entry client_ip e = e) as ->.
      { unfold claim_entry in *.
        destruct ((count e =? 0) || negb (strcmp_eq (ip e) client_ip)); [|done].
        unfold count_recent in Hlim. simpl in Hlim. lia. }
      destruct st as [table init]. simpl in *. f_equal.
      apply list_insert_id'. intros Hin. by apply list_lookup_lookup_total_lt.
    + unfold check_rate_limit_locked. fold (claim_entry client_ip e).
      destruct (Z.leb_spec (rate_limit_max config)
        (count_recent (timestamps (claim_entry client_ip e))
           (count (claim_entry client_ip e)) (now - rate_limit_interval config)));
        [lia|]. done.
Qed.

(** *** No window is overfilled *)

Lemma filter_length_mono {A} (P Q : A → Prop)
    `{∀ x, Decision (P x)} `{∀ x, Decision (Q x)} (l : list A) :
  (∀ x, P x → Q x) → (length (filter P l) ≤ length (filter Q l))%nat.
Proof.
  intros HPQ. induction l as [|x l IH]; [done|].
  rewrite !filter_cons. repeat case_decide; simpl; try lia.
  exfalso. auto.
Qed.

Lemma filter_all {A} (P : A → Prop) `{∀ x, Decision (P x)} (l : list A) :
  Forall P l → filter P l = l.
Proof.
  induction 1 as [|x l Hx _ IH]; [done|].
  rewrite filter_cons. case_decide; [by rewrite IH|done].
Qed.

Lemma filter_none {A} (P : A → Prop) `{∀ x, Decision (P x)} (l : list A) :
  Forall (λ x, ¬ P x) l → filter P l = [].
Proof.
  induction 1 as [|x l Hx _ IH]; [done|].
  rewrite filter_cons. case_decide; [done|by rewrite IH].
Qed.

Lemma count_recent_filter ts cnt cutoff :
  count_recent ts cnt cutoff =
  Z.of_nat (length (filter (λ t, cutoff ≤ t) (take (Z.to_nat cnt) ts))).
Proof.
  unfold count_recent. generalize (take (Z.to_nat cnt) ts). intros l.
  induction l as [|t l IH]; [done|]. simpl.
  rewrite count_recent_acc, IH, filter_cons.
  destruct (Z.leb_spec cutoff t); case_decide; simpl; lia.
Qed.

Lemma ring_view_perm e : entry_wf e → recorded e ≡ₚ ring_view e.
Proof.
  intros [Hlen Hcnt Hidx _]. unfold ring_view, recorded.
  destruct (Z.ltb_spec (count e) 1000); [done|].
  rewrite take_ge by lia.
  rewrite Permutation_app_comm. by rewrite take_drop.
Qed.

Lemma ring_advance {A} (l : list A) (i : nat) (x : A) :
  (i < length l)%nat →
  drop ((i + 1) `mod` length l) (<[i:=x]> l) ++
  take ((i + 1) `mod` length l) (<[i:=x]> l)
  = tail (drop i l ++ take i l) ++ [x].
Proof.
  intros Hi. destruct (lookup_lt_is_Some_2 l i Hi) as [v Hv].
  rewrite (drop_S l v i Hv). simpl.
  destruct (decide (i + 1 < length l)%nat) as [Hmid|Hlast].
  - rewrite Nat.mod_small by done. replace (i + 1)%nat with (S i) by lia.
    rewrite drop_insert_lt by lia.
    rewrite (take_S_r _ _ x) by (by apply list_lookup_insert_eq).
    rewrite take_insert_ge by lia. by rewrite <- app_assoc.
  - replace (i + 1)%nat with (length l) by lia.
    rewrite Nat.Div0.mod_same. simpl. rewrite app_nil_r.
    rewrite (drop_ge l (S i)) by lia. simpl.
    rewrite <- (take_ge (<[i:=x]> l) (S i)) by (rewrite length_insert; lia).
    rewrite (take_S_r _ _ x) by (by apply list_lookup_insert_eq).
    by rewrite take_insert_ge by lia.
Qed.

Lemma claim_entry_fix client_ip e :
  entry_wf e → ip e = client_ip → strncpy 45 client_ip = client_ip →
  claim_entry client_ip e = e.
Proof.
  intros [Hlen Hcnt Hidx Hfill] Hip Hfit.
  destruct (Z.eq_dec (count e) 0) as [H0|Hn0]; [|by apply claim_entry_keep].
  rewrite claim_entry_reset by auto. rewrite Hfit.
  destruct e as [i ts idx cnt]. simpl in *. subst.
  f_equal. symmetry. by apply Hfill.
Qed.

Lemma ring_view_length e :
  entry_wf e → Z.of_nat (length (ring_view e)) = count e.
Proof.
  intros Hwf. rewrite <- (ring_view_perm e Hwf). by apply recorded_length.
Qed.

Lemma count_recent_view e cutoff :
  entry_wf e →
  count_recent (timestamps e) (count e) cutoff =
  Z.of_nat (length (filter (λ t, cutoff ≤ t) (ring_view e))).
Proof.
  intros Hwf. rewrite count_recent_filter. fold (recorded e).
  by rewrite (ring_view_perm e Hwf).
Qed.

(** An allowed check appends its time to the ring; a full ring drops
    its oldest time for it, and that one is past the window. *)
Lemma locked_allowed_view now client_ip e :
  let e0 := claim_entry client_ip e in
  entry_wf e0 → rate_limit_max config ≤ 1000 →
  StronglySorted Z.le (ring_view e0) →
  count_recent (timestamps e0) (count e0) (now - rate_limit_interval config)
    < rate_limit_max config →
  ∃ e1 dropped kept,
    check_rate_limit_locked config now client_ip e = (0, e1) ∧
    entry_wf e1 ∧ ip e1 = ip e0 ∧
    ring_view e0 = dropped ++ kept ∧
    ring_view e1 = kept ++ [now] ∧
    Forall (λ t, t < now - rate_limit_interval config) dropped.
Proof.
  intros e0 Hwf Hmax Hsorted Hvalid.
  destruct (locked_allowed config now client_ip e Hwf Hvalid)
    as (e1 & Hrun & Hwf1 & Hip & Hcount & Hgrow & Hfull & Hidx).
  fold e0 in Hip, Hcount, Hgrow, Hfull, Hidx.
  pose proof Hwf as [Hlen Hcnt Hidx0 Hfill].
  pose proof Hwf1 as [Hlen1 Hcnt1 Hidx1 Hfill1].
  destruct (Z.eq_dec (count e0) 1000) as [H1000|Hless].
  - assert (timestamps e1 = <[Z.to_nat (current_index e0) := now]> (timestamps e0))
      as Hts.
    { specialize (Hfull H1000). unfold recorded in Hfull.
      rewrite !take_ge in Hfull by lia. done. }
    assert (ring_view e0 =
            drop (Z.to_nat (current_index e0)) (timestamps e0) ++
            take (Z.to_nat (current_index e0)) (timestamps e0)) as Hview0.
    { unfold ring_view. destruct (Z.ltb_spec (count e0) 1000); [lia|done]. }
    assert (ring_view e1 = tail (ring_view e0) ++ [now]) as Hview1.
    { unfold ring_view at 1. destruct (Z.ltb_spec (count e1) 1000); [lia|].
      rewrite Hview0, Hidx, Hts.
      rewrite <- (ring_advance (timestamps e0) (Z.to_nat (current_index e0)) now)
        by lia.
      rewrite Hlen. rewrite c_rem_mod by lia.
      replace (Z.to_nat ((current_index e0 + 1) `mod` 1000))
        with ((Z.to_nat (current_index e0) + 1) `mod` 1000)%nat; [done|].
      apply Nat2Z.inj. rewrite Nat2Z.inj_mod, Z2Nat.id by (apply Z.mod_pos; lia).
      f_equal. lia. }
    destruct (ring_view e0) as [|x rest] eqn:Hview.
    { pose proof (ring_view_length e0 Hwf) as Hl. rewrite Hview in Hl.
      simpl in Hl. lia. }
    exists e1, [x], rest.
    split; [done|]. split; [done|]. split; [done|]. split; [done|].
    split; [exact Hview1|].
    apply Forall_singleton.
    destruct (Z.lt_ge_cases x (now - rate_limit_interval config)) as [|Hx];
      [simpl; lia|].
    exfalso. rewrite count_recent_view, Hview in Hvalid by done.
    apply StronglySorted_inv in Hsorted as [_ Hrest].
    rewrite filter_all in Hvalid.
    + pose proof (ring_view_length e0 Hwf) as Hl. rewrite Hview in Hl. lia.
    + constructor; [done|]. eapply Forall_impl; [exact Hrest|].
      simpl. intros. lia.
  - assert (ring_view e0 = recorded e0) as Hview0.
    { unfold ring_view. destruct (Z.ltb_spec (count e0) 1000); [done|lia]. }
    assert (ring_view e1 = recorded e1) as Hview1.
    { unfold ring_view. destruct (Z.ltb_spec (count e1) 1000); [done|].
      assert (current_index e1 = 0) as ->.
      { rewrite Hidx, Hfill by lia. unfold c_rem.
        replace (count e0 + 1) with 1000 by lia. done. }
      simpl. rewrite app_nil_r. unfold recorded. by rewrite take_ge by lia. }
    exists e1, [], (recorded e0). rewrite Hview0, Hview1, Hgrow by lia.
    split; [done|]. split; [done|]. split; [done|]. split; [done|].
    split; [done|]. constructor.
Qed.

Lemma window_inv_later client_ip c c' hist e :
  c ≤ c' → window_inv config client_ip c hist e →
  window_inv config client_ip c' hist e.
Proof.
  intros Hle [Hwf Hip (old & Hhist & Hold) Hsorted Hpast Hok].
  split; try done.
  - exists old. split; [done|]. eapply Forall_impl; [exact Hold|]. simpl. lia.
  - eapply Forall_impl; [exact Hpast|]. simpl. lia.
Qed.

Lemma window_ok_snoc hist now :
  window_ok config hist →
  Z.of_nat (length (filter (λ t, now - rate_limit_interval config ≤ t) hist))
    < rate_limit_max config →
  window_ok config (hist ++ [now]).
Proof.
  intros Hok Hvalid a. rewrite filter_app, length_app.
  rewrite filter_cons, filter_nil.
  case_decide as Hin; simpl; [|specialize (Hok a); lia].
  pose proof (filter_length_mono
    (λ t, a ≤ t ≤ a + rate_limit_interval config)
    (λ t, now - rate_limit_interval config ≤ t) hist) as Hmono.
  assert (∀ x, a ≤ x ≤ a + rate_limit_interval config →
               now - rate_limit_interval config ≤ x) as Himp by (intros; lia).
  specialize (Hmono Himp). lia.
Qed.

(** One check of the address that owns the entry keeps the window
    bound, and adds its time to the allowed ones when it is allowed. *)
Lemma window_step client_ip c now hist e :
  strncpy 45 client_ip = client_ip →
  rate_limit_max config ≤ 1000 → c ≤ now →
  window_inv config client_ip c hist (claim_entry client_ip e) →
  window_inv config client_ip now
    (if (check_rate_limit_locked config now client_ip e).1 =? 0
     then hist ++ [now] else hist)
    (claim_entry client_ip (check_rate_limit_locked config now client_ip e).2).
Proof.
  intros Hfit Hmax Hle Hinv.
  pose proof Hinv as [Hwf Hip (old & Hhist & Hold) Hsorted Hpast Hok].
  set (cutoff := now - rate_limit_interval config).
  destruct (Z.le_gt_cases (rate_limit_max config)
    (count_recent (timestamps (claim_entry client_ip e))
       (count (claim_entry client_ip e)) cutoff)) as [Hfull|Hroom].
  - rewrite (locked_limited config now client_ip e Hfull). simpl.
    rewrite claim_entry_fix by done. by apply (window_inv_later client_ip c).
  - destruct (locked_allowed_view now client_ip e Hwf Hmax Hsorted Hroom)
      as (e1 & dropped & kept & -> & Hwf1 & Hip1 & Hview0 & Hview1 & Hdropped).
    simpl. rewrite claim_entry_fix by congruence.
    rewrite Hview0 in Hsorted, Hpast, Hhist.
    split; [done|congruence| | | |].
    + exists (old ++ dropped). split.
      * rewrite Hview1, Hhist. by rewrite !app_assoc.
      * apply Forall_app. split; [|done].
        eapply Forall_impl; [exact Hold|]. simpl. lia.
    + rewrite Hview1. apply StronglySorted_app_2.
      * intros x1 x2 Hx1 Hx2. apply list_elem_of_singleton in Hx2 as ->.
        apply Forall_app in Hpast as [_ Hkept].
        rewrite Forall_forall in Hkept. specialize (Hkept x1 Hx1). simpl in Hkept. lia.
      * by apply StronglySorted_app_1_r in Hsorted.
      * repeat constructor.
    + rewrite Hview1. apply Forall_app. split; [|by apply Forall_singleton].
      apply Forall_app in Hpast as [_ Hkept].
      eapply Forall_impl; [exact Hkept|]. simpl. lia.
    + apply window_ok_snoc; [done|].
      rewrite count_recent_view in Hroom by done. fold cutoff.
      rewrite Hhist, filter_app, length_app.
      rewrite (filter_none _ old).
      * rewrite <- Hview0. simpl. fold cutoff in Hroom. lia.
      * eapply Forall_impl; [exact Hold|]. simpl. unfold cutoff. lia.
Qed.

Lemma window_run client_ip times : ∀ c hist st,
  enable_rate_limit config ≠ 0 →
  strncpy 45 client_ip = client_ip →
  rate_limit_max config ≤ 1000 →
  state_wf st →
  StronglySorted Z.le times → Forall (λ t, c ≤ t) times →
  window_inv config client_ip c hist
    (claim_entry client_ip (slot_of st client_ip)) →
  window_ok config
    (hist ++ allowed_at times (check_rate_limit_seq config client_ip times st).1).
Proof.
  induction times as [|now later IH]; intros c hist st Hon Hfit Hmax Hwf Hsorted Hc Hinv.
  - simpl. rewrite app_nil_r. by destruct Hinv.
  - apply StronglySorted_inv in Hsorted as [Hsorted Hnow].
    apply Forall_cons in Hc as [Hcnow _].
    destruct (check_rate_limit_slot config now client_ip st Hon Hwf)
      as (st' & Hcheck & Hslot & Hwf' & _).
    pose proof (window_step client_ip c now hist (slot_of st client_ip)
                  Hfit Hmax Hcnow Hinv) as Hstep.
    rewrite <- Hslot in Hstep.
    specialize (IH now _ st' Hon Hfit Hmax Hwf' Hsorted Hnow Hstep).
    simpl. rewrite Hcheck.
    destruct (check_rate_limit_seq config client_ip later st') as [rs st''].
    simpl in IH |- *.
    destruct ((check_rate_limit_locked config now client_ip
                 (slot_of st client_ip)).1 =? 0); [|done].
    by rewrite <- app_assoc in IH.
Qed.

(** X9.  The limiter never lets more than the maximum through in a
    window.  With rate limiting enabled and a maximum between 0 and
    1000, take an address of at most 45 characters whose slot does not
    hold it yet (the slot is unused or holds another address), and check
    it at clock readings that do not go backwards, with no check of
    another address in between.  Then in every interval
    [a, a + rate_limit_interval] the number of checks that were allowed
    is at most [rate_limit_max]. *)
Theorem rate_limit_never_exceeds st client_ip times a :
  enable_rate_limit config ≠ 0 → 0 ≤ rate_limit_max config ≤ 1000 →
  (String.length client_ip ≤ 45)%nat →
  limiter_reachable config st →
  count (slot_of st client_ip) = 0 ∨ ip (slot_of st client_ip) ≠ client_ip →
  Sorted Z.le times →
  Z.of_nat (length (filter (λ t, a ≤ t ≤ a + rate_limit_interval config)
    (allowed_at times (check_rate_limit_seq config client_ip times st).1)))
  ≤ rate_limit_max config.
Proof.
  intros Hon Hmax Hlen Hreach Hfresh Hsorted.
  assert (strncpy 45 client_ip = client_ip) as Hfit by by apply substring_all.
  apply Sorted_StronglySorted in Hsorted; [|intros x y z; apply Z.le_trans].
  pose proof (limiter_reachable_wf config st Hreach) as Hwf.
  destruct times as [|now later]; [simpl; lia|].
  pose proof Hsorted as [_ Hnow]%StronglySorted_inv.
  apply (window_run client_ip (now :: later) now [] st); try done; try lia.
  - by constructor.
  - pose proof (claim_entry_wf client_ip _ (slot_of_wf st client_ip Hwf)) as Hwf0.
    rewrite claim_entry_reset in Hwf0 |- * by done.
    split; [done|done|by exists []|constructor|constructor|].
    intros b. simpl. lia.
Qed.

End limiter_facts_more.

Section http_facts_more.
Import Server.

Ltac status_facts :=
  cbn; split; [by repeat constructor|];
  split; [done|]; split; [done|]; split; [done|]; done.

Lemma handle_http_request_file_status env req file_path st :
  let r := handle_http_request_file env req (blank_response req) file_path st in
  status_code r ∈ [200; 301; 304; 404; 405; 500] ∧
  status_text r = Some (get_status_text (status_code r)) ∧
  is_Some (content_type r) ∧
  response_keep_alive r = keep_alive req ∧
  (status_code r ≠ 200 → status_code r ≠ 304 → content_type r = Some MIME_TEXT).
Proof.
  intros r. subst r. rewrite handle_http_request_file_cases. cbv zeta.
  destruct (negb _ && bool_decide _); [status_facts|].
  destruct (read_file_content env file_path) as [content|]; [|status_facts].
  destruct (strcmp_eq (method req) HTTP_METHOD_HEAD); status_facts.
Qed.

(** X10.  Whatever the request and the file system, the response
    [handle_http_request] builds for [handle_client] has one of the
    status codes 200, 301, 304, 404, 405 and 500, carries the status
    text that belongs to its code and a content type, and repeats the
    keep-alive flag of the request; every response other than a 200 or
    a 304 is of type text/plain. *)
Theorem handler_status_lines config env req resp :
  handle_http_request config env req (blank_response req) = Some resp →
  status_code resp ∈ [200; 301; 304; 404; 405; 500] ∧
  status_text resp = Some (get_status_text (status_code resp)) ∧
  is_Some (content_type resp) ∧
  response_keep_alive resp = keep_alive req ∧
  (status_code resp ≠ 200 → status_code resp ≠ 304 →
   content_type resp = Some MIME_TEXT).
Proof.
  unfold handle_http_request.
  destruct (negb _ && negb _); [intros [= <-]; status_facts|].
  destruct (fs_stat env _) as [st|]; [|intros [= <-]; status_facts].
  destruct (st_is_dir st).
  - destruct (last_char (path req)) as [c|]; [|done].
    destruct (negb (Ascii.eqb c "/")); [intros [= <-]; status_facts|].
    destruct (fs_stat env _) as [st'|]; [|intros [= <-]; status_facts].
    intros [= <-]. apply handle_http_request_file_status.
  - intros [= <-]. apply handle_http_request_file_status.
Qed.

(** A response that is not a 200 is sent as it is, and marked as not
    to be stored. *)
Lemma send_http_response_not_ok config env now resp :
  status_code resp ≠ 200 →
  send_http_response config env now resp =
    format_response_header (status_code resp) (status_text resp)
      (format_gmt env now) (content_type resp) (content_length resp)
      ("Cache-Control: no-store" +:+ CRLF) EmptyString
      (connection_header (response_keep_alive resp))
    :: match body resp with
       | Some bytes =>
           if 0 <? content_length resp
           then [String.substring 0 (Z.to_nat (content_length resp)) bytes]
           else []
       | None => []
       end.
Proof.
  intros Hcode. unfold send_http_response.
  assert (response_compression config env resp = None) as ->.
  { destruct (response_compression config env resp) as [z|] eqn:Hz; [|done].
    apply response_compression_spec in Hz as (? & ? & _ & _ & _ & _ & ? & _).
    done. }
  assert (response_cache_headers now resp = "Cache-Control: no-store" +:+ CRLF) as ->.
  { unfold response_cache_headers, HTTP_OK.
    destruct (Z.eqb_spec (status_code resp) 200); [done|].
    by vm_compute. }
  done.
Qed.

(** *** Content types *)

Lemma strrchr_extension (dir ext : string) :
  strrchr ext "." = None →
  strrchr (dir +:+ "." +:+ ext) "." = Some ("." +:+ ext).
Proof.
  intros Hext. induction dir as [|c dir IH].
  - rewrite append_nil. change ("." +:+ ext) with (String "."%char ext).
    simpl. by rewrite Hext.
  - rewrite append_cons. simpl. by rewrite IH.
Qed.

(** X12.  The content type depends on nothing but the text after the
    last dot of the path, compared without regard to case: two paths
    whose extensions differ only in case get the same type, whatever
    precedes the dot. *)
Theorem mime_type_by_extension dir1 dir2 ext1 ext2 :
  strrchr ext1 "." = None → strrchr ext2 "." = None →
  string_tolower ext1 = string_tolower ext2 →
  get_mime_type (dir1 +:+ "." +:+ ext1) = get_mime_type (dir2 +:+ "." +:+ ext2).
Proof.
  intros H1 H2 Hlow. unfold get_mime_type.
  rewrite !strrchr_extension by done.
  change ("." +:+ ext1) with (String "."%char ext1).
  change ("." +:+ ext2) with (String "."%char ext2).
  cbn [String.length String.substring].
  rewrite !substring_all by lia.
  unfold strcasecmp_eq. by rewrite Hlow.
Qed.

(** *** Entity tags *)

Lemma append_assoc (a b c : string) : (a +:+ b) +:+ c = a +:+ (b +:+ c).
Proof.
  induction a as [|x a IH]; [by rewrite !append_nil|].
  by rewrite !append_cons, IH.
Qed.

Lemma hex_string_app (a b : string) :
  hex_string (a +:+ b) = hex_string a && hex_string b.
Proof.
  induction a as [|x a IH]; [by rewrite append_nil|].
  rewrite append_cons. simpl. by destruct (HexString.ascii_to_digit x).
Qed.

Lemma lacks_app (c : ascii) (a b : string) :
  lacks c (a +:+ b) = lacks c a && lacks c b.
Proof.
  induction a as [|x a IH]; [by rewrite append_nil|].
  rewrite append_cons. simpl. rewrite IH. by rewrite andb_assoc.
Qed.

Lemma lacks_occurrence (c : ascii) (a b : string) :
  lacks c (a +:+ String c b) = false.
Proof.
  rewrite lacks_app. simpl. rewrite Ascii.eqb_refl. simpl. apply andb_false_r.
Qed.

Lemma hex_string_lacks (c : ascii) (s : string) :
  HexString.ascii_to_digit c = None → hex_string s = true → lacks c s = true.
Proof.
  intros Hc. induction s as [|x s IH]; [done|]. simpl.
  destruct (HexString.ascii_to_digit x) eqn:Hx; [|done]. intros Hs.
  rewrite IH by done. destruct (Ascii.eqb_spec x c) as [->|]; [congruence|done].
Qed.

Lemma hex_of_pos_app (k : nat) :
  ∀ (p : positive) (rest : string),
    Z.pos p < 16 ^ Z.of_nat k →
    HexString.Raw.of_pos p rest = HexString.Raw.of_pos p EmptyString +:+ rest.
Proof.
  induction k as [|k IH]; intros p rest Hp; [simpl in Hp; lia|].
  rewrite Nat2Z.inj_succ, Z.pow_succ_r in Hp by lia.
  destruct p as [[[[q|q|]|[q|q|]|]|[[q|q|]|[q|q|]|]|]
                |[[[q|q|]|[q|q|]|]|[[q|q|]|[q|q|]|]|]|];
    simpl; try done;
    (rewrite (IH q (String _ rest)), (IH q (String _ EmptyString)) by lia;
     by rewrite append_assoc).
Qed.

Lemma hex_of_pos_digits (k : nat) :
  ∀ p : positive,
    Z.pos p < 16 ^ Z.of_nat k →
    hex_string (HexString.Raw.of_pos p EmptyString) = true.
Proof.
  induction k as [|k IH]; intros p Hp; [simpl in Hp; lia|].
  rewrite Nat2Z.inj_succ, Z.pow_succ_r in Hp by lia.
  destruct p as [[[[q|q|]|[q|q|]|]|[[q|q|]|[q|q|]|]|]
                |[[[q|q|]|[q|q|]|]|[[q|q|]|[q|q|]|]|]|];
    simpl; try done;
    (rewrite (hex_of_pos_app k q (String _ EmptyString)) by lia;
     rewrite hex_string_app, IH by lia; done).
Qed.

Lemma printf_lx_digits (v : Z) : hex_string (printf_lx v) = true.
Proof.
  unfold printf_lx. pose proof (Z.mod_pos_bound v (2 ^ 64) eq_refl) as Hv.
  destruct (v mod 2 ^ 64) as [|p|p]; try done.
  apply (hex_of_pos_digits 16). change (16 ^ Z.of_nat 16) with (2 ^ 64). lia.
Qed.

Lemma printf_lx_value (v : Z) :
  HexString.Raw.to_N (printf_lx v) 0%N = Z.to_N (v mod 2 ^ 64).
Proof.
  unfold printf_lx. destruct (v mod 2 ^ 64) as [|p|p]; try done.
  by rewrite HexString.Raw.to_N_of_pos.
Qed.

Lemma printf_lx_inj (v w : Z) :
  printf_lx v = printf_lx w ↔ v mod 2 ^ 64 = w mod 2 ^ 64.
Proof.
  split.
  - intros Heq. pose proof (printf_lx_value v) as Hv.
    rewrite Heq, printf_lx_value in Hv.
    pose proof (Z.mod_pos_bound v (2 ^ 64) eq_refl).
    pose proof (Z.mod_pos_bound w (2 ^ 64) eq_refl). lia.
  - intros Heq. unfold printf_lx. by rewrite Heq.
Qed.

(** Two texts that start with digits and continue with a character
    that is no digit agree on the digits. *)
Lemma hex_string_split (a a' : string) (c c' : ascii) (r r' : string) :
  hex_string a = true → hex_string a' = true →
  HexString.ascii_to_digit c = None → HexString.ascii_to_digit c' = None →
  a +:+ String c r = a' +:+ String c' r' → a = a' ∧ r = r'.
Proof.
  intros Ha Ha' Hc Hc'. revert a' Ha'.
  induction a as [|x a IH]; intros [|x' a'] Ha'.
  - rewrite !append_nil. by intros [= _ ->].
  - rewrite append_nil, append_cons. intros [= -> _]. simpl in Ha'.
    by rewrite Hc in Ha'.
  - rewrite append_nil, append_cons. intros [= -> _]. simpl in Ha.
    by rewrite Hc' in Ha.
  - rewrite !append_cons. intros [= -> Hrest]. simpl in Ha, Ha'.
    destruct (HexString.ascii_to_digit x'); [|done].
    destruct (IH Ha a' Ha' Hrest) as [-> ->]. done.
Qed.

Lemma sent_etag_validator (st : file_stat) :
  file_etag st = sent_etag (st_size st) (st_mtime st).
Proof. apply file_etag_format. Qed.

Lemma append_nil_r (a : string) : a +:+ EmptyString = a.
Proof. induction a as [|x a IH]; [done|]. by rewrite append_cons, IH. Qed.

Ltac string_normal :=
  repeat (rewrite append_cons || rewrite append_nil || rewrite append_assoc).

Ltac string_normal_in H :=
  repeat (rewrite append_cons in H || rewrite append_nil in H ||
          rewrite append_assoc in H).

Lemma sent_etag_contains (len now len' now' : Z) :
  is_Some (strstr (sent_etag len now) (sent_etag len' now')) ↔
  len mod 2 ^ 64 = len' mod 2 ^ 64 ∧ now mod 2 ^ 64 = now' mod 2 ^ 64.
Proof.
  rewrite strstr_spec. split.
  - intros (before & after & Heq). unfold sent_etag, DQUOTE in Heq.
    pose proof (printf_lx_digits len) as Hl. pose proof (printf_lx_digits now) as Hn.
    pose proof (printf_lx_digits len') as Hl'. pose proof (printf_lx_digits now') as Hn'.
    destruct before as [|b before]; string_normal_in Heq.
    + injection Heq as Heq.
      apply hex_string_split in Heq as [Hlen Heq]; [|done..].
      apply hex_string_split in Heq as [Hnow _]; [|done..].
      by rewrite <- !printf_lx_inj.
    + injection Heq as _ Heq. apply (f_equal (lacks "W")) in Heq.
      rewrite lacks_occurrence in Heq. simpl in Heq.
      rewrite lacks_app in Heq. simpl in Heq. rewrite lacks_app in Heq.
      rewrite !(hex_string_lacks "W") in Heq by done. done.
  - intros [Hlen Hnow]. exists EmptyString, EmptyString.
    rewrite append_nil, append_nil_r. unfold sent_etag.
    apply printf_lx_inj in Hlen, Hnow. by rewrite Hlen, Hnow.
Qed.

Lemma response_cache_headers_ok now resp ct :
  status_code resp = 200 → content_type resp = Some ct →
  ∃ age, age ∈ ["3600"; "604800"; "2592000"; "86400"] ∧
    response_cache_headers now resp =
      "Cache-Control: public, max-age=" +:+ age +:+ CRLF +:+
      "ETag: " +:+ sent_etag (content_length resp) now +:+ CRLF.
Proof.
  intros Hcode Hct. unfold response_cache_headers. rewrite Hcode, Hct.
  cbn [Z.eqb HTTP_OK Pos.eqb]. 
  change (snprintf 64 _) with
    (file_etag (FileStat false (content_length resp) now)).
  rewrite sent_etag_validator. cbn [st_size st_mtime].
  assert (∀ age, (String.length age ≤ 7)%nat →
    snprintf 1024 ("Cache-Control: public, max-age=" +:+ age +:+ CRLF +:+
                   "ETag: " +:+ sent_etag (content_length resp) now +:+ CRLF)
    = "Cache-Control: public, max-age=" +:+ age +:+ CRLF +:+
      "ETag: " +:+ sent_etag (content_length resp) now +:+ CRLF) as Hfit.
  { intros age Hage. unfold snprintf. apply substring_all.
    unfold sent_etag. rewrite !length_append.
    pose proof (printf_lx_length (content_length resp)).
    pose proof (printf_lx_length now). simpl. lia. }
  destruct (strncmp_eq ct "text/html").
  { exists "3600". split; [by repeat constructor|]. apply Hfit. simpl. lia. }
  destruct (strncmp_eq ct "text/css" || strncmp_eq ct "application/javascript").
  { exists "604800". split; [by repeat constructor|]. apply Hfit. simpl. lia. }
  destruct (strncmp_eq ct "image/").
  { exists "2592000". split; [by repeat constructor|]. apply Hfit. simpl. lia. }
  exists "86400". split; [by repeat constructor|]. apply Hfit. simpl. lia.
Qed.

(** X13.  The entity tag a 200 response carries is not the validator
    the server compares against.  The tag sent is made of the content
    length and of the clock at the time of sending
    ([W/"<length-hex>-<now-hex>"], never cut by its buffer); the
    validator [handle_http_request] looks for in If-None-Match is made
    of the file size and the modification time.  So a client that
    returns the tag it was sent gets a 304 only if the response was sent
    in the very second the file was modified (and has the length of the
    file), both taken modulo 2^64. *)
Theorem etag_round_trip env now resp ct req response file_path st :
  status_code resp = 200 → content_type resp = Some ct →
  (∃ age, response_cache_headers now resp =
      "Cache-Control: public, max-age=" +:+ age +:+ CRLF +:+
      "ETag: " +:+ sent_etag (content_length resp) now +:+ CRLF) ∧
  (if_none_match req = sent_etag (content_length resp) now →
   (status_code (handle_http_request_file env req response file_path st) = 304 ↔
    content_length resp mod 2 ^ 64 = st_size st mod 2 ^ 64 ∧
    now mod 2 ^ 64 = st_mtime st mod 2 ^ 64)).
Proof.
  intros Hcode Hct. split.
  { destruct (response_cache_headers_ok now resp ct Hcode Hct) as (age & _ & ->).
    by exists age. }
  intros Hinm. rewrite <- sent_etag_contains, <- sent_etag_validator, <- Hinm.
  rewrite handle_http_request_file_cases. cbv zeta.
  destruct (String.eqb_spec (if_none_match req) EmptyString) as [Hempty|_].
  { exfalso. rewrite Hinm in Hempty. unfold sent_etag in Hempty.
    by rewrite append_cons in Hempty. }
  cbn [negb andb].
  destruct (bool_decide (is_Some (strstr (if_none_match req) (file_etag st))))
    eqn:Hmatch.
  - apply bool_decide_eq_true in Hmatch. done.
  - apply bool_decide_eq_false in Hmatch.
    destruct (read_file_content env file_path) as [content|].
    + by destruct (strcmp_eq (method req) HTTP_METHOD_HEAD).
    + done.
Qed.

End http_facts_more.

Section parser_facts.
Import Server.

Ltac string_normal :=
  repeat (rewrite append_cons || rewrite append_nil || rewrite append_assoc).

Lemma string_forall_app test (a b : string) :
  string_forall test (a +:+ b) = string_forall test a && string_forall test b.
Proof.
  induction a as [|x a IH]; [by rewrite append_nil|].
  rewrite append_cons. simpl. by rewrite IH, andb_assoc.
Qed.

Lemma string_forall_impl (test test' : ascii → bool) (s : string) :
  (∀ c, test c = true → test' c = true) →
  string_forall test s = true → string_forall test' s = true.
Proof.
  intros Himp. induction s as [|x s IH]; [done|]. simpl.
  intros [Hx Hs]%andb_true_iff. by rewrite (Himp x Hx), IH.
Qed.

Lemma c_string_app (a b : string) :
  string_forall (λ c, negb (Ascii.eqb c Ascii.zero)) a = true →
  c_string (a +:+ b) = a +:+ c_string b.
Proof.
  induction a as [|x a IH]; [by rewrite !append_nil|].
  rewrite !append_cons. simpl. intros [Hx Ha]%andb_true_iff.
  destruct (Ascii.eqb x zero); [done|]. by rewrite IH.
Qed.

Lemma strtok_tokens_run (delim run s token : string) :
  string_forall (λ c, negb (strchr_in delim c)) run = true →
  strtok_tokens delim (run +:+ s) token = strtok_tokens delim s (token +:+ run).
Proof.
  revert token. induction run as [|x run IH]; intros token.
  - by rewrite append_nil, append_nil_r.
  - rewrite append_cons. simpl. intros [Hx Hrun]%andb_true_iff.
    destruct (strchr_in delim x); [done|].
    rewrite IH by done. by rewrite append_assoc, append_cons, append_nil.
Qed.

Lemma isspace_CRLF (c : ascii) : strchr_in CRLF c = true → isspace c = true.
Proof.
  unfold CRLF, CR, LF. simpl. rewrite orb_false_r.
  intros [H|H]%orb_true_iff; apply Ascii.eqb_eq in H; by subst.
Qed.

Lemma scan_word_word (width : nat) (word rest : string) :
  string_forall (λ c, negb (isspace c)) word = true →
  (String.length word ≤ width)%nat →
  match rest with
  | EmptyString => True
  | String c _ => isspace c = true
  end →
  scan_word width (word +:+ rest) = (word, rest).
Proof.
  revert width. induction word as [|x word IH]; intros width Hword Hlen Hrest.
  - rewrite append_nil. destruct width, rest as [|c rest]; try done.
    simpl. by rewrite Hrest.
  - rewrite append_cons. simpl in Hword, Hlen.
    apply andb_true_iff in Hword as [Hx Hword].
    destruct width as [|width]; [lia|]. simpl.
    destruct (isspace x); [done|]. rewrite IH by (done || lia). done.
Qed.

Lemma scanf_s_word (width : nat) (word rest : string) :
  is_word word = true → (String.length word ≤ width)%nat →
  match rest with
  | EmptyString => True
  | String c _ => isspace c = true
  end →
  scanf_s width (word +:+ rest) = Some (word, rest) ∧
  scanf_s width (" " +:+ word +:+ rest) = Some (word, rest).
Proof.
  intros [Hne Hword]%andb_true_iff Hlen Hrest.
  assert (string_forall (λ c, negb (isspace c)) word = true) as Hns.
  { revert Hword. apply string_forall_impl. by intros c [? _]%andb_true_iff. }
  assert (skip_spaces (word +:+ rest) = word +:+ rest) as Hskip.
  { destruct word as [|x word]; [done|]. rewrite append_cons. simpl.
    simpl in Hns. apply andb_true_iff in Hns as [Hx _].
    by destruct (isspace x). }
  assert (scanf_s width (word +:+ rest) = Some (word, rest)) as Hscan.
  { unfold scanf_s. rewrite Hskip.
    destruct word as [|x word]; [done|]. rewrite append_cons.
    rewrite <- append_cons. by rewrite scan_word_word. }
  split; [done|].
  unfold scanf_s in *. rewrite append_cons, append_nil. simpl. done.
Qed.

Lemma parse_header_line_keeps line r :
  method (core (parse_header_line line r)) = method (core r) ∧
  path (core (parse_header_line line r)) = path (core r) ∧
  version (parse_header_line line r) = version r ∧
  request_body (parse_header_line line r) = request_body r ∧
  request_client_ip (parse_header_line line r) = request_client_ip r.
Proof.
  unfold parse_header_line.
  repeat (case_match; try done).
Qed.

Lemma parse_header_lines_keeps lines r :
  method (core (parse_header_lines lines r)) = method (core r) ∧
  path (core (parse_header_lines lines r)) = path (core r) ∧
  version (parse_header_lines lines r) = version r ∧
  request_body (parse_header_lines lines r) = request_body r ∧
  request_client_ip (parse_header_lines lines r) = request_client_ip r.
Proof.
  revert r. induction lines as [|line lines IH]; intros r; [done|].
  simpl. case_match; [|done].
  destruct (IH (parse_header_line line r)) as (-> & -> & -> & -> & ->).
  apply parse_header_line_keeps.
Qed.

Lemma find_request_body_keeps buffer r :
  core (find_request_body buffer r) = core r ∧
  version (find_request_body buffer r) = version r.
Proof. unfold find_request_body. by repeat case_match. Qed.

(** The call on a buffer whose first line is [line]. *)
Lemma parse_http_request_lines bytes peer r line lines :
  bytes ≠ EmptyString →
  strtok_tokens CRLF (c_string bytes) EmptyString = line :: lines →
  parse_http_request (RecvBytes bytes) peer r =
    (1, find_request_body (c_string bytes)
          (parse_header_lines lines
             (clear_header_fields
                (sscanf_request_line line (set_client_ip (strncpy 49 peer) r))))).
Proof.
  intros Hne Htok. unfold parse_http_request. rewrite Htok.
  destruct bytes as [|c bytes]; [done|].
  by destruct (Z.leb_spec (Z.of_nat (String.length (String c bytes))) 0);
    [simpl in *; lia|].
Qed.

(** X14.  A request line of three words comes out of the parser as it
    went in.  When the data received starts with a method of at most 15
    characters, a path of at most 2047 and a version of at most 15, each
    free of white space and NUL, separated by single spaces and followed
    by CR LF, [parse_http_request] returns 1 with exactly these three
    texts in [method], [path] and [version], whatever follows. *)
Theorem parse_request_line_round_trip m p v tail peer r :
  is_word m = true → is_word p = true → is_word v = true →
  (String.length m ≤ 15)%nat → (String.length p ≤ 2047)%nat →
  (String.length v ≤ 15)%nat →
  let parsed :=
    parse_http_request
      (RecvBytes (m +:+ " " +:+ p +:+ " " +:+ v +:+ CRLF +:+ tail)) peer r in
  parsed.1 = 1 ∧
  method (core parsed.2) = m ∧ path (core parsed.2) = p ∧
  version parsed.2 = v.
Proof.
  intros Hm Hp Hv Hlm Hlp Hlv parsed. subst parsed.
  set (line := m +:+ " " +:+ p +:+ " " +:+ v).
  assert (∀ w, is_word w = true →
    string_forall (λ c, negb (Ascii.eqb c zero)) w = true ∧
    string_forall (λ c, negb (strchr_in CRLF c)) w = true) as Hword.
  { intros w [_ Hw]%andb_true_iff. split; revert Hw; apply string_forall_impl.
    - by intros c [_ ?]%andb_true_iff.
    - intros c [Hc _]%andb_true_iff. destruct (strchr_in CRLF c) eqn:Hd; [|done].
      by rewrite (isspace_CRLF c Hd) in Hc. }
  destruct (Hword m Hm) as [Hm0 Hmd], (Hword p Hp) as [Hp0 Hpd],
    (Hword v Hv) as [Hv0 Hvd].
  assert (string_forall (λ c, negb (Ascii.eqb c zero)) line = true) as Hline0.
  { unfold line. rewrite !string_forall_app, Hm0, Hp0, Hv0. done. }
  assert (string_forall (λ c, negb (strchr_in CRLF c)) line = true) as Hlined.
  { unfold line. rewrite !string_forall_app, Hmd, Hpd, Hvd. done. }
  assert (line ≠ EmptyString) as Hline.
  { unfold line. destruct m; [done|]. by rewrite append_cons. }
  assert (m +:+ " " +:+ p +:+ " " +:+ v +:+ CRLF +:+ tail = line +:+ CRLF +:+ tail)
    as ->.
  { unfold line. by rewrite !append_assoc. }
  assert (∃ lines, strtok_tokens CRLF (c_string (line +:+ CRLF +:+ tail)) EmptyString
                   = line :: lines) as [lines Htok].
  { rewrite c_string_app by done. rewrite strtok_tokens_run by done.
    rewrite append_nil. unfold CRLF at 2. rewrite append_cons.
    change (c_string (String CR ?x)) with (String CR (c_string x)).
    cbn [strtok_tokens]. change (strchr_in CRLF CR) with true. cbv iota.
    destruct line; [done|]. eauto. }
  rewrite (parse_http_request_lines _ peer r line lines); [|by destruct line|done].
  cbn [fst snd]. split; [done|].
  destruct (find_request_body_keeps (c_string (line +:+ CRLF +:+ tail))
    (parse_header_lines lines
       (clear_header_fields
          (sscanf_request_line line (set_client_ip (strncpy 49 peer) r)))))
    as [-> ->].
  destruct (parse_header_lines_keeps lines
    (clear_header_fields
       (sscanf_request_line line (set_client_ip (strncpy 49 peer) r))))
    as (-> & -> & -> & _).
  unfold sscanf_request_line, line.
  destruct (scanf_s_word 15 m (" " +:+ p +:+ " " +:+ v) Hm Hlm) as [-> _].
  { by rewrite append_cons. }
  destruct (scanf_s_word 2047 p (" " +:+ v) Hp Hlp) as [_ ->].
  { by rewrite append_cons. }
  destruct (scanf_s_word 15 v EmptyString Hv Hlv I) as [_ Hscan].
  rewrite append_nil_r in Hscan. rewrite Hscan. done.
Qed.

(** *** The body, and the blank line before it *)

(** While a token is read, the text at the start of the buffer ends
    where the token ends: it holds no delimiter. *)
Lemma strtok_buffer_token (delim s : string) :
  string_forall (λ c, negb (strchr_in delim c))
    (c_string (strtok_buffer delim s true)) = true.
Proof.
  induction s as [|c s IH]; [done|]. simpl.
  destruct (strchr_in delim c) eqn:Hc; simpl; [done|].
  destruct (Ascii.eqb c zero); [done|]. simpl. by rewrite Hc, IH.
Qed.

Lemma strstr_lacks (haystack needle : string) (c : ascii) (rest : string) :
  needle = String c rest →
  string_forall (λ a, negb (Ascii.eqb a c)) haystack = true →
  strstr haystack needle = None.
Proof.
  intros -> Hlacks. destruct (strstr haystack (String c rest)) eqn:Hfound; [|done].
  assert (is_Some (strstr haystack (String c rest))) as Hsome by by rewrite Hfound.
  apply strstr_spec in Hsome as (before & after & ->).
  rewrite string_forall_app, append_cons in Hlacks. simpl in Hlacks.
  rewrite Ascii.eqb_refl in Hlacks. simpl in Hlacks.
  by rewrite andb_false_r in Hlacks.
Qed.

Lemma find_request_body_token (c : ascii) (s : string) r :
  strchr_in CRLF c = false →
  find_request_body (String c s) r = r.
Proof.
  intros Hc. unfold find_request_body. cbn [strtok_buffer]. rewrite Hc.
  rewrite (strstr_lacks _ (CRLF +:+ CRLF) CR (String LF CRLF)); [done|done|].
  cbn [c_string]. destruct (Ascii.eqb c zero); [done|]. cbn [string_forall].
  apply andb_true_iff. split.
  - destruct (Ascii.eqb_spec c CR) as [->|]; [done|done].
  - generalize (strtok_buffer_token CRLF s). apply string_forall_impl.
    intros a Ha. destruct (Ascii.eqb_spec a CR) as [->|]; [done|done].
Qed.

Lemma sscanf_request_line_keeps line r :
  request_body (sscanf_request_line line r) = request_body r ∧
  request_client_ip (sscanf_request_line line r) = request_client_ip r ∧
  keep_alive (core (sscanf_request_line line r)) = keep_alive (core r).
Proof.
  unfold sscanf_request_line. by repeat case_match.
Qed.

(** X15.  The parser never stores the body of a request.  When the
    data received starts with any byte other than CR or LF,
    [parse_http_request] leaves the [body] field as it was, whatever
    Content-Length says: by the time the blank line is searched for,
    [strtok] has ended the text of the buffer after the first line. *)
Theorem parse_never_stores_body c rest peer r :
  strchr_in CRLF c = false →
  request_body (parse_http_request (RecvBytes (String c rest)) peer r).2
  = request_body r.
Proof.
  intros Hc. unfold parse_http_request.
  destruct (Z.leb_spec (Z.of_nat (String.length (String c rest))) 0);
    [simpl in *; lia|].
  destruct (strtok_tokens CRLF (c_string (String c rest)) EmptyString)
    as [|line lines] eqn:Htok; [done|].
  cbn [snd]. simpl c_string in *.
  destruct (Ascii.eqb c zero); [done|].
  rewrite find_request_body_token by done.
  destruct (parse_header_lines_keeps lines
    (clear_header_fields
       (sscanf_request_line line (set_client_ip (strncpy 49 peer) r))))
    as (_ & _ & _ & -> & _).
  cbn [clear_header_fields request_body set_accept_encoding set_if_none_match
       set_content_length set_keep_alive with_core].
  by destruct (sscanf_request_line_keeps line (set_client_ip (strncpy 49 peer) r))
    as (-> & _).
Qed.




(** X17.  A request line without a path makes the handler read before
    the start of [path].  When the data received is GET or HEAD followed
    by CR LF (and anything more), and the structure comes with an empty
    path as [handle_client] provides it, [parse_http_request] returns 1
    with that method and the path still empty; if the document root is a
    directory, [handle_http_request] then evaluates
    [path[strlen(path) - 1]] on the empty path. *)
Theorem request_without_path_reads_before_path
    config env m tail peer r st :
  m = "GET" ∨ m = "HEAD" →
  path (core r) = EmptyString →
  fs_stat env (snprintf 2560 (doc_root config)) = Some st →
  st_is_dir st = true →
  let parsed := parse_http_request (RecvBytes (m +:+ CRLF +:+ tail)) peer r in
  parsed.1 = 1 ∧
  method (core parsed.2) = m ∧ path (core parsed.2) = EmptyString ∧
  handle_http_request config env (core parsed.2) (blank_response (core parsed.2))
    = None.
Proof.
  intros Hm Hpath Hstat Hdir parsed.
  assert (is_word m = true ∧ (String.length m ≤ 15)%nat) as [Hword Hlen].
  { destruct Hm as [-> | ->]; split; (done || simpl; lia). }
  assert (∃ lines, strtok_tokens CRLF (c_string (m +:+ CRLF +:+ tail)) EmptyString
                   = m :: lines) as [lines Htok].
  { destruct Hm as [-> | ->]; string_normal; unfold CRLF at 2;
      string_normal; cbn; eauto. }
  subst parsed.
  rewrite (parse_http_request_lines _ peer r m lines);
    [|by destruct Hm as [-> | ->]|done].
  cbn [fst snd].
  destruct (find_request_body_keeps (c_string (m +:+ CRLF +:+ tail))
    (parse_header_lines lines
       (clear_header_fields
          (sscanf_request_line m (set_client_ip (strncpy 49 peer) r)))))
    as [Hcore _].
  destruct (parse_header_lines_keeps lines
    (clear_header_fields
       (sscanf_request_line m (set_client_ip (strncpy 49 peer) r))))
    as (Hmethod & Hpath' & _).
  assert (sscanf_request_line m (set_client_ip (strncpy 49 peer) r) =
          set_method m (set_client_ip (strncpy 49 peer) r)) as Hscan.
  { unfold sscanf_request_line.
    destruct (scanf_s_word 15 m EmptyString Hword Hlen I) as [Hs _].
    rewrite append_nil_r in Hs. by rewrite Hs. }
  rewrite Hscan in Hcore, Hmethod, Hpath' |- *. cbn in Hmethod, Hpath'.
  split; [done|]. rewrite Hcore, Hmethod, Hpath', Hpath.
  split; [done|]. split; [done|].
  unfold handle_http_request. rewrite ?Hcore, ?Hmethod, ?Hpath', ?Hpath.
  assert (negb (strcmp_eq m HTTP_METHOD_GET) && negb (strcmp_eq m HTTP_METHOD_HEAD)
          = false) as ->.
  { by destruct Hm as [-> | ->]. }
  change (strcmp_eq EmptyString "/") with false. cbv iota.
  rewrite append_nil_r, Hstat, Hdir. done.
Qed.

(** *** Persistent connections *)










End parser_facts.

Section connection_facts.
Import Server.




End connection_facts.

(** ** What is written on the socket *)

(* ------------------------------------------------------------------ *)
(** ** The text of the response header *)
(* ------------------------------------------------------------------ *)

(** *** Decimal printing *)

Lemma string_of_uint_length (d : Decimal.uint) :
  String.length (NilEmpty.string_of_uint d) = Decimal.nb_digits d.
Proof. induction d; simpl; by rewrite ?IHd. Qed.

Lemma nb_digits_revapp (d d' : Decimal.uint) :
  Decimal.nb_digits (Decimal.revapp d d') =
  (Decimal.nb_digits d + Decimal.nb_digits d')%nat.
Proof.
  revert d'. induction d; intros d'; simpl; try done;
    rewrite IHd; simpl; lia.
Qed.

Lemma nb_digits_double (d : Decimal.uint) :
  (Decimal.nb_digits (Decimal.Little.double d) ≤ S (Decimal.nb_digits d))%nat ∧
  (Decimal.nb_digits (Decimal.Little.succ_double d) ≤ S (Decimal.nb_digits d))%nat.
Proof. induction d as [|d [? ?]|d [? ?]|d [? ?]|d [? ?]|d [? ?]|d [? ?]|d [? ?]|d [? ?]|d [? ?]|d [? ?]]; simpl; lia. Qed.

Lemma nb_digits_to_little_uint (k : nat) :
  ∀ p : positive, Z.pos p < 2 ^ Z.of_nat k →
    (Decimal.nb_digits (Pos.to_little_uint p) ≤ k)%nat.
Proof.
  induction k as [|k IH]; intros p Hp; [simpl in Hp; lia|].
  rewrite Nat2Z.inj_succ, Z.pow_succ_r in Hp by lia.
  destruct p as [q|q|]; simpl.
  - destruct (nb_digits_double (Pos.to_little_uint q)) as [_ Hd].
    specialize (IH q). lia.
  - destruct (nb_digits_double (Pos.to_little_uint q)) as [Hd _].
    specialize (IH q). lia.
  - lia.
Qed.

(** [%zu] prints at most 64 characters (20, in fact). *)
Lemma printf_zu_length (v : Z) : (String.length (printf_zu v) ≤ 64)%nat.
Proof.
  unfold printf_zu. pose proof (Z.mod_pos_bound v (2 ^ 64) eq_refl) as Hv.
  destruct (v mod 2 ^ 64) as [|p|p]; [simpl; lia| |lia].
  simpl Z.to_N. simpl N.to_uint. unfold Pos.to_uint, Decimal.rev.
  assert (Z.pos p < 2 ^ Z.of_nat 64) as Hp64
    by (change (2 ^ Z.of_nat 64) with (2 ^ 64); lia).
  pose proof (nb_digits_to_little_uint 64 p Hp64) as Hp.
  pose proof (nb_digits_revapp (Pos.to_little_uint p) Decimal.Nil) as Hr.
  simpl in Hr. unfold NilZero.string_of_uint.
  destruct (Decimal.revapp (Pos.to_little_uint p) Decimal.Nil) eqn:Hd;
    [simpl; lia|..];
    rewrite string_of_uint_length; lia.
Qed.

Ltac string_normal :=
  repeat (rewrite append_cons || rewrite append_nil || rewrite append_assoc).

Section header_text.
Import Server.

(** The header is the formatted text itself whenever the texts put into
    it leave room in the 4096 bytes of its buffer. *)
Lemma format_response_header_text code text date type len cache encoding connection :
  (String.length (printf_d code) + String.length (printf_s text) +
   String.length date + String.length (printf_s type) +
   String.length cache + String.length encoding +
   String.length connection ≤ 3900)%nat →
  format_response_header code text date type len cache encoding connection =
    "HTTP/1.1 " +:+ printf_d code +:+ " " +:+ printf_s text +:+ CRLF +:+
    "Server: CServer/1.0" +:+ CRLF +:+
    "Date: " +:+ date +:+ CRLF +:+
    "Content-Type: " +:+ printf_s type +:+ CRLF +:+
    "Content-Length: " +:+ printf_zu len +:+ CRLF +:+
    cache +:+ encoding +:+
    "Connection: " +:+ connection +:+ CRLF +:+ CRLF.
Proof.
  intros Hfit. unfold format_response_header, snprintf. apply substring_all.
  rewrite !length_append. pose proof (printf_zu_length len).
  change (String.length "HTTP/1.1 ") with 9%nat.
  change (String.length " ") with 1%nat.
  change (String.length CRLF) with 2%nat.
  change (String.length "Server: CServer/1.0") with 19%nat.
  change (String.length "Date: ") with 6%nat.
  change (String.length "Content-Type: ") with 14%nat.
  change (String.length "Content-Length: ") with 16%nat.
  change (String.length "Connection: ") with 12%nat.
  change (4096 - 1)%nat with 4095%nat. lia.
Qed.

Lemma get_mime_type_length file_path :
  (String.length (get_mime_type file_path) ≤ 37)%nat.
Proof.
  unfold get_mime_type. repeat case_match; vm_compute; lia.
Qed.

Lemma resolves_to_stat config env req file_path st :
  resolves_to config env req file_path st → fs_stat env file_path = Some st.
Proof. by destruct 1. Qed.

(** [read_file_content] in terms of what [stat] and [read] deliver. *)
Lemma read_file_content_read env file_path st data :
  fs_stat env file_path = Some st → fs_read env file_path = Some data →
  0 ≤ st_size st ≤ Z.of_nat (String.length data) →
  read_file_content env file_path =
    Some (String.substring 0 (Z.to_nat (st_size st)) data) ∧
  String.length (String.substring 0 (Z.to_nat (st_size st)) data) =
    Z.to_nat (st_size st).
Proof.
  intros Hstat Hread Hsize. unfold read_file_content. rewrite Hstat, Hread.
  cbv zeta. rewrite Z.min_l by lia. rewrite Z.eqb_refl. split; [done|].
  assert (∀ (n : nat) (s : string), (n ≤ String.length s)%nat →
            String.length (String.substring 0 n s) = n) as Hsub.
  { intros n s. revert n. induction s as [|c s IH]; intros [|n] Hn;
      simpl in *; try done; [lia|]. f_equal. apply IH. lia. }
  apply Hsub. lia.
Qed.

Lemma read_file_content_short env file_path st :
  fs_stat env file_path = Some st →
  (fs_read env file_path = None ∨
   ∃ data, fs_read env file_path = Some data ∧
           Z.of_nat (String.length data) < st_size st) →
  read_file_content env file_path = None.
Proof.
  intros Hstat Hread. unfold read_file_content. rewrite Hstat.
  destruct Hread as [-> | (data & -> & Hshort)]; [done|]. cbv zeta.
  rewrite Z.min_r by lia.
  by destruct (Z.eqb_spec (Z.of_nat (String.length data)) (st_size st)); [lia|].
Qed.

(** The header of a 304. *)
Lemma not_modified_header config env now resp file_path keep :
  (String.length (format_gmt env now) < 100)%nat →
  resp = {| status_code := 304; status_text := Some "Not Modified";
            content_type := Some (get_mime_type file_path);
            content_length := 0; body := None;
            response_keep_alive := keep; request := request resp |} →
  send_http_response config env now resp =
    ["HTTP/1.1 304 Not Modified" +:+ CRLF +:+
     "Server: CServer/1.0" +:+ CRLF +:+
     "Date: " +:+ format_gmt env now +:+ CRLF +:+
     "Content-Type: " +:+ get_mime_type file_path +:+ CRLF +:+
     "Content-Length: 0" +:+ CRLF +:+
     "Cache-Control: no-store" +:+ CRLF +:+
     "Connection: " +:+ (if keep =? 0 then "close" else "keep-alive") +:+ CRLF +:+
     CRLF].
Proof.
  intros Hdate ->. rewrite send_http_response_not_ok by done.
  cbn [status_code status_text content_type content_length body
       response_keep_alive].
  rewrite format_response_header_text.
  - unfold connection_header. f_equal.
    change (printf_d 304) with "304". change (printf_zu 0) with "0".
    cbn [printf_s default]. destruct (keep =? 0); cbn [negb];
      by repeat (rewrite append_cons || rewrite append_nil || rewrite append_assoc).
  - pose proof (get_mime_type_length file_path).
    cbn [printf_s default]. unfold connection_header.
    change (String.length (printf_d 304)) with 3%nat.
    change (String.length "Not Modified") with 12%nat.
    change (String.length ("Cache-Control: no-store" +:+ CRLF)) with 25%nat.
    destruct (negb (keep =? 0)); simpl String.length; lia.
Qed.

(** C6.  For a GET or HEAD request that resolves to a file of size [S]
    and modification time [T], the validator the server computes is
    [W/"<S-hex>-<T-hex>"].  If the If-None-Match value of the request
    contains it as a substring, the response is 304 with no body and
    content length 0, and what is sent is the header alone, which reads
    [Content-Length: 0] (the date fits its buffer of 100 bytes).
    Otherwise the file is served as for a request without
    If-None-Match: when [read] delivers the [S] bytes of the file, the
    response is a 200 of the type of the file with these bytes as body
    and [S] as length (no body and length 0 for HEAD); when the file
    cannot be opened or [read] delivers fewer bytes, it is a 500 with
    the text "Internal Server Error". *)
Theorem conditional_request_not_modified
    config env now req response file_path st :
  method req = "GET" ∨ method req = "HEAD" →
  resolves_to config env req file_path st →
  (String.length (format_gmt env now) < 100)%nat →
  let validator :=
    "W/" +:+ DQUOTE +:+ printf_lx (st_size st) +:+ "-" +:+
    printf_lx (st_mtime st) +:+ DQUOTE in
  file_etag st = validator ∧
  ((∃ before after, if_none_match req = before +:+ validator +:+ after) →
   ∃ resp, handle_http_request config env req response = Some resp ∧
     status_code resp = 304 ∧ body resp = None ∧ content_length resp = 0 ∧
     send_http_response config env now resp =
       ["HTTP/1.1 304 Not Modified" +:+ CRLF +:+
        "Server: CServer/1.0" +:+ CRLF +:+
        "Date: " +:+ format_gmt env now +:+ CRLF +:+
        "Content-Type: " +:+ get_mime_type file_path +:+ CRLF +:+
        "Content-Length: 0" +:+ CRLF +:+
        "Cache-Control: no-store" +:+ CRLF +:+
        "Connection: " +:+
          (if keep_alive req =? 0 then "close" else "keep-alive") +:+ CRLF +:+
        CRLF]) ∧
  ((¬ ∃ before after, if_none_match req = before +:+ validator +:+ after) →
   (∀ data, fs_read env file_path = Some data →
      0 ≤ st_size st ≤ Z.of_nat (String.length data) →
      handle_http_request config env req response =
        Some {| status_code := 200;
                status_text := Some "OK";
                content_type := Some (get_mime_type file_path);
                content_length :=
                  if String.eqb (method req) "HEAD" then 0 else st_size st;
                body :=
                  if String.eqb (method req) "HEAD" then None
                  else if 0 <? st_size st
                       then Some (String.substring 0 (Z.to_nat (st_size st)) data)
                       else None;
                response_keep_alive := response_keep_alive response;
                request := request response |}) ∧
   ((fs_read env file_path = None ∨
     ∃ data, fs_read env file_path = Some data ∧
             Z.of_nat (String.length data) < st_size st) →
    handle_http_request config env req response =
      Some {| status_code := 500;
              status_text := Some "Internal Server Error";
              content_type := Some "text/plain; charset=UTF-8";
              content_length := 21;
              body := Some "Internal Server Error";
              response_keep_alive := response_keep_alive response;
              request := request response |})).
Proof.
  intros Hmethod Hres Hdate. cbv zeta.
  rewrite <- file_etag_format.
  rewrite (handle_http_request_resolved _ _ _ _ _ _ Hmethod Hres).
  rewrite handle_http_request_file_cases. cbv zeta.
  pose proof (resolves_to_stat _ _ _ _ _ Hres) as Hstat.
  split; [done|]. split.
  - intros Hmatch. apply validator_matches_spec in Hmatch. rewrite Hmatch.
    eexists. split; [done|]. split; [done|]. split; [done|]. split; [done|].
    by apply not_modified_header.
  - intros Hno. rewrite <- validator_matches_spec in Hno.
    apply not_true_is_false in Hno as ->. split.
    + intros data Hread Hsize.
      destruct (read_file_content_read env file_path st data Hstat Hread Hsize)
        as [-> Hlen].
      unfold strcmp_eq, HTTP_METHOD_HEAD.
      destruct (String.eqb (method req) "HEAD"); [done|].
      unfold build_http_response, HTTP_OK. rewrite Hlen, Z2Nat.id by lia.
      destruct (0 <? st_size st) eqn:Hpos; cbn [fst snd].
      * by rewrite substring_all by lia.
      * f_equal. f_equal. apply Z.ltb_ge in Hpos. lia.
    + intros Hshort. by rewrite (read_file_content_short env file_path st).
Qed.

Lemma sent_etag_length len now : (String.length (sent_etag len now) ≤ 37)%nat.
Proof.
  unfold sent_etag. rewrite !length_append.
  pose proof (printf_lx_length len). pose proof (printf_lx_length now).
  simpl. lia.
Qed.

(** The header of a 200 without a body. *)
Lemma ok_header_bodyless config env now resp file_path :
  (String.length (format_gmt env now) < 100)%nat →
  status_code resp = 200 → status_text resp = Some "OK" →
  content_type resp = Some (get_mime_type file_path) →
  body resp = None → content_length resp = 0 →
  ∃ age, age ∈ ["3600"; "604800"; "2592000"; "86400"] ∧
    send_http_response config env now resp =
      ["HTTP/1.1 200 OK" +:+ CRLF +:+
       "Server: CServer/1.0" +:+ CRLF +:+
       "Date: " +:+ format_gmt env now +:+ CRLF +:+
       "Content-Type: " +:+ get_mime_type file_path +:+ CRLF +:+
       "Content-Length: 0" +:+ CRLF +:+
       "Cache-Control: public, max-age=" +:+ age +:+ CRLF +:+
       "ETag: W/" +:+ DQUOTE +:+ "0-" +:+ printf_lx now +:+ DQUOTE +:+ CRLF +:+
       "Connection: " +:+
         (if response_keep_alive resp =? 0 then "close" else "keep-alive") +:+
       CRLF +:+ CRLF].
Proof.
  intros Hdate Hcode Htext Htype Hbody Hlen.
  destruct (response_cache_headers_ok now resp _ Hcode Htype) as (age & Hage & Hcache).
  exists age. split; [done|].
  rewrite send_bodyless by done. rewrite Hcode, Htext, Htype, Hcache, Hlen.
  rewrite format_response_header_text.
  - f_equal. change (printf_d 200) with "200". change (printf_zu 0) with "0".
    cbn [printf_s default]. unfold sent_etag. change (printf_lx 0) with "0".
    destruct (response_keep_alive resp =? 0); cbn [negb]; by string_normal.
  - pose proof (get_mime_type_length file_path).
    pose proof (sent_etag_length 0 now).
    generalize dependent (sent_etag 0 now). intros etag Hetag.
    cbn [printf_s default]. rewrite !length_append.
    change (String.length (printf_d 200)) with 3%nat.
    assert (String.length age ≤ 7)%nat.
    { repeat (apply elem_of_cons in Hage as [->|Hage]; [simpl; lia|]).
      by apply elem_of_nil in Hage. }
    destruct (negb (response_keep_alive resp =? 0)); simpl String.length; lia.
Qed.

(** C8.  For a HEAD request that resolves to a file whose [S] bytes
    [read] delivers, the response has no body and content length 0;
    its status is 200 unless the validator of the request matched (then
    304).  What is sent is the header alone, and it reads
    [Content-Length: 0] (the date fits its buffer of 100 bytes).  The
    GET request for the same file, without a matching validator,
    reports the length [S] of the file. *)
Theorem head_response_drops_length
    config env now req response file_path st data :
  method req = "HEAD" →
  resolves_to config env req file_path st →
  fs_read env file_path = Some data →
  0 ≤ st_size st ≤ Z.of_nat (String.length data) →
  (String.length (format_gmt env now) < 100)%nat →
  (∃ resp, handle_http_request config env req response = Some resp ∧
     body resp = None ∧ content_length resp = 0 ∧
     (status_code resp = 200 ∨ status_code resp = 304) ∧
     (strstr (if_none_match req) (file_etag st) = None →
      status_code resp = 200) ∧
     (status_code resp = 200 →
      ∃ age, age ∈ ["3600"; "604800"; "2592000"; "86400"] ∧
        send_http_response config env now resp =
          ["HTTP/1.1 200 OK" +:+ CRLF +:+
           "Server: CServer/1.0" +:+ CRLF +:+
           "Date: " +:+ format_gmt env now +:+ CRLF +:+
           "Content-Type: " +:+ get_mime_type file_path +:+ CRLF +:+
           "Content-Length: 0" +:+ CRLF +:+
           "Cache-Control: public, max-age=" +:+ age +:+ CRLF +:+
           "ETag: W/" +:+ DQUOTE +:+ "0-" +:+ printf_lx now +:+ DQUOTE +:+ CRLF +:+
           "Connection: " +:+
             (if response_keep_alive response =? 0
              then "close" else "keep-alive") +:+
           CRLF +:+ CRLF]) ∧
     (status_code resp = 304 →
      send_http_response config env now resp =
        ["HTTP/1.1 304 Not Modified" +:+ CRLF +:+
         "Server: CServer/1.0" +:+ CRLF +:+
         "Date: " +:+ format_gmt env now +:+ CRLF +:+
         "Content-Type: " +:+ get_mime_type file_path +:+ CRLF +:+
         "Content-Length: 0" +:+ CRLF +:+
         "Cache-Control: no-store" +:+ CRLF +:+
         "Connection: " +:+
           (if keep_alive req =? 0 then "close" else "keep-alive") +:+ CRLF +:+
         CRLF])) ∧
  (strstr (if_none_match req) (file_etag st) = None →
   ∀ get_request,
     method get_request = "GET" →
     path get_request = path req →
     if_none_match get_request = if_none_match req →
     ∃ resp, handle_http_request config env get_request response = Some resp ∧
       status_code resp = 200 ∧
       content_length resp = st_size st).
Proof.
  intros Hhead Hres Hfile Hsize Hdate.
  pose proof (resolves_to_stat _ _ _ _ _ Hres) as Hstat.
  destruct (read_file_content_read env file_path st data Hstat Hfile Hsize)
    as [Hread Hlen].
  split.
  - rewrite (handle_http_request_resolved _ _ _ _ _ _ (or_intror Hhead) Hres).
    rewrite handle_http_request_file_cases. cbv zeta. rewrite Hread, Hhead.
    destruct (negb _ && bool_decide _) eqn:Hmatch.
    + eexists. split; [done|]. split; [done|]. split; [done|].
      split; [by right|]. split; [|split; [done|]].
      * intros Hnone. rewrite Hnone in Hmatch.
        by rewrite andb_false_r in Hmatch.
      * intros _. by apply not_modified_header.
    + eexists. split; [done|]. split; [done|]. split; [done|].
      split; [by left|]. split; [done|]. split; [|done].
      intros _.
      by apply (ok_header_bodyless config env now
                  (build_http_response response HTTP_OK (get_mime_type file_path)
                     None 0) file_path).
  - intros Hnone get_request Hget Hpath Hinm.
    assert (resolves_to config env get_request file_path st) as Hres'.
    { destruct Hres as [st Hst Hreg | dir_st st Hst Hdir Hslash Hindex].
      - replace (requested_path config req)
          with (requested_path config get_request) in *
          by (unfold requested_path; by rewrite Hpath).
        by constructor.
      - rewrite <- Hpath in *.
        replace (requested_path config req)
          with (requested_path config get_request) in *
          by (unfold requested_path; by rewrite Hpath).
        by econstructor. }
    rewrite (handle_http_request_resolved _ _ _ _ _ _ (or_introl Hget) Hres').
    rewrite handle_http_request_file_cases. cbv zeta.
    rewrite Hinm, Hnone, andb_false_r, Hread, Hget.
    eexists. split; [done|]. split; [done|].
    unfold build_http_response. cbn [content_length]. rewrite Hlen.
    destruct (Z.ltb_spec 0 (Z.of_nat (Z.to_nat (st_size st)))); simpl; lia.
Qed.

Lemma substring_length_le (n : nat) (s : string) :
  (String.length (String.substring 0 n s) ≤ n)%nat.
Proof.
  revert n. induction s as [|c s IH]; intros [|n]; simpl; try lia.
  specialize (IH n). lia.
Qed.

Lemma response_cache_headers_length now response :
  (String.length (response_cache_headers now response) ≤ 1023)%nat.
Proof.
  unfold response_cache_headers.
  repeat match goal with
         | |- context [if ?b then _ else _] => destruct b
         | |- context [match ?o with Some _ => _ | None => _ end] => destruct o
         end;
    try apply (substring_length_le 1023); simpl; lia.
Qed.

(** The content types that are compressed are those that begin with
    one of five prefixes. *)
Lemma compressible_spec (type : option string) :
  compressible type = true ↔
  ∃ ct prefix rest,
    type = Some ct ∧
    prefix ∈ ["text/"; "application/json"; "application/javascript";
              "application/xml"; "application/x-javascript"] ∧
    ct = prefix +:+ rest.
Proof.
  destruct type as [ct|]; cbn [compressible];
    [|split; [done | by intros (? & ? & ? & ? & _)]].
  unfold strncmp_eq. rewrite !orb_true_iff, !prefix_spec. split.
  - intros [[[[[rest ->]|[rest ->]]|[rest ->]]|[rest ->]]|[rest ->]];
      eexists _, _, rest; (split; [reflexivity|]); (split; [|reflexivity]);
      by repeat constructor.
  - intros (? & prefix & rest & [= <-] & Hin & ->).
    repeat (apply elem_of_cons in Hin as [->|Hin];
            [by eauto 10|]).
    by apply elem_of_nil in Hin.
Qed.

(** C7, with the success of zlib among the conditions.  For a response
    whose length field is that of its body, whose status line, date and
    content type fit the header buffer, and a non-negative configured
    minimum size: the response is sent gzip-compressed exactly when
    compression is enabled, the status is 200, the content type begins
    with [text/], [application/json], [application/javascript],
    [application/xml] or [application/x-javascript], the body is longer
    than the minimum size, the Accept-Encoding of the request contains
    "gzip", and zlib succeeds in compressing the body.  When it is, the
    header has the line [Content-Encoding: gzip], its Content-Length is
    the length of the compressed bytes, and the compressed bytes
    follow.  In every other case, and so for every status other than
    200, the header has no encoding line, its Content-Length is the
    length of the body, and the body follows as it is. *)
Theorem gzip_applied_iff config env now response :
  0 ≤ gzip_min_size config < 2 ^ 64 →
  response_wf response →
  (String.length (printf_d (status_code response)) +
   String.length (printf_s (status_text response)) +
   String.length (format_gmt env now) +
   String.length (printf_s (content_type response)) ≤ 2800)%nat →
  let header length encoding :=
    "HTTP/1.1 " +:+ printf_d (status_code response) +:+ " " +:+
      printf_s (status_text response) +:+ CRLF +:+
    "Server: CServer/1.0" +:+ CRLF +:+
    "Date: " +:+ format_gmt env now +:+ CRLF +:+
    "Content-Type: " +:+ printf_s (content_type response) +:+ CRLF +:+
    "Content-Length: " +:+ printf_zu length +:+ CRLF +:+
    response_cache_headers now response +:+
    encoding +:+
    "Connection: " +:+
      (if response_keep_alive response =? 0 then "close" else "keep-alive") +:+
    CRLF +:+ CRLF in
  let applies z :=
    enable_gzip config ≠ 0 ∧
    status_code response = 200 ∧
    (∃ ct prefix rest,
       content_type response = Some ct ∧
       prefix ∈ ["text/"; "application/json"; "application/javascript";
                 "application/xml"; "application/x-javascript"] ∧
       ct = prefix +:+ rest) ∧
    gzip_min_size config < content_length response ∧
    (∃ client_request before after,
       request response = Some client_request ∧
       accept_encoding client_request = before +:+ "gzip" +:+ after) ∧
    (∃ bytes, body response = Some bytes ∧ zlib_gzip env bytes = Some z) in
  (∀ z, applies z →
     send_http_response config env now response =
       [header (Z.of_nat (String.length z)) ("Content-Encoding: gzip" +:+ CRLF);
        z]) ∧
  ((¬ ∃ z, applies z) →
     send_http_response config env now response =
       header (content_length response) EmptyString
       :: match body response with Some bytes => [bytes] | None => [] end).
Proof.
  intros Hmin Hwf Hfit. cbv zeta beta.
  pose proof (response_cache_headers_length now response) as Hcache.
  assert (∀ length encoding,
    (String.length encoding ≤ 24)%nat →
    format_response_header (status_code response) (status_text response)
      (format_gmt env now) (content_type response) length
      (response_cache_headers now response) encoding
      (if negb (response_keep_alive response =? 0) then "keep-alive" else "close")
    = "HTTP/1.1 " +:+ printf_d (status_code response) +:+ " " +:+
        printf_s (status_text response) +:+ CRLF +:+
      "Server: CServer/1.0" +:+ CRLF +:+
      "Date: " +:+ format_gmt env now +:+ CRLF +:+
      "Content-Type: " +:+ printf_s (content_type response) +:+ CRLF +:+
      "Content-Length: " +:+ printf_zu length +:+ CRLF +:+
      response_cache_headers now response +:+
      encoding +:+
      "Connection: " +:+
        (if response_keep_alive response =? 0 then "close" else "keep-alive") +:+
      CRLF +:+ CRLF) as Htext.
  { intros length encoding Hencoding.
    rewrite format_response_header_text.
    - by destruct (response_keep_alive response =? 0).
    - destruct (response_keep_alive response =? 0); cbn [negb];
        simpl String.length; lia. }
  split.
  - intros z (Hon & H200 & Htype & Hbig & (req & before & after & Hreq & Hae)
              & bytes & Hbody & Hz).
    rewrite (send_http_response_compressed _ _ _ _ z).
    + by rewrite Htext by (simpl; lia).
    + apply response_compression_spec. exists bytes, req.
      rewrite Z.mod_small by exact Hmin.
      split; [done|]. split; [done|]. split; [done|]. split; [done|].
      split; [done|]. split; [by apply compressible_spec|].
      split; [apply client_accepts_gzip_spec; by exists before, after|].
      unfold response_wf in Hwf. rewrite Hbody in Hwf. destruct Hwf as [Hlen Hpos].
      unfold gzip_compress_data.
      destruct (Z.eqb_spec (content_length response) 0); [lia|].
      by rewrite Hlen, Nat2Z.id, substring_all.
  - intros Hnot.
    rewrite send_http_response_plain; [by rewrite Htext by (simpl; lia)|done|].
    destruct (response_compression config env response) as [z|] eqn:Hz; [|done].
    destruct Hnot. exists z.
    destruct (response_compression_body _ _ _ _ Hwf Hz) as (bytes & Hbody & Hgz).
    apply response_compression_spec in Hz
      as (_ & req & _ & Hreq & Hon & Hbig & H200 & Hct & Hae & _).
    rewrite Z.mod_small in Hbig by exact Hmin.
    split; [done|]. split; [done|]. split; [by apply compressible_spec|].
    split; [done|]. split; [|by exists bytes].
    apply client_accepts_gzip_spec in Hae as (before & after & Hae).
    by exists req, before, after.
Qed.

Ltac line_facts line :=
  cbn; exists line; eexists;
  split; [by repeat constructor|];
  split; [reflexivity|]; split; [reflexivity|];
  split; [first [apply get_mime_type_length | simpl; lia]|]; reflexivity.

Lemma handle_http_request_file_line env req file_path st :
  let r := handle_http_request_file env req (blank_response req) file_path st in
  ∃ line type,
    line ∈ ["200 OK"; "301 Moved Permanently"; "304 Not Modified";
            "404 Not Found"; "405 Method Not Allowed";
            "500 Internal Server Error"] ∧
    printf_d (status_code r) +:+ " " +:+ printf_s (status_text r) = line ∧
    content_type r = Some type ∧
    (String.length type ≤ 37)%nat ∧
    response_keep_alive r = keep_alive req.
Proof.
  intros r. subst r. rewrite handle_http_request_file_cases. cbv zeta.
  destruct (negb _ && bool_decide _); [line_facts "304 Not Modified"|].
  destruct (read_file_content env file_path) as [content|];
    [|line_facts "500 Internal Server Error"].
  destruct (strcmp_eq (method req) HTTP_METHOD_HEAD); line_facts "200 OK".
Qed.

(** The status line, the content type and the keep-alive flag of the
    responses of the handler. *)
Lemma handle_http_request_line config env req resp :
  handle_http_request config env req (blank_response req) = Some resp →
  ∃ line type,
    line ∈ ["200 OK"; "301 Moved Permanently"; "304 Not Modified";
            "404 Not Found"; "405 Method Not Allowed";
            "500 Internal Server Error"] ∧
    printf_d (status_code resp) +:+ " " +:+ printf_s (status_text resp) = line ∧
    content_type resp = Some type ∧
    (String.length type ≤ 37)%nat ∧
    response_keep_alive resp = keep_alive req.
Proof.
  unfold handle_http_request.
  destruct (negb _ && negb _);
    [intros [= <-]; line_facts "405 Method Not Allowed"|].
  destruct (fs_stat env _) as [st|];
    [|intros [= <-]; line_facts "404 Not Found"].
  destruct (st_is_dir st).
  - destruct (last_char (path req)) as [c|]; [|done].
    destruct (negb (Ascii.eqb c "/"));
      [intros [= <-]; line_facts "301 Moved Permanently"|].
    destruct (fs_stat env _) as [st'|];
      [|intros [= <-]; line_facts "404 Not Found"].
    intros [= <-]. apply handle_http_request_file_line.
  - intros [= <-]. apply handle_http_request_file_line.
Qed.

(** X11.  The Content-Length line of every response to a request
    gives the number of body bytes handed to [send] after the header:
    either zlib compressed the body, the header has the line
    [Content-Encoding: gzip] and the compressed bytes follow, or the
    header has no encoding line and the body follows as it is, which is
    nothing at all when the response has no body (as for HEAD, 301 and
    304).  The status line is one of six, and the Connection line
    repeats what the request asked.  (The date fits its buffer of 100
    bytes.) *)
Theorem exchange_content_length config env now req writes :
  (String.length (format_gmt env now) < 100)%nat →
  handle_client_exchange config env now req = Some writes →
  ∃ resp line type encoding bodies,
    handle_http_request config env req (blank_response req) = Some resp ∧
    line ∈ ["200 OK"; "301 Moved Permanently"; "304 Not Modified";
            "404 Not Found"; "405 Method Not Allowed";
            "500 Internal Server Error"] ∧
    content_type resp = Some type ∧
    writes =
      ("HTTP/1.1 " +:+ line +:+ CRLF +:+
       "Server: CServer/1.0" +:+ CRLF +:+
       "Date: " +:+ format_gmt env now +:+ CRLF +:+
       "Content-Type: " +:+ type +:+ CRLF +:+
       "Content-Length: " +:+
         printf_zu (Z.of_nat (list_sum (String.length <$> bodies))) +:+ CRLF +:+
       response_cache_headers now resp +:+
       encoding +:+
       "Connection: " +:+
         (if keep_alive req =? 0 then "close" else "keep-alive") +:+ CRLF +:+
       CRLF) :: bodies ∧
    ((∃ bytes z,
        body resp = Some bytes ∧ zlib_gzip env bytes = Some z ∧
        encoding = "Content-Encoding: gzip" +:+ CRLF ∧ bodies = [z]) ∨
     (encoding = EmptyString ∧
      bodies = match body resp with Some bytes => [bytes] | None => [] end)).
Proof.
  intros Hdate. unfold handle_client_exchange. fold (blank_response req).
  destruct (handle_http_request config env req (blank_response req))
    as [resp|] eqn:Hresp; [|done].
  intros [= <-].
  destruct (handle_http_request_wf config env req resp Hresp) as [Hwf _].
  destruct (handle_http_request_line config env req resp Hresp)
    as (line & type & Hline & Hstatus & Htype & Hfit & Hkeep).
  pose proof (response_cache_headers_length now resp) as Hcache.
  assert (String.length line ≤ 25)%nat as Hlength.
  { repeat (apply elem_of_cons in Hline as [->|Hline]; [simpl; lia|]).
    by apply elem_of_nil in Hline. }
  assert (∀ length encoding,
    (String.length encoding ≤ 24)%nat →
    format_response_header (status_code resp) (status_text resp)
      (format_gmt env now) (content_type resp) length
      (response_cache_headers now resp) encoding
      (if negb (response_keep_alive resp =? 0) then "keep-alive" else "close")
    = "HTTP/1.1 " +:+ line +:+ CRLF +:+
      "Server: CServer/1.0" +:+ CRLF +:+
      "Date: " +:+ format_gmt env now +:+ CRLF +:+
      "Content-Type: " +:+ type +:+ CRLF +:+
      "Content-Length: " +:+ printf_zu length +:+ CRLF +:+
      response_cache_headers now resp +:+
      encoding +:+
      "Connection: " +:+
        (if keep_alive req =? 0 then "close" else "keep-alive") +:+ CRLF +:+
      CRLF) as Htext.
  { intros length encoding Hencoding.
    rewrite format_response_header_text.
    - rewrite Hkeep, Htype, <- Hstatus. cbn [printf_s default].
      destruct (keep_alive req =? 0); cbn [negb]; by string_normal.
    - rewrite <- Hstatus, !length_append in Hlength. rewrite Htype.
      cbn [printf_s default] in Hlength |- *.
      destruct (response_keep_alive resp =? 0); cbn [negb];
        simpl String.length in *; lia. }
  exists resp, line, type.
  destruct (response_compression config env resp) as [z|] eqn:Hz.
  - rewrite (send_http_response_compressed config env now resp z Hz).
    destruct (response_compression_body _ _ _ _ Hwf Hz) as (bytes & Hbody & Hgz).
    exists ("Content-Encoding: gzip" +:+ CRLF), [z].
    split; [done|]. split; [done|]. split; [done|]. split.
    + rewrite Htext by (simpl; lia). simpl list_sum. by rewrite Nat.add_0_r.
    + left. by exists bytes, z.
  - rewrite (send_http_response_plain config env now resp Hwf Hz).
    exists EmptyString, (match body resp with Some bytes => [bytes] | None => [] end).
    split; [done|]. split; [done|]. split; [done|]. split; [|by right].
    rewrite Htext by (simpl; lia). f_equal. do 11 f_equal.
    unfold response_wf in Hwf. destruct (body resp) as [bytes|].
    + destruct Hwf as [-> _]. simpl. by rewrite Nat.add_0_r.
    + by rewrite Hwf.
Qed.

End header_text.

Section connection_text.
Import Server.

(** What is written for the response of lines 319-328. *)
Lemma rate_limit_response_sent config env now :
  (String.length (format_gmt env now) < 100)%nat →
  send_http_response config env now rate_limit_response =
    ["HTTP/1.1 429 Too Many Requests" +:+ CRLF +:+
     "Server: CServer/1.0" +:+ CRLF +:+
     "Date: " +:+ format_gmt env now +:+ CRLF +:+
     "Content-Type: text/plain" +:+ CRLF +:+
     "Content-Length: 42" +:+ CRLF +:+
     "Cache-Control: no-store" +:+ CRLF +:+
     "Connection: close" +:+ CRLF +:+
     CRLF;
     "Too many requests. Please try again later."].
Proof.
  intros Hdate.
  rewrite send_http_response_not_ok by (vm_compute; discriminate).
  apply (f_equal2 (@cons string)); [|vm_compute; reflexivity].
  unfold rate_limit_response, connection_header.
  cbn [status_code status_text content_type content_length response_keep_alive
       Z.eqb negb].
  rewrite format_response_header_text.
  - change (printf_d HTTP_TOO_MANY_REQUESTS) with "429".
    change (printf_zu (Z.of_nat (String.length rate_limit_message))) with "42".
    cbn [printf_s default]. by string_normal.
  - change (String.length (printf_d HTTP_TOO_MANY_REQUESTS)) with 3%nat.
    cbn [printf_s default]. simpl String.length. lia.
Qed.

(** X19.  A client over its limit gets a 429 and is disconnected
    without being read.  When the check at the start of a turn rejects
    the client, [handle_client] writes the header

      HTTP/1.1 429 Too Many Requests
      Server: CServer/1.0
      Date: (the time of sending)
      Content-Type: text/plain
      Content-Length: 42
      Cache-Control: no-store
      Connection: close

    followed by the 42 bytes of the fixed message, and leaves the loop:
    nothing is received in this turn, and the later turns do not take
    place.  (The date fits its buffer of 100 bytes.) *)
Theorem limited_client_gets_429 config env client_ip now later st :
  (check_rate_limit config (at_check now) client_ip st).1 ≠ 0 →
  (String.length (format_gmt env (at_send now)) < 100)%nat →
  handle_client config env client_ip (now :: later) st =
    Some {| sent :=
              ["HTTP/1.1 429 Too Many Requests" +:+ CRLF +:+
               "Server: CServer/1.0" +:+ CRLF +:+
               "Date: " +:+ format_gmt env (at_send now) +:+ CRLF +:+
               "Content-Type: text/plain" +:+ CRLF +:+
               "Content-Length: 42" +:+ CRLF +:+
               "Cache-Control: no-store" +:+ CRLF +:+
               "Connection: close" +:+ CRLF +:+
               CRLF;
               "Too many requests. Please try again later."];
            closed := true;
            limiter := (check_rate_limit config (at_check now) client_ip st).2 |}.
Proof.
  intros Hlimited Hdate. cbn [handle_client].
  destruct (check_rate_limit config (at_check now) client_ip st) as [is_limited st'].
  cbn [fst snd] in *.
  destruct (Z.eqb_spec is_limited 0); [done|]. cbn [negb].
  by rewrite rate_limit_response_sent.
Qed.

End connection_text.

(* ================================================================== *)
(** * Part IV: the properties at concrete inputs *)
(* ================================================================== *)

(** ** Worker pool *)

Section pool_instances.
Import ThreadPool.

Lemma thread_pool_add_backpressure_fifo_witness :
  pool_reachable pool_full ∧
  thread_pool_add pool_full (Some (Task 6 3)) = (-1, pool_full) ∧
  ∃ p1, worker_thread pool_full = WorkerTakes (Some (Task 4 1)) p1 ∧
        pending p1 = [Some (Task 5 2)] ∧
        (thread_pool_add p1 (Some (Task 6 3))).1 = 0.
Proof.
  assert (pool_reachable pool_full) as Hreach.
  { exists 1, 2, pool_of_two. split; [reflexivity|].
    eapply rtc_l; [apply (step_submit _ (Some (Task 4 1)))|].
    eapply rtc_l; [apply (step_submit _ (Some (Task 5 2)))|].
    apply rtc_refl. }
  destruct (thread_pool_add_backpressure_fifo pool_full (Task 6 3) Hreach)
    as (Hfull & _ & Htake).
  split; [exact Hreach|]. split.
  - apply Hfull. left. reflexivity.
  - eexists. split; [reflexivity|].
    destruct (Htake _ _ eq_refl) as (_ & Hpending & _ & Hadd).
    split; [|exact Hadd]. vm_compute. reflexivity.
Defined.

Lemma pool_count_bounded_shutdown_final_witness :
  pool_reachable pool_stopped ∧
  0 ≤ count pool_stopped ≤ queue_size pool_stopped ∧
  thread_pool_add pool_stopped (Some (Task 6 3)) = (-1, pool_stopped).
Proof.
  assert (pool_reachable pool_stopped) as Hreach.
  { exists 1, 2, pool_of_two. split; [reflexivity|].
    eapply rtc_l; [apply (step_submit _ (Some (Task 4 1)))|].
    eapply rtc_l; [apply (step_submit _ (Some (Task 5 2)))|].
    eapply rtc_l; [apply step_shutdown|].
    apply rtc_refl. }
  destruct (pool_count_bounded_shutdown_final pool_stopped Hreach)
    as (Hbound & Hfinal).
  split; [exact Hreach|]. split; [exact Hbound|].
  apply (Hfinal ltac:(vm_compute; discriminate) pool_stopped (rtc_refl _ _)).
Defined.

End pool_instances.

(** ** Rate limiter *)

Section limiter_instances.
Import Server.

Lemma after_three_checks_reachable :
  limiter_reachable (limiter_config 2) after_three_checks.
Proof.
  eapply rtc_l; [apply (step_check _ 0 address_a)|].
  eapply rtc_l; [apply (step_check _ 1 address_a)|].
  eapply rtc_l; [apply (step_check _ 2 address_a)|].
  apply rtc_refl.
Defined.

Lemma rate_limit_window_expiry_witness :
  (check_rate_limit (limiter_config 2) 2 address_a
     (check_rate_limit (limiter_config 2) 1 address_a
        (check_rate_limit (limiter_config 2) 0 address_a rate_limit_start).2).2).1 = 1 ∧
  ∃ st', check_rate_limit (limiter_config 2) 100 address_a after_three_checks
         = (0, st').
Proof.
  split; [vm_compute; reflexivity|].
  apply (rate_limit_window_expiry (limiter_config 2) after_three_checks
           address_a 100).
  - vm_compute. discriminate.
  - vm_compute. discriminate.
  - exact after_three_checks_reachable.
  - vm_compute. repeat constructor.
Defined.

(** Where C9 stops: with a maximum of 0 every check is limited, also
    one for which all recorded timestamps (there are none) have
    expired. *)
Lemma rate_limit_window_expiry_counterexample :
  recorded (slot_of rate_limit_start address_a) = [] ∧
  (check_rate_limit (limiter_config 0) 100 address_a rate_limit_start).1 = 1.
Proof. split; vm_compute; reflexivity. Qed.

Lemma rate_limit_collision_evicts_witness :
  ip_hash address_a = ip_hash address_b ∧
  (check_rate_limit (limiter_config 2) 2 address_a after_three_checks).1 = 1 ∧
  ∃ st', check_rate_limit (limiter_config 2) 2 address_b after_three_checks
           = (0, st') ∧
         ip (slot_of st' address_b) = address_b ∧
         recorded (slot_of st' address_b) = [2].
Proof.
  split; [vm_compute; reflexivity|]. split; [vm_compute; reflexivity|].
  destruct (rate_limit_collision_evicts (limiter_config 2) after_three_checks
              address_a address_b 2)
    as (st' & Hcheck & _ & Hip & Hrec & _).
  - vm_compute. discriminate.
  - vm_compute. discriminate.
  - exact after_three_checks_reachable.
  - discriminate.
  - vm_compute. reflexivity.
  - vm_compute. reflexivity.
  - exists st'. split; [exact Hcheck|]. split; [|exact Hrec].
    apply Hip. vm_compute. lia.
Defined.

(** Where C3 stops: with a maximum of 0 the first check of the second
    address is limited as well. *)
Lemma rate_limit_collision_counterexample :
  address_a ≠ address_b ∧ ip_hash address_a = ip_hash address_b ∧
  ip (slot_of (check_rate_limit (limiter_config 0) 0 address_a rate_limit_start).2
        address_a) = address_a ∧
  (check_rate_limit (limiter_config 0) 1 address_b
     (check_rate_limit (limiter_config 0) 0 address_a rate_limit_start).2).1 = 1.
Proof.
  split; [discriminate|]. repeat split; vm_compute; reflexivity.
Qed.

End limiter_instances.

(** ** Requests and responses *)

Section http_instances.
Import Server.

(** A directory request without trailing slash gets the same bytes
    whatever its path: [redirect_path] is computed and dropped. *)
Lemma redirect_response_ignores_path config env now request dir_st c :
  method request = "GET" →
  fs_stat env (requested_path config request) = Some dir_st →
  st_is_dir dir_st = true →
  last_char (path request) = Some c → c ≠ "/"%char →
  handle_client_exchange config env now request =
    Some [format_response_header 301 (Some "Moved Permanently")
            (format_gmt env now) (Some MIME_TEXT) 0
            (snprintf 1024 ("Cache-Control: no-store" +:+ CRLF)) EmptyString
            (if negb (keep_alive request =? 0) then "keep-alive" else "close")].
Proof.
  intros Hget Hstat Hdir Hlast Hc.
  unfold handle_client_exchange, handle_http_request. rewrite Hget.
  cbn [strcmp_eq HTTP_METHOD_GET String.eqb Ascii.eqb Bool.eqb andb negb].
  fold (requested_path config request). rewrite Hstat, Hdir, Hlast.
  destruct (Ascii.eqb_spec c "/") as [|_]; [done|]. cbn [negb mbind option_bind].
  by rewrite send_bodyless.
Qed.

(** C2 at [GET /subdir]: a single write, the 301 header, which names
    neither a Location nor the target [/subdir/]. *)
Theorem redirect_omits_target :
  ∃ header,
    handle_client_exchange (limiter_config 2) (site_env gzip_fails) 0
      (site_request "GET" "/subdir" EmptyString EmptyString) = Some [header] ∧
    header =
      format_response_header 301 (Some "Moved Permanently")
        "Mon, 02 Nov 2026 00:00:00 GMT" (Some MIME_TEXT) 0
        ("Cache-Control: no-store" +:+ CRLF) EmptyString "close" ∧
    strstr header "Location" = None ∧
    strstr header "/subdir/" = None.
Proof.
  eexists. split; [vm_compute; reflexivity|].
  split; [vm_compute; reflexivity|].
  split; vm_compute; reflexivity.
Qed.

Lemma client_accepts_gzip_substring_witness :
  client_accepts_gzip (Some "gzip;q=0") = 1 ∧
  send_http_response (limiter_config 2) (site_env gzip_stub) 0
    (text_response "gzip;q=0") =
    [format_response_header 200 (Some "OK") "Mon, 02 Nov 2026 00:00:00 GMT"
       (Some MIME_TEXT) 2
       (response_cache_headers 0 (text_response "gzip;q=0"))
       ("Content-Encoding: gzip" +:+ CRLF) "close";
     "GZ"].
Proof.
  destruct client_accepts_gzip_substring as (_ & Hspec & _ & Hsend).
  split.
  - apply Hspec. exists EmptyString, ";q=0". reflexivity.
  - apply (Hsend (limiter_config 2) (site_env gzip_stub) 0
             (text_response "gzip;q=0") _ "hello world" "GZ" eq_refl eq_refl
             eq_refl eq_refl eq_refl).
    + vm_compute. discriminate.
    + vm_compute. reflexivity.
    + vm_compute. reflexivity.
    + reflexivity.
Defined.

End http_instances.

(** ** Further instances *)

Section pool_instances_more.
Import ThreadPool.

Lemma pool_full_reachable : pool_reachable pool_full.
Proof.
  exists 1, 2, pool_of_two. split; [reflexivity|].
  eapply rtc_l; [apply (step_submit _ (Some (Task 4 1)))|].
  eapply rtc_l; [apply (step_submit _ (Some (Task 5 2)))|].
  apply rtc_refl.
Defined.

Lemma pool_indices_in_bounds_witness :
  length (queue pool_full) = Z.to_nat (queue_size pool_full) ∧
  Z.of_nat (length (pending pool_full)) = count pool_full ∧
  (count pool_full ≠ queue_size pool_full →
     (Z.to_nat (tail pool_full) < length (queue pool_full))%nat ∧
     0 ≤ tail pool_full) ∧
  (count pool_full ≠ 0 →
     (Z.to_nat (head pool_full) < length (queue pool_full))%nat ∧
     0 ≤ head pool_full).
Proof. exact (pool_indices_in_bounds pool_full pool_full_reachable). Defined.

Lemma pool_frozen_after_shutdown_witness :
  worker_thread pool_stopped = WorkerExits ∧
  ∀ p', rtc pool_step pool_stopped p' → p' = pool_stopped.
Proof.
  apply (pool_frozen_after_shutdown pool_stopped). vm_compute. discriminate.
Defined.

Lemma pool_behaves_as_bounded_fifo_witness :
  (pool_run pool_events pool_of_two).1 =
  (fifo_run 2 pool_events (BoundedFifo [] false)).1.
Proof.
  apply (pool_behaves_as_bounded_fifo 1 2 pool_of_two pool_events). reflexivity.
Defined.

Lemma destroy_closes_queued_sockets_witness :
  thread_pool_destroy_closes pool_full ≡ₚ
  client_socket <$> omap id (pending pool_full).
Proof. exact (destroy_closes_queued_sockets pool_full pool_full_reachable). Defined.

End pool_instances_more.

Section acceptor_instances.
Import ThreadPool.

Lemma no_accepted_connection_is_lost_witness :
  ∃ queued,
    pending pool_full ++ (Some <$> queued) =
      handed_over (accept_loop accept_events pool_full) ++
      pending (pool_after (accept_loop accept_events pool_full)) ∧
    client_socket <$> accepted accept_events ≡ₚ
      (client_socket <$> queued) ++
      closed_at_once (accept_loop accept_events pool_full).
Proof.
  exact (no_accepted_connection_is_lost accept_events pool_full pool_full_reachable).
Defined.

End acceptor_instances.

Section limiter_instances_more.
Import Server.

Lemma rate_limit_table_in_bounds_witness :
  length (rate_limit_table after_three_checks) = 1024%nat ∧
  (Z.to_nat (ip_hash address_b) < length (rate_limit_table after_three_checks))%nat ∧
  length (timestamps (slot_of after_three_checks address_b)) = 1000%nat ∧
  0 ≤ count (slot_of after_three_checks address_b) ≤ 1000 ∧
  0 ≤ current_index (slot_of after_three_checks address_b) < 1000.
Proof.
  exact (rate_limit_table_in_bounds (limiter_config 2) after_three_checks
           address_b after_three_checks_reachable).
Defined.

Lemma rate_limit_slots_independent_witness :
  let '(r1, st1) := check_rate_limit (limiter_config 2) 0 address_a rate_limit_start in
  let '(r2, st12) := check_rate_limit (limiter_config 2) 1 address_c st1 in
  let '(r2', st2) := check_rate_limit (limiter_config 2) 1 address_c rate_limit_start in
  let '(r1', st21) := check_rate_limit (limiter_config 2) 0 address_a st2 in
  slot_of st1 address_c = slot_of rate_limit_start address_c ∧
  r1 = r1' ∧ r2 = r2' ∧ st12 = st21.
Proof.
  apply (rate_limit_slots_independent (limiter_config 2) rate_limit_start
           address_a address_c 0 1).
  - apply rtc_refl.
  - vm_compute. discriminate.
Defined.

Lemma rate_limit_rejection_leaves_table_witness :
  (check_rate_limit (limiter_config 1) 1 address_a after_first_check).2
  = after_first_check.
Proof.
  apply (rate_limit_rejection_leaves_table (limiter_config 1) after_first_check
           address_a 1).
  - simpl. lia.
  - vm_compute. reflexivity.
Defined.

Lemma rate_limit_never_exceeds_witness :
  Z.of_nat (length (filter (λ t, 0 ≤ t ≤ 0 + rate_limit_interval (limiter_config 2))
    (allowed_at [0; 10; 20; 70]
       (check_rate_limit_seq (limiter_config 2) address_a [0; 10; 20; 70]
          rate_limit_start).1)))
  ≤ rate_limit_max (limiter_config 2).
Proof.
  apply (rate_limit_never_exceeds (limiter_config 2) rate_limit_start address_a
           [0; 10; 20; 70] 0).
  - simpl. lia.
  - simpl. lia.
  - simpl. lia.
  - apply rtc_refl.
  - left. vm_compute. reflexivity.
  - repeat constructor; lia.
Defined.

End limiter_instances_more.

Section http_instances_more.
Import Server.

Lemma handler_status_lines_witness :
  ∃ resp,
    handle_http_request (limiter_config 2) (site_env gzip_stub)
      (site_request "GET" "/missing" EmptyString "gzip")
      (blank_response (site_request "GET" "/missing" EmptyString "gzip"))
    = Some resp ∧
    status_code resp ∈ [200; 301; 304; 404; 405; 500] ∧
    status_text resp = Some (get_status_text (status_code resp)) ∧
    is_Some (content_type resp) ∧
    response_keep_alive resp =
      keep_alive (site_request "GET" "/missing" EmptyString "gzip") ∧
    (status_code resp ≠ 200 → status_code resp ≠ 304 →
     content_type resp = Some MIME_TEXT).
Proof.
  eexists. split; [vm_compute; reflexivity|].
  apply (handler_status_lines (limiter_config 2) (site_env gzip_stub)
           (site_request "GET" "/missing" EmptyString "gzip")).
  vm_compute. reflexivity.
Defined.

Lemma mime_type_by_extension_witness :
  get_mime_type ("./www/v1.0/INDEX" +:+ "." +:+ "HTML") =
  get_mime_type ("a" +:+ "." +:+ "html").
Proof.
  apply (mime_type_by_extension "./www/v1.0/INDEX" "a" "HTML" "html");
    reflexivity.
Defined.

Lemma etag_round_trip_witness :
  (∃ age, response_cache_headers 300 (text_response "gzip") =
      "Cache-Control: public, max-age=" +:+ age +:+ CRLF +:+
      "ETag: " +:+ sent_etag (content_length (text_response "gzip")) 300 +:+ CRLF) ∧
  (if_none_match (site_request "GET" "/a.txt" (sent_etag 11 300) "gzip") =
     sent_etag (content_length (text_response "gzip")) 300 →
   (status_code
      (handle_http_request_file (site_env gzip_stub)
         (site_request "GET" "/a.txt" (sent_etag 11 300) "gzip")
         (blank_response (site_request "GET" "/a.txt" (sent_etag 11 300) "gzip"))
         "./www/a.txt" (FileStat false 11 255)) = 304 ↔
    content_length (text_response "gzip") mod 2 ^ 64 =
      st_size (FileStat false 11 255) mod 2 ^ 64 ∧
    300 mod 2 ^ 64 = st_mtime (FileStat false 11 255) mod 2 ^ 64)).
Proof.
  apply (etag_round_trip (site_env gzip_stub) 300 (text_response "gzip") MIME_TEXT);
    reflexivity.
Defined.

End http_instances_more.

Section parser_instances.
Import Server.

Lemma parse_request_line_round_trip_witness :
  let parsed :=
    parse_http_request
      (RecvBytes ("GET" +:+ " " +:+ "/index.html" +:+ " " +:+ "HTTP/1.1" +:+
                  CRLF +:+ keep_alive_request))
      address_a zero_request in
  parsed.1 = 1 ∧
  method (core parsed.2) = "GET" ∧ path (core parsed.2) = "/index.html" ∧
  version parsed.2 = "HTTP/1.1".
Proof.
  apply (parse_request_line_round_trip "GET" "/index.html" "HTTP/1.1"
           keep_alive_request address_a zero_request);
    (reflexivity || (simpl; lia)).
Defined.

Lemma parse_never_stores_body_witness :
  request_body
    (parse_http_request
       (RecvBytes (String "P" ("OST /a.txt HTTP/1.1" +:+ CRLF +:+
                               "Content-Length: 5" +:+ CRLF +:+ CRLF +:+ "hello")))
       address_a zero_request).2
  = request_body zero_request.
Proof.
  apply (parse_never_stores_body "P"
           ("OST /a.txt HTTP/1.1" +:+ CRLF +:+ "Content-Length: 5" +:+ CRLF +:+
            CRLF +:+ "hello") address_a zero_request).
  reflexivity.
Defined.


Lemma request_without_path_reads_before_path_witness :
  let parsed :=
    parse_http_request (RecvBytes ("GET" +:+ CRLF +:+ CRLF)) address_a zero_request in
  parsed.1 = 1 ∧
  method (core parsed.2) = "GET" ∧ path (core parsed.2) = EmptyString ∧
  handle_http_request (limiter_config 2) root_env (core parsed.2)
    (blank_response (core parsed.2)) = None.
Proof.
  apply (request_without_path_reads_before_path (limiter_config 2) root_env
           "GET" CRLF address_a zero_request (FileStat true 4096 1000)).
  - left. reflexivity.
  - reflexivity.
  - vm_compute. reflexivity.
  - reflexivity.
Defined.


End parser_instances.

Section connection_instances.
Import Server.


End connection_instances.

(** ** The texts at concrete inputs *)

Section limiter_cap_instances.
Import Server.

Lemma rate_limit_quota_ring_cap_witness :
  (∃ st', check_rate_limit_seq (limiter_config 2) address_a [0; 30] rate_limit_start
            = ([0; 0], st') ∧
          recorded (slot_of st' address_a) = [0; 30] ∧
          ∃ st'', check_rate_limit (limiter_config 2) 45 address_a st' = (1, st'') ∧
                  recorded (slot_of st'' address_a) = [0; 30]) ∧
  (∃ st', check_rate_limit_seq (limiter_config 1001) address_a
            (replicate 1001 0) rate_limit_start = (replicate 1001 0, st') ∧
          ∃ st'', check_rate_limit (limiter_config 1001) 0 address_a st' = (0, st'')).
Proof.
  split.
  - destruct (rate_limit_quota_ring_cap (limiter_config 2) rate_limit_start
                address_a [0; 30] 0)
      as (st' & Hseq & Hrec & Hnext).
    + vm_compute. discriminate.
    + apply rtc_refl.
    + vm_compute. lia.
    + vm_compute. reflexivity.
    + vm_compute. discriminate.
    + repeat constructor; vm_compute; discriminate.
    + exists st'. split; [exact Hseq|]. split.
      * apply Hrec. vm_compute. discriminate.
      * apply (Hnext eq_refl 45); vm_compute; [split|]; discriminate.
  - destruct (rate_limit_quota_ring_cap (limiter_config 1001) rate_limit_start
                address_a (replicate 1001 0) 0)
      as (st' & Hseq & _ & Hnext).
    + vm_compute. discriminate.
    + apply rtc_refl.
    + vm_compute. lia.
    + vm_compute. reflexivity.
    + vm_compute. discriminate.
    + apply Forall_replicate. vm_compute. split; discriminate.
    + exists st'. split; [exact Hseq|].
      apply (Hnext eq_refl 0); vm_compute; [split; discriminate|reflexivity].
Defined.

End limiter_cap_instances.

Section text_instances.
Import Server.

Lemma conditional_request_not_modified_witness :
  ∃ resp,
    handle_http_request (limiter_config 2) (site_env gzip_fails)
      (site_request "GET" "/a.txt" ("W/" +:+ DQUOTE +:+ "b-ff" +:+ DQUOTE) EmptyString)
      (blank_response
         (site_request "GET" "/a.txt" ("W/" +:+ DQUOTE +:+ "b-ff" +:+ DQUOTE)
            EmptyString)) = Some resp ∧
    status_code resp = 304 ∧ body resp = None ∧ content_length resp = 0 ∧
    send_http_response (limiter_config 2) (site_env gzip_fails) 0 resp =
      ["HTTP/1.1 304 Not Modified" +:+ CRLF +:+
       "Server: CServer/1.0" +:+ CRLF +:+
       "Date: Mon, 02 Nov 2026 00:00:00 GMT" +:+ CRLF +:+
       "Content-Type: text/plain; charset=UTF-8" +:+ CRLF +:+
       "Content-Length: 0" +:+ CRLF +:+
       "Cache-Control: no-store" +:+ CRLF +:+
       "Connection: close" +:+ CRLF +:+
       CRLF].
Proof.
  set (req := site_request "GET" "/a.txt" ("W/" +:+ DQUOTE +:+ "b-ff" +:+ DQUOTE)
                EmptyString).
  destruct (conditional_request_not_modified (limiter_config 2)
              (site_env gzip_fails) 0 req (blank_response req)
              (requested_path (limiter_config 2) req) (FileStat false 11 255))
    as (_ & Hmatch & _).
  - left. reflexivity.
  - apply resolves_file; vm_compute; reflexivity.
  - vm_compute. lia.
  - destruct Hmatch as (resp & Hresp & H304 & Hbody & Hlen & Hsent).
    + exists EmptyString, EmptyString. vm_compute. reflexivity.
    + exists resp. split; [exact Hresp|]. split; [exact H304|].
      split; [exact Hbody|]. split; [exact Hlen|].
      rewrite Hsent. vm_compute. reflexivity.
Defined.

Lemma head_response_drops_length_witness :
  ∃ resp,
    handle_http_request (limiter_config 2) (site_env gzip_fails)
      (site_request "HEAD" "/a.txt" EmptyString EmptyString)
      (blank_response (site_request "HEAD" "/a.txt" EmptyString EmptyString))
      = Some resp ∧
    status_code resp = 200 ∧ body resp = None ∧ content_length resp = 0 ∧
    send_http_response (limiter_config 2) (site_env gzip_fails) 300 resp =
      ["HTTP/1.1 200 OK" +:+ CRLF +:+
       "Server: CServer/1.0" +:+ CRLF +:+
       "Date: Mon, 02 Nov 2026 00:00:00 GMT" +:+ CRLF +:+
       "Content-Type: text/plain; charset=UTF-8" +:+ CRLF +:+
       "Content-Length: 0" +:+ CRLF +:+
       "Cache-Control: public, max-age=86400" +:+ CRLF +:+
       "ETag: W/" +:+ DQUOTE +:+ "0-12c" +:+ DQUOTE +:+ CRLF +:+
       "Connection: close" +:+ CRLF +:+
       CRLF].
Proof.
  set (req := site_request "HEAD" "/a.txt" EmptyString EmptyString).
  destruct (head_response_drops_length (limiter_config 2)
              (site_env gzip_fails) 300 req (blank_response req)
              (requested_path (limiter_config 2) req) (FileStat false 11 255)
              "hello world")
    as ((resp & Hresp & Hbody & Hlen & _ & H200 & Hsent & _) & _).
  - reflexivity.
  - apply resolves_file; vm_compute; reflexivity.
  - vm_compute. reflexivity.
  - vm_compute. split; discriminate.
  - vm_compute. lia.
  - exists resp. split; [exact Hresp|].
    assert (status_code resp = 200) as Hcode by (apply H200; vm_compute; reflexivity).
    split; [exact Hcode|]. split; [exact Hbody|]. split; [exact Hlen|].
    vm_compute in Hresp. injection Hresp as <-. vm_compute. reflexivity.
Defined.

Lemma gzip_applied_iff_witness :
  send_http_response (limiter_config 2) (site_env gzip_stub) 0
    (text_response "gzip, deflate") =
    ["HTTP/1.1 200 OK" +:+ CRLF +:+
     "Server: CServer/1.0" +:+ CRLF +:+
     "Date: Mon, 02 Nov 2026 00:00:00 GMT" +:+ CRLF +:+
     "Content-Type: text/plain; charset=UTF-8" +:+ CRLF +:+
     "Content-Length: 2" +:+ CRLF +:+
     "Cache-Control: public, max-age=86400" +:+ CRLF +:+
     "ETag: W/" +:+ DQUOTE +:+ "b-0" +:+ DQUOTE +:+ CRLF +:+
     "Content-Encoding: gzip" +:+ CRLF +:+
     "Connection: close" +:+ CRLF +:+
     CRLF;
     "GZ"] ∧
  send_http_response (limiter_config 2) (site_env gzip_stub) 0
    (text_response "identity") =
    ["HTTP/1.1 200 OK" +:+ CRLF +:+
     "Server: CServer/1.0" +:+ CRLF +:+
     "Date: Mon, 02 Nov 2026 00:00:00 GMT" +:+ CRLF +:+
     "Content-Type: text/plain; charset=UTF-8" +:+ CRLF +:+
     "Content-Length: 11" +:+ CRLF +:+
     "Cache-Control: public, max-age=86400" +:+ CRLF +:+
     "ETag: W/" +:+ DQUOTE +:+ "b-0" +:+ DQUOTE +:+ CRLF +:+
     "Connection: close" +:+ CRLF +:+
     CRLF;
     "hello world"].
Proof.
  destruct (gzip_applied_iff (limiter_config 2) (site_env gzip_stub) 0
              (text_response "gzip, deflate")) as (Happlied & _).
  { vm_compute. split; [discriminate|reflexivity]. }
  { vm_compute. split; reflexivity. }
  { vm_compute. lia. }
  destruct (gzip_applied_iff (limiter_config 2) (site_env gzip_stub) 0
              (text_response "identity")) as (_ & Hplain).
  { vm_compute. split; [discriminate|reflexivity]. }
  { vm_compute. split; reflexivity. }
  { vm_compute. lia. }
  split.
  - rewrite (Happlied "GZ"); [vm_compute; reflexivity|].
    split; [vm_compute; discriminate|]. split; [reflexivity|].
    split.
    { exists MIME_TEXT, "text/", "plain; charset=UTF-8".
      split; [reflexivity|]. split; [|reflexivity]. by repeat constructor. }
    split; [vm_compute; reflexivity|].
    split.
    { exists (site_request "GET" "/a.txt" EmptyString "gzip, deflate"),
        EmptyString, ", deflate".
      split; reflexivity. }
    exists "hello world". split; reflexivity.
  - rewrite Hplain; [vm_compute; reflexivity|].
    intros (z & _ & _ & _ & _ & (req & before & after & Hreq & Hae) & _).
    injection Hreq as <-.
    assert (client_accepts_gzip (Some "identity") = 1) as Hyes.
    { apply client_accepts_gzip_spec. exists before, after. exact Hae. }
    vm_compute in Hyes. discriminate.
Defined.

(** Where C7 stops: compression is enabled, the status is 200, the
    type begins with [text/], the body is longer than the minimum and
    the request accepts gzip, but zlib fails; the body is sent as it
    is, with its own length and without an encoding line. *)
Lemma gzip_applied_counterexample :
  enable_gzip (limiter_config 2) ≠ 0 ∧
  get_mime_type "./www/a.txt" = "text/" +:+ "plain; charset=UTF-8" ∧
  gzip_min_size (limiter_config 2) < Z.of_nat (String.length "hello world") ∧
  accept_encoding (site_request "GET" "/a.txt" EmptyString "gzip") = "gzip" ∧
  handle_client_exchange (limiter_config 2) (site_env gzip_fails) 0
    (site_request "GET" "/a.txt" EmptyString "gzip") =
    Some ["HTTP/1.1 200 OK" +:+ CRLF +:+
          "Server: CServer/1.0" +:+ CRLF +:+
          "Date: Mon, 02 Nov 2026 00:00:00 GMT" +:+ CRLF +:+
          "Content-Type: text/plain; charset=UTF-8" +:+ CRLF +:+
          "Content-Length: 11" +:+ CRLF +:+
          "Cache-Control: public, max-age=86400" +:+ CRLF +:+
          "ETag: W/" +:+ DQUOTE +:+ "b-0" +:+ DQUOTE +:+ CRLF +:+
          "Connection: close" +:+ CRLF +:+
          CRLF;
          "hello world"].
Proof.
  split; [discriminate|]. split; [vm_compute; reflexivity|].
  split; [vm_compute; reflexivity|]. split; [reflexivity|].
  vm_compute. reflexivity.
Qed.

Lemma exchange_content_length_witness :
  handle_client_exchange (limiter_config 2) (site_env gzip_stub) 300
    (site_request "GET" "/a.txt" EmptyString "gzip") =
    Some ["HTTP/1.1 200 OK" +:+ CRLF +:+
          "Server: CServer/1.0" +:+ CRLF +:+
          "Date: Mon, 02 Nov 2026 00:00:00 GMT" +:+ CRLF +:+
          "Content-Type: text/plain; charset=UTF-8" +:+ CRLF +:+
          "Content-Length: 2" +:+ CRLF +:+
          "Cache-Control: public, max-age=86400" +:+ CRLF +:+
          "ETag: W/" +:+ DQUOTE +:+ "b-12c" +:+ DQUOTE +:+ CRLF +:+
          "Content-Encoding: gzip" +:+ CRLF +:+
          "Connection: close" +:+ CRLF +:+
          CRLF;
          "GZ"] ∧
  ∃ resp line type encoding bodies,
    handle_http_request (limiter_config 2) (site_env gzip_stub)
      (site_request "GET" "/a.txt" EmptyString "gzip")
      (blank_response (site_request "GET" "/a.txt" EmptyString "gzip"))
    = Some resp ∧
    line ∈ ["200 OK"; "301 Moved Permanently"; "304 Not Modified";
            "404 Not Found"; "405 Method Not Allowed";
            "500 Internal Server Error"] ∧
    content_type resp = Some type ∧
    send_http_response (limiter_config 2) (site_env gzip_stub) 300 resp =
      ("HTTP/1.1 " +:+ line +:+ CRLF +:+
       "Server: CServer/1.0" +:+ CRLF +:+
       "Date: Mon, 02 Nov 2026 00:00:00 GMT" +:+ CRLF +:+
       "Content-Type: " +:+ type +:+ CRLF +:+
       "Content-Length: " +:+
         printf_zu (Z.of_nat (list_sum (String.length <$> bodies))) +:+ CRLF +:+
       response_cache_headers 300 resp +:+
       encoding +:+
       "Connection: close" +:+ CRLF +:+
       CRLF) :: bodies ∧
    ((∃ bytes z,
        body resp = Some bytes ∧ gzip_stub bytes = Some z ∧
        encoding = "Content-Encoding: gzip" +:+ CRLF ∧ bodies = [z]) ∨
     (encoding = EmptyString ∧
      bodies = match body resp with Some bytes => [bytes] | None => [] end)).
Proof.
  split; [vm_compute; reflexivity|].
  destruct (exchange_content_length (limiter_config 2) (site_env gzip_stub) 300
              (site_request "GET" "/a.txt" EmptyString "gzip")
              (send_http_response (limiter_config 2) (site_env gzip_stub) 300
                 (build_http_response
                    (blank_response (site_request "GET" "/a.txt" EmptyString "gzip"))
                    HTTP_OK MIME_TEXT (Some "hello world") 11)))
    as (resp & line & type & encoding & bodies & Hresp & Hline & Htype & Hwrites
        & Hcase).
  - vm_compute. lia.
  - vm_compute. reflexivity.
  - exists resp, line, type, encoding, bodies.
    split; [exact Hresp|]. split; [exact Hline|]. split; [exact Htype|].
    split; [|exact Hcase].
    vm_compute in Hresp. injection Hresp as <-. exact Hwrites.
Defined.

End text_instances.

Section connection_text_instances.
Import Server.

Lemma limited_client_gets_429_witness :
  handle_client (limiter_config 1) (site_env gzip_stub) address_a
    [Turn 1 (RecvBytes plain_request) 2; Turn 3 RecvClosed 4] after_first_check =
    Some {| sent :=
              ["HTTP/1.1 429 Too Many Requests" +:+ CRLF +:+
               "Server: CServer/1.0" +:+ CRLF +:+
               "Date: Mon, 02 Nov 2026 00:00:00 GMT" +:+ CRLF +:+
               "Content-Type: text/plain" +:+ CRLF +:+
               "Content-Length: 42" +:+ CRLF +:+
               "Cache-Control: no-store" +:+ CRLF +:+
               "Connection: close" +:+ CRLF +:+
               CRLF;
               "Too many requests. Please try again later."];
            closed := true;
            limiter :=
              (check_rate_limit (limiter_config 1)
                 (at_check (Turn 1 (RecvBytes plain_request) 2)) address_a
                 after_first_check).2 |}.
Proof.
  apply (limited_client_gets_429 (limiter_config 1) (site_env gzip_stub)
           address_a (Turn 1 (RecvBytes plain_request) 2) [Turn 3 RecvClosed 4]
           after_first_check).
  - vm_compute. discriminate.
  - vm_compute. lia.
Defined.

End connection_text_instances.
